(** * istore: the bit-vector primitive and the LSH index

    A shallow embedding of [bitvector/bitvector.go] and of the [lsh]
    package (indexer, paged storage, page iterator), with the properties
    of the specification stated over it.

    Conventions of the embedding.
    - Go's [int], [uint], [int32], [uint8], [uint32] and [uint64] values are
      integers in [Z]; conversions that can lose bits are written out
      ([uint8], [int32], [uint32]).
    - A Go run-time panic is a [Fault]: an operation that can panic returns
      a [res].  A loop whose termination depends on the data (the page
      iterator) takes fuel and reports [OutOfFuel] when it is exhausted.
    - A Go slice is its elements together with its capacity; [append]
      moves the elements to a fresh backing array exactly when the
      capacity is exhausted, and a pointer taken into the old array
      does not follow them. *)

From Stdlib Require Import ZArith Lia Btauto List Ascii String Sorting.Sorted Sorting.Permutation.
From stdpp Require Import base tactics option list sorting gmap.
From coqutil Require Import Z.bitblast.

Local Open Scope Z_scope.

(** ** Outcomes of Go code that can panic *)

Inductive fault : Type :=
| IndexOutOfRange          (* runtime error: index out of range *)
| SliceOutOfRange          (* runtime error: slice bounds out of range *)
| MakeOutOfRange           (* runtime error: makeslice: len/cap out of range *)
| NilDereference           (* runtime error: invalid memory address *)
| ExplicitPanic (v : Z)    (* panic(v) written in the source *)
| ConfigPanic              (* panic("currently bitsize > 32 is not supported") *)
| OutOfFuel.               (* the model's loop bound was reached *)

Inductive res (A : Type) : Type :=
| Val (a : A)
| Fault (f : fault).
Arguments Val {A} a.
Arguments Fault {A} f.

Definition res_bind {A B : Type} (m : res A) (k : A -> res B) : res B :=
  match m with
  | Val a => k a
  | Fault f => Fault f
  end.

#[global] Instance res_ret : MRet res := fun A a => Val a.
#[global] Instance res_mbind : MBind res := fun A B k m => res_bind m k.

Definition is_Val {A : Type} (m : res A) : Prop := exists a, m = Val a.

(** [l[j]] for a Go index expression: a fault outside [0 <= j < len l]. *)
Definition index {A : Type} (l : list A) (j : Z) : res A :=
  if (j <? 0) then Fault IndexOutOfRange
  else match l !! Z.to_nat j with
       | Some a => Val a
       | None => Fault IndexOutOfRange
       end.

(** [l[j] = a] for a Go index assignment. *)
Definition assign {A : Type} (l : list A) (j : Z) (a : A) : res (list A) :=
  if (j <? 0) || (Z.of_nat (length l) <=? j) then Fault IndexOutOfRange
  else Val (<[Z.to_nat j := a]> l).

(** [make([]T, n, n)] filled with the zero value [z].  The run-time system
    also refuses a slice whose elements take more than [maxAlloc] bytes
    (below); [make] is the allocation of the byte buffer of [New], and
    covers the sizes up to that bound: a theorem about a size that the
    caller chooses carries the bound. *)
Definition make {A : Type} (z : A) (n : Z) : res (list A) :=
  if n <? 0 then Fault MakeOutOfRange else Val (replicate (Z.to_nat n) z).

(** The bound of [makeslice]: it panics when the elements of the slice
    take more than [maxAlloc] bytes, [1 << 48] on the 64-bit platforms of
    the gc toolchain.  An allocation within the bound is taken to
    succeed: running out of memory is a fatal error of the process and
    not a panic, and is not part of the embedding. *)
Definition maxAlloc : Z := 2 ^ 48.

Definition len {A : Type} (l : list A) : Z := Z.of_nat (length l).

(** Conversions to fixed-width integers. *)
Definition uint8 (z : Z) : Z := z mod 2 ^ 8.
Definition uint32 (z : Z) : Z := z mod 2 ^ 32.
Definition int32 (z : Z) : Z := (z + 2 ^ 31) mod 2 ^ 32 - 2 ^ 31.
Arguments uint8 : simpl never.
Arguments uint32 : simpl never.
Arguments int32 : simpl never.

(** ** Package bitvector *)

Module bitvector.

Record BitVector : Type := mkBitVector {
  size : Z;
  bits : list Z;
}.

(** [New]: the buffer holds [size >> 3] bytes. *)
Definition New (size : Z) : res BitVector :=
  let nbytes := Z.shiftr size 3 in
  bits ← make 0 nbytes;
  mret (mkBitVector size bits).

(** The mask [uint8(0x1) << (i & 0x7)]. *)
Definition mask (i : Z) : Z := uint8 (Z.shiftl (uint8 1) (Z.land i 7)).

(** [Set]: [bv.bits[i>>3] |= uint8(0x1) << (i & 0x7)]. *)
Definition Set_ (i : Z) (bv : BitVector) : res BitVector :=
  let j := Z.shiftr i 3 in
  b ← index (bits bv) j;
  bits' ← assign (bits bv) j (Z.lor b (mask i));
  mret (mkBitVector (size bv) bits').

(** [Unset]: [bv.bits[i>>3] &= ^(uint8(0x1) << (i & 0x7))]. *)
Definition Unset (i : Z) (bv : BitVector) : res BitVector :=
  let j := Z.shiftr i 3 in
  b ← index (bits bv) j;
  bits' ← assign (bits bv) j (Z.land b (uint8 (Z.lxor (mask i) 255)));
  mret (mkBitVector (size bv) bits').

(** [Get]: [(bv.bits[i>>3] & (uint8(0x1) << (i & 0x7))) != 0]. *)
Definition Get (i : Z) (bv : BitVector) : res bool :=
  b ← index (bits bv) (Z.shiftr i 3);
  mret (negb (Z.land b (mask i) =? 0)).

(** [String]: the loop [for i := 0; i < bv.size; i++], run for the
    [n] remaining iterations from [i]. *)
Fixpoint String_loop (n : nat) (i : Z) (bv : BitVector) (buf : string) : res string :=
  match n with
  | O => mret buf
  | S n' =>
      let buf1 :=
        if (0 <? i) && (i mod 8 =? 0) then String.append buf " "%string else buf in
      g ← Get i bv;
      let buf2 :=
        if (g : bool) then String.append buf1 "1"%string
        else String.append buf1 "0"%string in
      String_loop n' (i + 1) bv buf2
  end.

Definition String_ (bv : BitVector) : res string :=
  String_loop (Z.to_nat (size bv)) 0 bv EmptyString.

(** [Scan], first loop: the characters are read into a slice of booleans;
    [None] is the returned parse error.  A Go string is ranged over by
    rune; a rune equals ['0'], ['1'] or [' '] exactly when it is that one
    byte, so ranging over the bytes takes the same branches. *)
Fixpoint Scan_chars (s : string) (acc : list bool) : option (list bool) :=
  match s with
  | EmptyString => Some acc
  | String c s' =>
      if Ascii.eqb c "1"%char then Scan_chars s' (acc ++ [true])
      else if Ascii.eqb c "0"%char then Scan_chars s' (acc ++ [false])
      else if Ascii.eqb c " "%char then Scan_chars s' acc
      else None
  end.

(** [Scan], second loop: [for i, b := range bits { if b { bv.Set(uint(i)) } }]. *)
Fixpoint Scan_set (bs : list bool) (i : Z) (bv : BitVector) : res BitVector :=
  match bs with
  | [] => mret bv
  | b :: bs' =>
      bv' ← (if b then Set_ i bv else mret bv);
      Scan_set bs' (i + 1) bv'
  end.

(** [Scan]: [Val (Some bv)] is [(bv, nil)], [Val None] is the parse error
    [(nil, err)], a [Fault] is a panic. *)
Definition Scan (s : string) : res (option BitVector) :=
  match Scan_chars s [] with
  | None => mret None
  | Some bs =>
      bv ← New (len bs);
      bv' ← Scan_set bs 0 bv;
      mret (Some bv')
  end.

(** [Uint64]: the integer value of the first bits, byte 0 least significant. *)
Definition Uint64 (bv : BitVector) : res Z :=
  if size bv <=? 8 then
    index (bits bv) 0
  else if size bv <=? 16 then
    b1 ← index (bits bv) 1; b0 ← index (bits bv) 0;
    mret (Z.lor (Z.shiftl b1 8) b0)
  else if size bv <=? 24 then
    b2 ← index (bits bv) 2; b1 ← index (bits bv) 1; b0 ← index (bits bv) 0;
    mret (Z.lor (Z.lor (Z.shiftl b2 16) (Z.shiftl b1 8)) b0)
  else
    b3 ← index (bits bv) 3; b2 ← index (bits bv) 2;
    b1 ← index (bits bv) 1; b0 ← index (bits bv) 0;
    mret (Z.lor (Z.lor (Z.lor (Z.shiftl b3 24) (Z.shiftl b2 16)) (Z.shiftl b1 8)) b0).

(** [ByteSize]: [(bv.size+7) >> 3]. *)
Definition ByteSize (bv : BitVector) : Z := Z.shiftr (size bv + 7) 3.

(** Modelled from the spec: the table [popcnt] indexed by a byte is not in
    the source file; it holds the population count of its index
    (the number of set bits among the eight). *)
Definition popcnt (b : Z) : Z :=
  fold_right (fun i acc => Z.b2z (Z.testbit b (Z.of_nat i)) + acc) 0 (seq 0 8).
Arguments popcnt : simpl never.

(** [Hamming]: the loop [for i := 0; i < x.ByteSize(); i++], run for the
    [n] remaining iterations from [i]. *)
Fixpoint Hamming_loop (n : nat) (i : Z) (x y : BitVector) (dist : Z) : res Z :=
  match n with
  | O => mret dist
  | S n' =>
      xi ← index (bits x) i;
      yi ← index (bits y) i;
      Hamming_loop n' (i + 1) x y (dist + popcnt (uint8 (Z.lxor xi yi)))
  end.

Definition Hamming (x y : BitVector) : res Z :=
  Hamming_loop (Z.to_nat (ByteSize x)) 0 x y 0.

(** Modelled from the spec: [Uint32] is called by the indexer and is not in
    the source file.  The spec defines it as the first (at most 32) bits
    as an unsigned integer, the bytes packed little-endian with byte 0
    least significant: the packing of [Uint64], converted to [uint32]. *)
Definition Uint32 (bv : BitVector) : res Z :=
  v ← Uint64 bv;
  mret (uint32 v).

(** Modelled from the spec: [FromUint32] is called by the indexer and is not
    in the source file.  A bucket key is the bit vector's first bits
    reinterpreted as an unsigned 32-bit integer, and a bit vector of
    [size] bits has a buffer of [ceil(size/8)] bytes: byte [j] of the
    vector is byte [j] of the key. *)
Definition FromUint32 (k : Z) (size : Z) : BitVector :=
  mkBitVector size
    (map (fun j => uint8 (Z.shiftr k (8 * Z.of_nat j)))
         (seq 0 (Z.to_nat (Z.shiftr (size + 7) 3)))).

(** [ByHamming.Less] on the elements themselves: [a] is closer to the
    center [c] than [b]. *)
Definition ByHamming_Less (c a b : BitVector) : res bool :=
  dist_i ← Hamming c a;
  dist_j ← Hamming c b;
  mret (dist_i <? dist_j).

(** [SortFrom] hands the slice to [sort.Sort], which leaves it in some
    order without inversions for [Less]; which of these orders is not
    specified.  [sorted_from c l l'] says that [l'] is a possible result
    of sorting [l] by the distance from [c]. *)
Definition no_inversion (c a b : BitVector) : Prop :=
  ByHamming_Less c b a = Val false.

Definition sorted_from (c : BitVector) (l l' : list BitVector) : Prop :=
  l' ≡ₚ l /\ Sorted (no_inversion c) l'.

(** One such order, computed by insertion. *)
Fixpoint insert_from (c a : BitVector) (l : list BitVector) : res (list BitVector) :=
  match l with
  | [] => mret [a]
  | b :: l' =>
      lt ← ByHamming_Less c a b;
      if (lt : bool) then mret (a :: b :: l')
      else r ← insert_from c a l'; mret (b :: r)
  end.

Fixpoint SortFrom (c : BitVector) (l : list BitVector) : res (list BitVector) :=
  match l with
  | [] => mret []
  | a :: l' => r ← SortFrom c l'; insert_from c a r
  end.

(** The bit vectors of the data model: [n] bits in a buffer of
    [ByteSize] bytes. *)
Definition is_byte (b : Z) : Prop := 0 <= b < 256.

Record wf_bits (n : Z) (bv : BitVector) : Prop := mk_wf_bits {
  wf_size : size bv = n;
  wf_len : len (bits bv) = ByteSize bv;
  wf_bytes : Forall is_byte (bits bv);
}.

(** The ['0'] and ['1'] characters of a string, its content without the
    space separators. *)
Fixpoint content (s : string) : list ascii :=
  match s with
  | EmptyString => []
  | String c s' => if Ascii.eqb c " "%char then content s' else c :: content s'
  end.

Definition bitchar (b : bool) : ascii := if b then "1"%char else "0"%char.

(** The population count of the XOR of corresponding bytes, summed: the
    number of differing bits of two buffers. *)
Definition xor_popcount (xs ys : list Z) : Z :=
  foldr Z.add 0 (zip_with (fun a b => popcnt (uint8 (Z.lxor a b))) xs ys).

(** *** The rest of the package *)

(** [MustScan]: [Scan], with the parse error turned into [panic(err)]. *)
Inductive must (A : Type) : Type :=
| Returned (a : A)            (* the value returned *)
| PanicError                  (* panic(err) with the error of [Scan] *)
| RuntimePanic (f : fault).   (* a panic of the run-time system *)
Arguments Returned {A} a.
Arguments PanicError {A}.
Arguments RuntimePanic {A} f.

Definition MustScan (s : string) : must BitVector :=
  match Scan s with
  | Val (Some bv) => Returned bv
  | Val None => PanicError
  | Fault f => RuntimePanic f
  end.

(** [BitVectorSlice], the slice type with the methods of [sort.Interface]. *)
Definition BitVectorSlice_Len (s : list BitVector) : Z := len s.

(** [BitVectorSlice.Less], the loop [for x := 0; x < s[i].ByteSize(); x++]
    run for the [n] remaining iterations from [x].  The slice is not
    changed in between, so that the comparison that is returned reads
    the bytes that the test has read. *)
Fixpoint Less_loop (n : nat) (x : Z) (s : list BitVector) (i j : Z) : res bool :=
  match n with
  | O => mret false
  | S n' =>
      si ← index s i;
      a ← index (bits si) x;
      sj ← index s j;
      b ← index (bits sj) x;
      if negb (a =? b) then mret (a <? b)
      else Less_loop n' (x + 1) s i j
  end.

Definition BitVectorSlice_Less (s : list BitVector) (i j : Z) : res bool :=
  si ← index s i;
  Less_loop (Z.to_nat (ByteSize si)) 0 s i j.

(** [BitVectorSlice.Swap]: [s[i], s[j] = s[j], s[i]].  The right-hand side
    is read first, then the assignments are made from left to right. *)
Definition BitVectorSlice_Swap (s : list BitVector) (i j : Z) : res (list BitVector) :=
  sj ← index s j;
  si ← index s i;
  s1 ← assign s i sj;
  assign s1 j si.

(** The byte that holds bit [i] rewritten by [f]:
    [bv.bits[i>>3] = f(bv.bits[i>>3])]. *)
Definition update_byte (f : Z -> Z) (i : Z) (bv : BitVector) : res BitVector :=
  if decide (0 <= i / 8 < len (bits bv)) then
    Val (mkBitVector (size bv) (alter f (Z.to_nat (i / 8)) (bits bv)))
  else Fault IndexOutOfRange.

(** The characters that [Scan] accepts. *)
Definition scan_char (c : ascii) : bool :=
  Ascii.eqb c "1"%char || Ascii.eqb c "0"%char || Ascii.eqb c " "%char.

(** The number of bytes that [Uint64] reads from a vector of [size] bits. *)
Definition Uint64_bytes (size : Z) : Z :=
  if size <=? 8 then 1 else if size <=? 16 then 2 else if size <=? 24 then 3 else 4.

(** The lexicographic order of two buffers, byte 0 first. *)
Fixpoint lex_lt (xs ys : list Z) : bool :=
  match xs, ys with
  | x :: xs', y :: ys' => if x =? y then lex_lt xs' ys' else x <? y
  | _, _ => false
  end.

(** The rendering of the bits [gs], the first of which has index [i]: one
    character for each bit, ['1'] for a bit that is set and ['0'] for
    one that is not, with one space before each bit whose index is a
    positive multiple of 8. *)
Fixpoint layout (i : Z) (gs : list bool) : string :=
  match gs with
  | [] => EmptyString
  | g :: gs' =>
      let rest := String (bitchar g) (layout (i + 1) gs') in
      if (0 <? i) && (i mod 8 =? 0) then String " "%char rest else rest
  end.

End bitvector.

(** ** Package lsh: pages, storage, page iterator, indexer *)

Module lsh.
Import bitvector.

(** *** Pages *)

(** [len(p.items)]: a page holds an array of 1023 identifiers. *)
Definition PageSize : Z := 1023.

Record Page : Type := mkPage {
  nitems : Z;
  link : Z;
  items : list Z;
}.

(** The zero value [Page{}]. *)
Definition zeroPage : Page := mkPage 0 0 (replicate (Z.to_nat PageSize) 0).

Definition Page_Link (next : Z) (p : Page) : Page :=
  mkPage (nitems p) (int32 next) (items p).

Definition Page_Init (p : Page) : Page := Page_Link (-1) p.

Definition Page_Add (itemid : Z) (p : Page) : res Page :=
  let itemlen := nitems p in
  items' ← assign (items p) itemlen itemid;
  mret (mkPage (int32 (nitems p + 1)) (link p) items').

(** [p.items[:itemlen]]: a slice expression on an array faults outside
    [0 <= itemlen <= len(p.items)]. *)
Definition Page_Gets (p : Page) : res (list Z) :=
  let itemlen := nitems p in
  if (itemlen <? 0) || (len (items p) <? itemlen) then Fault SliceOutOfRange
  else mret (take (Z.to_nat itemlen) (items p)).

Definition Page_CountItems (p : Page) : Z := nitems p.

Definition Page_Next (p : Page) : Z := link p.

Definition Page_Full (p : Page) : bool := nitems p =? int32 (len (items p)).

(** *** Storage

    [s.pages] is a slice.  [pages] holds its elements and [pages_cap] its
    capacity.  [abandoned] keeps the backing arrays that [append] has
    left behind, oldest first, so that the current backing array is
    number [length abandoned]: a [*Page] is a backing array together
    with a position in it, and stays attached to its array when the
    slice moves. *)

Record Storage : Type := mkStorage {
  hash : list Z;
  pages : list Page;
  pages_cap : Z;
  abandoned : list (list Page);
}.

(** The zero value [Storage{}]: both slices nil. *)
Definition zeroStorage : Storage := mkStorage [] [] 0 [].

Record PagePtr : Type := mkPagePtr {
  ptr_array : nat;
  ptr_index : Z;
}.

Definition current_array (s : Storage) : nat := length (abandoned s).

(** Reading through the pointer [p]. *)
Definition load (p : PagePtr) (s : Storage) : res Page :=
  if decide (ptr_array p = current_array s) then index (pages s) (ptr_index p)
  else index (default [] (abandoned s !! ptr_array p)) (ptr_index p).

(** Updating the page [p] points at: the write lands in the array [p]
    points into. *)
Definition store (p : PagePtr) (f : Page -> Page) (s : Storage) : Storage :=
  if decide (ptr_array p = current_array s) then
    mkStorage (hash s) (alter f (Z.to_nat (ptr_index p)) (pages s)) (pages_cap s) (abandoned s)
  else
    mkStorage (hash s) (pages s) (pages_cap s)
      (alter (alter f (Z.to_nat (ptr_index p))) (ptr_array p) (abandoned s)).

(** [p.m(...)] for a method [m] with a pointer receiver that can panic. *)
Definition store_res (p : PagePtr) (f : Page -> res Page) (s : Storage) : res Storage :=
  pg ← load p s;
  pg' ← f pg;
  mret (store p (fun _ => pg') s).

(** [getPage]: [&s.pages[pageno]]. *)
Definition getPage (pageno : Z) (s : Storage) : res PagePtr :=
  _ ← index (pages s) pageno;
  mret (mkPagePtr (current_array s) pageno).

Section Storage.

(** The capacity that the run-time system gives the new backing array when
    [append] outgrows one of capacity [c]. *)
Variable growslice : Z -> Z.

(** [s.pages = append(s.pages, x)]: in place when the capacity allows,
    otherwise the elements move to a new backing array. *)
Definition append_page (x : Page) (s : Storage) : Storage :=
  if len (pages s) <? pages_cap s then
    mkStorage (hash s) (pages s ++ [x]) (pages_cap s) (abandoned s)
  else
    mkStorage (hash s) (pages s ++ [x])
      (Z.max (len (pages s) + 1) (growslice (pages_cap s)))
      (abandoned s ++ [pages s]).

(** [allocatePage] appends a new page and returns its page number. *)
Definition allocatePage (s : Storage) : res (Z * Storage) :=
  let n := len (pages s) in
  let s1 := append_page zeroPage s in
  p ← getPage n s1;
  mret (n, store p Page_Init s1).

(** *** Page iterator *)

Record pageIter : Type := mkPageIter {
  currno : Z;
  nextno : Z;
}.

Definition pageIterator (pageno : Z) : pageIter := mkPageIter (-1) pageno.

(** [iter.next()]: the returned boolean and the iterator after the call. *)
Definition next (s : Storage) (iter : pageIter) : res (bool * pageIter) :=
  if nextno iter =? -1 then mret (false, iter)
  else if len (pages s) <=? nextno iter then Fault (ExplicitPanic (nextno iter))
  else
    p ← getPage (nextno iter) s;
    pg ← load p s;
    mret (true, mkPageIter (nextno iter) (Page_Next pg)).

Definition iter_page (s : Storage) (iter : pageIter) : res PagePtr :=
  getPage (currno iter) s.

Definition iter_pageno (iter : pageIter) : Z := currno iter.

(** [for iter.next() { a = body(a, iter) }] for a body that does not
    change the storage. *)
Fixpoint for_pages {A : Type} (fuel : nat) (s : Storage) (iter : pageIter)
    (body : A -> pageIter -> res A) (a : A) : res A :=
  match fuel with
  | O => Fault OutOfFuel
  | S fuel' =>
      '(more, iter') ← next s iter;
      if (more : bool) then
        a' ← body a iter';
        for_pages fuel' s iter' body a'
      else mret a
  end.

(** Fuel that suffices whenever the chain has no cycle. *)
Definition fuel_of (s : Storage) : nat := S (length (pages s)).

(** [Storage.Add] adds the item to one of the pages and returns the page
    number that the item belongs to.  The pointer [page] to the last
    page of the chain is taken in the loop and still used after
    [allocatePage]: [page.Link] goes through [store] with the array that
    [page] was taken from. *)
Definition Storage_Add (itemid pageno : Z) (s : Storage) : res (Z * Storage) :=
  let iter := pageIterator pageno in
  '(page, pageno) ← for_pages (fuel_of s) s iter
        (fun (_ : option PagePtr * Z) it =>
           page ← iter_page s it; mret (Some page, iter_pageno it))
        (None, pageno);
  match (page : option PagePtr) with
  | None => Fault NilDereference
  | Some page =>
      pg ← load page s;
      if Page_Full pg then
        '(newpageno, s0) ← allocatePage s;
        let s1 := store page (Page_Link newpageno) s0 in
        page' ← getPage newpageno s1;
        s2 ← store_res page' (Page_Add itemid) s1;
        mret (newpageno, s2)
      else
        s2 ← store_res page (Page_Add itemid) s;
        mret (pageno, s2)
  end.

(** [Storage.Add] for each identifier of [ids] in turn, on the chain that
    starts at [pageno]. *)
Fixpoint Storage_Adds (ids : list Z) (pageno : Z) (s : Storage) : res Storage :=
  match ids with
  | [] => mret s
  | itemid :: ids' =>
      '(_, s') ← Storage_Add itemid pageno s;
      Storage_Adds ids' pageno s'
  end.

End Storage.

(** *** Indexer

    The float vectors, the hashing strategy behind the [Distance]
    interface and the random vector generator are not in the source
    files: they are the parameters of the indexer. *)

(** [F] stands for [float32]; a vector is a slice of them. *)
Class Distance (F : Type) : Type := {
  GetBitVector : list (list F) -> list F -> BitVector;
}.

Class VectorGen (F : Type) : Type := {
  RandomVectorGen : Type;
  NewRandomVectorGen : Z -> Z -> RandomVectorGen;
  Next : RandomVectorGen -> list F * RandomVectorGen;
  (* the dimension the generator was created with *)
  gen_vecsize : RandomVectorGen -> Z;
}.

Record Indexer (F : Type) : Type := mkIndexer {
  seed : Z;
  bitsize : Z;
  vecsize : Z;
  hyperplane : list (list F);
  storage : Storage;
  lookup : gmap Z Z;
}.
Arguments mkIndexer {F}.
Arguments seed {F}.
Arguments bitsize {F}.
Arguments vecsize {F}.
Arguments hyperplane {F}.
Arguments storage {F}.
Arguments lookup {F}.

Section Indexer.

Context {F : Type} {distance : Distance F} {vectorgen : VectorGen F}.
Variable growslice : Z -> Z.

(** [NewIndexer], the loop [for i := 0; i < bitsize; i++] that draws the
    hyperplanes, run for [n] iterations. *)
Fixpoint init_hyperplane (n : nat) (generator : RandomVectorGen) : list (list F) :=
  match n with
  | O => []
  | S n' => let '(v, generator') := Next generator in v :: init_hyperplane n' generator'
  end.

Definition NewIndexer (seed bitsize vecsize : Z) : res (Indexer F) :=
  if 32 <? bitsize then Fault ConfigPanic
  else
    let generator := NewRandomVectorGen seed vecsize in
    (* make([][]float32, bitsize, bitsize) *)
    if bitsize <? 0 then Fault MakeOutOfRange
    else
      mret (mkIndexer seed bitsize vecsize
              (init_hyperplane (Z.to_nat bitsize) generator)
              zeroStorage ∅).

Definition Indexer_Add (itemid : Z) (vec : list F) (idx : Indexer F) : res (Indexer F) :=
  let key := GetBitVector (hyperplane idx) vec in
  k ← Uint32 key;
  '(pageno, s, lk) ←
    match lookup idx !! k with
    | Some pageno => mret (pageno, storage idx, lookup idx)
    | None =>
        '(pageno, s) ← allocatePage growslice (storage idx);
        mret (pageno, s, <[k := pageno]> (lookup idx))
    end;
  '(_, s') ← Storage_Add growslice itemid pageno s;
  mret (mkIndexer (seed idx) (bitsize idx) (vecsize idx) (hyperplane idx) s' lk).

Definition Indexer_GetBitVector (vec : list F) (idx : Indexer F) : BitVector :=
  GetBitVector (hyperplane idx) vec.

(** The items of the bucket whose chain starts at [pageno]: the inner loop
    of [Search]. *)
Definition drain (s : Storage) (pageno : Z) (items : list Z) : res (list Z) :=
  for_pages (fuel_of s) s (pageIterator pageno)
    (fun items it =>
       page ← iter_page s it;
       pg ← load page s;
       got ← Page_Gets pg;
       mret (items ++ got))
    items.

(** [Search], the loop [for len(lkeys) > 0]. *)
Fixpoint Search_loop (idx : Indexer F) (key : BitVector) (limit : Z)
    (lkeys : list BitVector) (lastdist : Z) (items : list Z) : res (list Z) :=
  match lkeys with
  | [] => mret items
  | thiskey :: lkeys' =>
      thisdist ← Hamming key thiskey;
      if negb (lastdist =? thisdist) && (limit <=? len items) then mret items
      else
        k ← Uint32 thiskey;
        (* a key that is not in the map reads as the zero value *)
        let pageno := default 0 (lookup idx !! k) in
        items' ← drain (storage idx) pageno items;
        Search_loop idx key limit lkeys' thisdist items'
  end.

(** The keys of the lookup table as bit vectors, in the order [order] in
    which [range] has visited the map. *)
Definition lkeys_of (idx : Indexer F) (order : list Z) : list BitVector :=
  map (fun k => FromUint32 k (bitsize idx)) order.

(** [Search] once the keys have been sorted into [lkeys]. *)
Definition Search_sorted (lkeys : list BitVector) (idx : Indexer F)
    (vec : list F) (limit : Z) : res (list Z) :=
  let key := GetBitVector (hyperplane idx) vec in
  (* make([]uint64, 0, limit): the capacity is not negative, and its
     elements of 8 bytes fit the allocator *)
  if (limit <? 0) || (maxAlloc <? 8 * limit) then Fault MakeOutOfRange
  else Search_loop idx key limit lkeys 0 [].

(** The orders in which [Search] can visit the buckets: [range] over a map
    visits the keys in an unspecified order and the sort is not stable. *)
Definition search_order (idx : Indexer F) (vec : list F) (lkeys : list BitVector) : Prop :=
  sorted_from (GetBitVector (hyperplane idx) vec)
    (lkeys_of idx (map_to_list (lookup idx)).*1) lkeys.

(** [Search] with one such order. *)
Definition Search (vec : list F) (limit : Z) (idx : Indexer F) : res (list Z) :=
  let key := GetBitVector (hyperplane idx) vec in
  lkeys ← SortFrom key (lkeys_of idx (map_to_list (lookup idx)).*1);
  Search_sorted lkeys idx vec limit.

(** [Dump]: one line per key, keys ascending.  The report is kept as data:
    the key, its bit pattern, the page numbers of its chain and the
    number of items.  The hyperplane listing and the floating-point mean
    and deviation are left out; the totals are the item and key counts. *)
Record DumpLine : Type := mkDumpLine {
  dump_key : Z;
  dump_bits : string;
  dump_pages : list Z;
  dump_nitems : Z;
}.

Definition Dump_line (idx : Indexer F) (k : Z) : res DumpLine :=
  let pageno := default 0 (lookup idx !! uint32 k) in
  let bv := FromUint32 (uint32 k) (bitsize idx) in
  '(nitems, pagenolist) ←
    for_pages (fuel_of (storage idx)) (storage idx) (pageIterator pageno)
      (fun (a : Z * list Z) it =>
         page ← iter_page (storage idx) it;
         pg ← load page (storage idx);
         mret (a.1 + Page_CountItems pg, a.2 ++ [iter_pageno it]))
      (0, []);
  str ← String_ bv;
  mret (mkDumpLine k str pagenolist nitems).

Definition Dump (idx : Indexer F) : res (list DumpLine * (Z * Z)) :=
  let keys := merge_sort Z.le (map_to_list (lookup idx)).*1 in
  lines ← mapM (Dump_line idx) keys;
  mret (lines, (foldr Z.add 0 (dump_nitems <$> lines), len keys)).

(** [idx] after a sequence of [Add] calls. *)
Fixpoint run (ops : list (Z * list F)) (idx : Indexer F) : res (Indexer F) :=
  match ops with
  | [] => mret idx
  | (itemid, vec) :: ops' =>
      idx' ← Indexer_Add itemid vec idx;
      run ops' idx'
  end.

(** [idx] is the index built by [NewIndexer] and the [Add] calls [ops]. *)
Definition built (seed bitsize vecsize : Z) (ops : list (Z * list F))
    (idx : Indexer F) : Prop :=
  (idx0 ← NewIndexer seed bitsize vecsize; run ops idx0) = Val idx.

(** *** Well-formed pages and chains *)

(** Links point forward to a page of the collection, or are the sentinel;
    the count of a page is within its array. *)
Record page_ok (n : Z) (i : Z) (p : Page) : Prop := mk_page_ok {
  ok_link : link p = -1 \/ i < link p < n;
  ok_nitems : 0 <= nitems p <= PageSize;
  ok_items : len (items p) = PageSize;
}.

Definition storage_ok (s : Storage) : Prop :=
  forall (i : nat) (p : Page),
    pages s !! i = Some p -> page_ok (len (pages s)) (Z.of_nat i) p.

(** [chain s h ps]: following the links from page number [h] visits the
    pages [ps] and reaches the sentinel. *)
Inductive chain (s : Storage) : Z -> list Z -> Prop :=
| chain_end : chain s (-1) []
| chain_step (h : Z) (p : Page) (ps : list Z) :
    0 <= h ->
    pages s !! Z.to_nat h = Some p ->
    chain s (link p) ps ->
    chain s h (h :: ps).

(** The iterator standing on page [pageno]. *)
Definition iter_at (s : Storage) (pageno : Z) : pageIter :=
  mkPageIter pageno (default 0 (link <$> pages s !! Z.to_nat pageno)).

(** The loop body run once for each page of [ps], in order. *)
Fixpoint over_chain {A : Type} (s : Storage) (ps : list Z)
    (body : A -> pageIter -> res A) (a : A) : res A :=
  match ps with
  | [] => mret a
  | pageno :: ps' =>
      a' ← body a (iter_at s pageno);
      over_chain s ps' body a'
  end.

(** The identifiers held by page number [pageno]. *)
Definition page_items (s : Storage) (pageno : Z) : list Z :=
  match pages s !! Z.to_nat pageno with
  | Some p => take (Z.to_nat (nitems p)) (items p)
  | None => []
  end.

Record indexer_ok (idx : Indexer F) : Prop := mk_indexer_ok {
  ok_storage : storage_ok (storage idx);
  ok_heads : forall k h, lookup idx !! k = Some h ->
             0 <= h < len (pages (storage idx));
  ok_keys : forall k, is_Some (lookup idx !! k) ->
            Uint32 (FromUint32 k (bitsize idx)) = Val k;
  ok_hyperplane : len (hyperplane idx) = bitsize idx;
  ok_bitsize : 0 <= bitsize idx <= 32;
}.

(** Page numbers are stored in [int32] links: the bound under which a page
    number is its own link. *)
Definition MaxPages : Z := 2 ^ 31.

(** The bucket of key [k]: the identifiers held by the pages of its chain,
    in order. *)
Definition bucket (idx : Indexer F) (k : Z) (b : list Z) : Prop :=
  exists h ps, lookup idx !! k = Some h /\ chain (storage idx) h ps /\
               b = concat (page_items (storage idx) <$> ps).

(** *** What [Search] is specified to do

    [ds] are the distances of the ranked buckets and [bs] their items.
    Before bucket [j] the search holds the first [j] buckets; it stops
    there when that is at least [limit] items and the distance of
    bucket [j] differs from the last one drained.  [stops_from] starts
    with [items] already collected and [lastdist] as the last distance;
    [Search] starts with nothing collected and [0]. *)
Definition collected (bs : list (list Z)) (j : nat) : list Z := concat (take j bs).

Definition lastdist_at (lastdist : Z) (ds : list Z) (j : nat) : Z :=
  match j with
  | O => lastdist
  | S j' => default 0 (ds !! j')
  end.

Definition stops_from (limit : Z) (ds : list Z) (bs : list (list Z))
    (lastdist : Z) (items : list Z) (j : nat) : Prop :=
  limit <= len (items ++ collected bs j) /\
  default 0 (ds !! j) <> lastdist_at lastdist ds j.

Definition stops (limit : Z) (ds : list Z) (bs : list (list Z)) (j : nat) : Prop :=
  stops_from limit ds bs 0 [] j.

(** [Search] over the order [lkeys] drains whole tiers: the buckets [bs] of
    the keys are ranked by their distances [ds] from the query key, and
    the result is the first [n] buckets in full, [n] being the first
    position at which the search stops, or the number of buckets. *)
Definition drains_whole_tiers (idx : Indexer F) (vec : list F) (limit : Z)
    (lkeys : list BitVector) : Prop :=
  exists ks bs ds (n : nat),
    lkeys = lkeys_of idx ks /\
    ks ≡ₚ (map_to_list (lookup idx)).*1 /\
    Forall2 (bucket idx) ks bs /\
    Forall2 (fun x d => Hamming (GetBitVector (hyperplane idx) vec) x = Val d) lkeys ds /\
    Sorted Z.le ds /\
    (n <= length lkeys)%nat /\
    Search_sorted lkeys idx vec limit = Val (collected bs n) /\
    (forall j, (j < n)%nat -> ~ stops limit ds bs j) /\
    ((n < length lkeys)%nat -> stops limit ds bs n).

(** [Search] over the order [lkeys] returns at least [limit] identifiers,
    or all that the buckets [bs] hold when these are fewer, and nothing
    when there is no bucket. *)
Definition returns_limit_or_all (idx : Indexer F) (vec : list F) (limit : Z)
    (lkeys : list BitVector) : Prop :=
  exists ks bs r,
    ks ≡ₚ (map_to_list (lookup idx)).*1 /\
    Forall2 (bucket idx) ks bs /\
    Search_sorted lkeys idx vec limit = Val r /\
    (limit <= len (concat bs) -> limit <= len r) /\
    (len (concat bs) < limit -> r = concat bs) /\
    (lookup idx = ∅ -> r = []).

(** The links of [idx] are the sentinel or lead forward, and the chain of
    every bucket is finite, free of repetition, and traversed to its
    end by [next], by [Storage.Add], by [Search] and by [Dump]. *)
Definition chains_finite (idx : Indexer F) : Prop :=
  let s := storage idx in
  (forall (i : nat) p, pages s !! i = Some p ->
     link p = -1 \/ Z.of_nat i < link p < len (pages s)) /\
  (forall k h, lookup idx !! k = Some h ->
     exists ps,
       chain s h ps /\ NoDup ps /\
       (length ps <= length (pages s))%nat /\
       Forall (fun q => 0 <= q < len (pages s)) ps /\
       Forall (fun q => forall c, next s (mkPageIter c q) = Val (true, iter_at s q)) ps /\
       (forall (A : Type) fuel (body : A -> pageIter -> res A) a,
          (length (pages s) < fuel)%nat ->
          for_pages fuel s (pageIterator h) body a = over_chain s ps body a) /\
       (forall itemid, is_Val (Storage_Add growslice itemid h s)) /\
       (forall items, is_Val (drain s h items)) /\
       is_Val (Dump_line idx k)) /\
  is_Val (Dump idx).

End Indexer.

(** The contracts of the parameters. *)

(** The hash of a vector has one bit for each hyperplane. *)
Class DistanceOk (F : Type) `{Distance F} : Prop :=
  GetBitVector_wf : forall hp v, wf_bits (len hp) (GetBitVector hp v).

(** The generator yields vectors of the dimension it was created with. *)
Class VectorGenOk (F : Type) `{VectorGen F} : Prop := {
  gen_vecsize_new : forall seed vecsize, 0 <= vecsize ->
    gen_vecsize (NewRandomVectorGen seed vecsize) = vecsize;
  gen_vecsize_next : forall g, gen_vecsize (Next g).2 = gen_vecsize g;
  gen_dim_next : forall g, 0 <= gen_vecsize g -> len (Next g).1 = gen_vecsize g;
}.

(** *** Buckets and their pages *)

(** The page [p] with [itemid] in its next free slot: what [Page.Add]
    makes of a page that is not full. *)
Definition Page_with (itemid : Z) (p : Page) : Page :=
  mkPage (nitems p + 1) (link p) (<[Z.to_nat (nitems p) := itemid]> (items p)).

(** The last page of the chain that starts at page [h] is full. *)
Definition tail_full (s : Storage) (h : Z) : Prop :=
  exists ps t p,
    chain s h ps /\ last ps = Some t /\ pages s !! Z.to_nat t = Some p /\
    nitems p = PageSize.

Section Separation.
Context {F : Type}.

(** No page is shared between buckets: the heads of two keys differ, no
    head is linked to, and no page is linked to from two pages. *)
Record separated (idx : Indexer F) : Prop := mk_separated {
  sep_heads : forall k1 k2 h,
    lookup idx !! k1 = Some h -> lookup idx !! k2 = Some h -> k1 = k2;
  sep_head_not_linked : forall k h (i : nat) p,
    lookup idx !! k = Some h -> pages (storage idx) !! i = Some p -> link p <> h;
  sep_links : forall (i j : nat) p q,
    pages (storage idx) !! i = Some p -> pages (storage idx) !! j = Some q ->
    link p = link q -> link p <> -1 -> i = j;
}.

(** An insert into the bucket of key [k] loses its link: the last page of
    the bucket is full and the slice of pages is at capacity, so that
    [append] moves it. *)
Definition link_lost (idx : Indexer F) (k : Z) : Prop :=
  exists h, lookup idx !! k = Some h /\ tail_full (storage idx) h /\
            pages_cap (storage idx) <= len (pages (storage idx)).

(** The items of the bucket of key [k], none when there is no such
    bucket. *)
Definition bucket_items (idx : Indexer F) (k : Z) (b : list Z) : Prop :=
  bucket idx k b \/ (lookup idx !! k = None /\ b = []).

End Separation.

End lsh.

(** ** An instance of the parameters

    Vectors with integer coordinates, hashed by the sign of the dot
    product with each hyperplane, and a linear congruential generator;
    the capacities of the Go run-time system for a slice of pages. *)

Module instance.
Import bitvector lsh.

(** The growth of the Go run-time system: [append] to a full slice doubles
    a small capacity (a nil slice gets capacity 1) and grows a large one
    by about a quarter.  A [Page] takes 8192 bytes, for which the
    rounding to an allocation size class leaves these capacities as they
    are.  The scenarios of the lost links only meet the capacities 0, 1,
    2 and 4; of a larger capacity the development uses only that a full
    slice of [2^31 + 1] pages grows by more than one page. *)
Definition gc_growslice (c : Z) : Z :=
  if c =? 0 then 1
  else if c <? 256 then 2 * c
  else c + (c + 768) / 4.

Definition dot (a b : list Z) : Z := foldr Z.add 0 (zip_with Z.mul a b).

Definition set_bit (i : nat) (bs : list Z) : list Z :=
  alter (fun b => Z.lor b (mask (Z.of_nat i))) (i / 8)%nat bs.

(** Modelled from the spec: bit [i] of the hash is set iff the dot product
    of hyperplane [i] and the vector is at least 0. *)
Definition angular_bits (hyperplane : list (list Z)) (vec : list Z) (bs : list Z) : list Z :=
  foldr (fun ih bs => if 0 <=? dot ih.2 vec then set_bit ih.1 bs else bs)
        bs (imap pair hyperplane).

#[export] Instance Angular : Distance Z := {|
  GetBitVector hyperplane vec :=
    let n := len hyperplane in
    mkBitVector n
      (angular_bits hyperplane vec (replicate (Z.to_nat (Z.shiftr (n + 7) 3)) 0))
|}.

Definition lcg (x : Z) : Z := (1103515245 * x + 12345) mod 2 ^ 31.

Fixpoint draw (n : nat) (x : Z) : list Z * Z :=
  match n with
  | O => ([], x)
  | S n' => let r := draw n' (lcg x) in (lcg x - 2 ^ 30 :: r.1, r.2)
  end.

#[export] Instance Lcg : VectorGen Z := {|
  RandomVectorGen := Z * Z;
  NewRandomVectorGen seed vecsize := (seed mod 2 ^ 31, vecsize);
  Next g := let r := draw (Z.to_nat g.2) g.1 in (r.1, (r.2, g.2));
  gen_vecsize g := g.2
|}.

(** The index of the scenarios: [bitsize = 4], vectors of dimension 3. *)
Definition index4 : res (Indexer Z) := NewIndexer 0 4 3.

(** [n] inserts of the vector [vec] with the identifiers [1 .. n]. *)
Definition same_vec {F : Type} (n : nat) (vec : list F) : list (Z * list F) :=
  map (fun i => (Z.of_nat i, vec)) (seq 1 n).

Definition value {A : Type} (d : A) (r : res A) : A :=
  match r with
  | Val a => a
  | Fault _ => d
  end.

(** The storage after the first [n] inserts into the bucket made by the
    first of them. *)
Definition one_bucket_storage (n : nat) : res Storage :=
  '(pageno, s) ← allocatePage gc_growslice zeroStorage;
  Storage_Adds gc_growslice (map Z.of_nat (seq 1 n)) pageno s.

Definition storage1024 : Storage := value zeroStorage (one_bucket_storage 1024).
Definition storage1025 : Storage := value zeroStorage (one_bucket_storage 1025).

(** The index after these inserts. *)
Definition after (n : nat) (vec : list Z) : res (Indexer Z) :=
  idx0 ← index4;
  run gc_growslice (same_vec n vec) idx0.

(** The count and the link of each page. *)
Definition page_shape (ps : list Page) : list (Z * Z) :=
  map (fun p => (nitems p, link p)) ps.

(** Three inserts into three buckets, and the index they build. *)
Definition ops3 : list (Z * list Z) :=
  [(1, [1; 1; 1]); (2, [-1; -1; -1]); (3, [1; -1; 1])].

Definition index3 : Indexer Z :=
  value (mkIndexer 0 0 0 [] zeroStorage ∅)
        (idx0 ← index4; run gc_growslice ops3 idx0).

(** The index without buckets. *)
Definition index0 : Indexer Z :=
  value (mkIndexer 0 0 0 [] zeroStorage ∅) index4.

(** The keys of [index3] as [Search] sorts them for the query [vec]. *)
Definition lkeys3 (vec : list Z) : list BitVector :=
  value [] (SortFrom (GetBitVector (hyperplane index3) vec)
              (lkeys_of index3 (map_to_list (lookup index3)).*1)).

(** [index3] after one more insert, into the bucket of the first. *)
Definition index3_add : Indexer Z :=
  value index3 (Indexer_Add gc_growslice 4 [1; 1; 1] index3).

(** The index after 1023 inserts of one vector: one bucket, whose page is
    full. *)
Definition index1023 : Indexer Z := value index0 (after 1023 [1; 1; 1]).

End instance.

(** * Properties *)

(** ** Outcomes *)

Lemma res_bind_Val {A B : Type} (m : res A) (k : A -> res B) (b : B) :
  m ≫= k = Val b -> exists a, m = Val a /\ k a = Val b.
Proof. destruct m as [a|f]; [eauto|discriminate]. Qed.

Lemma res_bind_assoc {A B C : Type} (m : res A) (f : A -> res B) (g : B -> res C) :
  (m ≫= f) ≫= g = m ≫= (fun a => f a ≫= g).
Proof. by destruct m. Qed.

(** ** Index expressions *)

Section IndexFacts.
Context {A : Type}.
Implicit Types (l : list A) (a : A).

Lemma index_lookup l (k : nat) a :
  l !! k = Some a -> index l (Z.of_nat k) = Val a.
Proof.
  intros Hk. unfold index.
  destruct (Z.ltb_spec (Z.of_nat k) 0) as [Hneg|_]; [lia|].
  by rewrite Nat2Z.id, Hk.
Qed.

Lemma index_in_range l j :
  0 <= j < len l -> exists a, l !! Z.to_nat j = Some a /\ index l j = Val a.
Proof.
  unfold len. intros Hj.
  destruct (lookup_lt_is_Some_2 l (Z.to_nat j)) as [a Ha]; [lia|].
  exists a. split; [done|].
  rewrite <- (Z2Nat.id j) by lia. by apply index_lookup.
Qed.

Lemma index_out_of_range l j :
  ~ (0 <= j < len l) -> index l j = Fault IndexOutOfRange.
Proof.
  unfold len, index. intros Hj.
  destruct (Z.ltb_spec j 0) as [|Hpos]; [done|].
  rewrite lookup_ge_None_2; [done|lia].
Qed.

Lemma index_Val l j a :
  index l j = Val a -> 0 <= j < len l /\ l !! Z.to_nat j = Some a.
Proof.
  intros Hi.
  destruct (decide (0 <= j < len l)) as [Hj|Hj].
  - destruct (index_in_range l j Hj) as (a' & Hl & Hi'). split; [done|]. congruence.
  - rewrite index_out_of_range in Hi by done. discriminate.
Qed.

Lemma assign_in_range l j a :
  0 <= j < len l -> assign l j a = Val (<[Z.to_nat j := a]> l).
Proof.
  unfold len, assign. intros Hj.
  destruct (Z.ltb_spec j 0); [lia|].
  destruct (Z.leb_spec (Z.of_nat (length l)) j); [lia|]. done.
Qed.

Lemma index_insert_eq l j a :
  0 <= j < len l -> index (<[Z.to_nat j := a]> l) j = Val a.
Proof.
  intros Hj. rewrite <- (Z2Nat.id j) at 2 by lia.
  apply index_lookup, list_lookup_insert_eq. unfold len in Hj. lia.
Qed.

End IndexFacts.

(** ** Bit vectors *)

Module bitvector_facts.
Import bitvector.

Lemma mask_eq i : mask i = 2 ^ (i mod 8).
Proof.
  unfold mask, uint8.
  change 7 with (Z.ones 3). rewrite Z.land_ones by lia.
  change (1 mod 2 ^ 8) with 1. rewrite Z.shiftl_1_l.
  change (2 ^ 3) with 8.
  assert (0 <= i mod 8 < 8) by (apply Z.mod_pos_bound; lia).
  apply Z.mod_small. split; [apply Z.pow_nonneg; lia|].
  change (2 ^ 8) with (2 ^ (7 + 1)). apply Z.pow_lt_mono_r; lia.
Qed.

Lemma mask_pos i : 0 < mask i.
Proof. rewrite mask_eq. apply Z.pow_pos_nonneg; [lia|]. apply Z.mod_pos_bound; lia. Qed.

Lemma land_lor_mask b m : Z.land (Z.lor b m) m = m.
Proof. Z.bitblast. Qed.

Lemma land_unset_mask b m : Z.land (Z.land b (uint8 (Z.lxor m 255))) m = 0.
Proof. unfold uint8. change 255 with (Z.ones 8). Z.bitblast. Qed.

(** Where the buffer holds the byte of bit [i], [Get] after [Set] reads
    true. *)
Lemma Get_after_Set i bv :
  0 <= Z.shiftr i 3 < len (bits bv) ->
  exists bv', Set_ i bv = Val bv' /\ Get i bv' = Val true.
Proof.
  intros Hi. unfold Set_, Get.
  destruct (index_in_range (bits bv) _ Hi) as (b & Hb & ->). cbn.
  rewrite assign_in_range by done. cbn. eexists. split; [done|]. cbn.
  rewrite index_insert_eq by done. cbn.
  rewrite land_lor_mask.
  destruct (Z.eqb_spec (mask i) 0) as [H0|]; [|done].
  pose proof (mask_pos i). lia.
Qed.

(** Where the buffer holds the byte of bit [i], [Get] after [Unset] reads
    false. *)
Lemma Get_after_Unset i bv :
  0 <= Z.shiftr i 3 < len (bits bv) ->
  exists bv', Unset i bv = Val bv' /\ Get i bv' = Val false.
Proof.
  intros Hi. unfold Unset, Get.
  destruct (index_in_range (bits bv) _ Hi) as (b & Hb & ->). cbn.
  rewrite assign_in_range by done. cbn. eexists. split; [done|]. cbn.
  rewrite index_insert_eq by done. cbn.
  by rewrite land_unset_mask.
Qed.

(** A bit of a fresh vector that the buffer holds reads false. *)
Lemma Get_New n i :
  0 <= Z.shiftr i 3 < Z.shiftr n 3 ->
  exists bv, New n = Val bv /\ Get i bv = Val false.
Proof.
  intros Hi. unfold New, make.
  destruct (Z.ltb_spec (Z.shiftr n 3) 0); [lia|]. cbn.
  eexists. split; [done|]. unfold Get. cbn.
  rewrite <- (Z2Nat.id (Z.shiftr i 3)) by lia.
  erewrite index_lookup by (apply lookup_replicate_2; lia). cbn.
  by rewrite Z.land_0_l.
Qed.

Lemma land_lor_other_mask b i j :
  i mod 8 <> j mod 8 -> Z.land (Z.lor b (mask i)) (mask j) = Z.land b (mask j).
Proof.
  intros Hij. rewrite !mask_eq.
  assert (0 <= i mod 8 < 8) by (apply Z.mod_pos_bound; lia).
  assert (0 <= j mod 8 < 8) by (apply Z.mod_pos_bound; lia).
  apply Z.bits_inj'. intros n Hn.
  rewrite !Z.land_spec, Z.lor_spec, !Z.pow2_bits_eqb by lia.
  destruct (Z.eqb_spec (i mod 8) n), (Z.eqb_spec (j mod 8) n);
    try lia; by rewrite ?orb_false_r, ?andb_false_r.
Qed.

(** [Set] leaves every other bit as it was. *)
Lemma Get_Set_other i j bv bv' :
  0 <= i -> 0 <= j -> i <> j ->
  Set_ i bv = Val bv' -> Get j bv' = Get j bv.
Proof.
  intros Hi Hj Hij. unfold Set_, Get.
  destruct (index (bits bv) (Z.shiftr i 3)) as [b|] eqn:Hb; [|discriminate].
  apply index_Val in Hb as [Hr Hb]. cbn.
  rewrite assign_in_range by done. cbn. intros [= <-]. cbn.
  destruct (decide (Z.shiftr i 3 = Z.shiftr j 3)) as [Heq|Hne].
  - rewrite <- Heq, index_insert_eq by done.
    destruct (index_in_range (bits bv) _ Hr) as (b' & Hb' & ->).
    assert (b' = b) as -> by congruence. cbn.
    rewrite land_lor_other_mask; [done|].
    rewrite !Z.shiftr_div_pow2 in Heq by lia. change (2 ^ 3) with 8 in Heq.
    pose proof (Z.div_mod i 8). pose proof (Z.div_mod j 8). lia.
  - unfold index. destruct (Z.ltb_spec (Z.shiftr j 3) 0); [done|].
    rewrite list_lookup_insert_ne; [done|].
    assert (0 <= Z.shiftr j 3) by done. lia.
Qed.

(** *** Hamming distance *)

Lemma Hamming_loop_Val n : forall (k : nat) x y d,
  (k + n <= length (bits x))%nat -> (k + n <= length (bits y))%nat ->
  Hamming_loop n (Z.of_nat k) x y d =
  Val (d + xor_popcount (take n (drop k (bits x))) (take n (drop k (bits y)))).
Proof.
  induction n as [|n IH]; intros k x y d Hx Hy; cbn.
  - rewrite !take_0. unfold xor_popcount, mret, res_ret. cbn. f_equal. lia.
  - destruct (lookup_lt_is_Some_2 (bits x) k) as [xi Hxi]; [lia|].
    destruct (lookup_lt_is_Some_2 (bits y) k) as [yi Hyi]; [lia|].
    rewrite (index_lookup _ _ _ Hxi), (index_lookup _ _ _ Hyi). cbn.
    replace (Z.of_nat k + 1) with (Z.of_nat (S k)) by lia.
    rewrite IH by lia.
    rewrite (drop_S _ _ _ Hxi), (drop_S _ _ _ Hyi). cbn.
    unfold xor_popcount. cbn. f_equal. lia.
Qed.

Lemma Hamming_loop_Fault n : forall (k : nat) x y d,
  (k <= length (bits x))%nat -> (k <= length (bits y))%nat ->
  (length (bits x) < k + n \/ length (bits y) < k + n)%nat ->
  Hamming_loop n (Z.of_nat k) x y d = Fault IndexOutOfRange.
Proof.
  induction n as [|n IH]; intros k x y d Hx Hy Hshort; cbn; [lia|].
  destruct (decide (k < length (bits x))%nat) as [Hkx|Hkx].
  - destruct (lookup_lt_is_Some_2 (bits x) k) as [xi Hxi]; [lia|].
    rewrite (index_lookup _ _ _ Hxi). cbn.
    destruct (decide (k < length (bits y))%nat) as [Hky|Hky].
    + destruct (lookup_lt_is_Some_2 (bits y) k) as [yi Hyi]; [lia|].
      rewrite (index_lookup _ _ _ Hyi). cbn.
      replace (Z.of_nat k + 1) with (Z.of_nat (S k)) by lia.
      apply IH; lia.
    + rewrite (index_out_of_range (bits y)); [reflexivity|]. unfold len. lia.
  - rewrite (index_out_of_range (bits x)); [reflexivity|]. unfold len. lia.
Qed.

(** [Hamming] reads the first [ByteSize x] bytes of both buffers: it
    returns their XOR population count when both hold that many bytes
    and faults otherwise. *)
Lemma Hamming_spec x y :
  let n := Z.to_nat (ByteSize x) in
  Hamming x y =
  if decide (n <= length (bits x) /\ n <= length (bits y))%nat
  then Val (xor_popcount (take n (bits x)) (take n (bits y)))
  else Fault IndexOutOfRange.
Proof.
  intros n. unfold Hamming. fold n. change 0 with (Z.of_nat 0) at 1.
  destruct (decide _) as [[Hx Hy]|Hno].
  - rewrite Hamming_loop_Val by done. by rewrite !drop_0.
  - apply Hamming_loop_Fault; lia.
Qed.

Lemma popcnt_0 : popcnt 0 = 0.
Proof. reflexivity. Qed.

Lemma xor_popcount_self xs : xor_popcount xs xs = 0.
Proof.
  unfold xor_popcount. induction xs as [|a xs IH]; [done|]. cbn [zip_with foldr].
  rewrite IH, Z.lxor_nilpotent. reflexivity.
Qed.

Lemma xor_popcount_comm xs ys : xor_popcount xs ys = xor_popcount ys xs.
Proof.
  unfold xor_popcount. revert ys.
  induction xs as [|a xs IH]; intros [|b ys]; cbn [zip_with foldr]; try done.
  by rewrite IH, Z.lxor_comm.
Qed.

(** On buffers that hold [ByteSize] bytes, the distance of a vector from
    itself is 0 and the distance is symmetric. *)
Lemma Hamming_self x :
  len (bits x) = ByteSize x -> Hamming x x = Val 0.
Proof.
  intros Hx. rewrite Hamming_spec. cbv zeta. unfold len in Hx.
  rewrite decide_True by lia. by rewrite xor_popcount_self.
Qed.

Lemma Hamming_sym x y :
  len (bits x) = ByteSize x -> len (bits y) = ByteSize y ->
  ByteSize x = ByteSize y -> Hamming x y = Hamming y x.
Proof.
  intros Hx Hy Hxy. rewrite !Hamming_spec. cbv zeta. unfold len in *.
  rewrite <- Hxy. rewrite !decide_True by lia. by rewrite xor_popcount_comm.
Qed.

(** *** The buffer made by [New] *)

(** The bits of the last byte of a vector whose bit length is not a
    multiple of 8 are outside the buffer that [New] makes. *)
Lemma Set_faults_in_last_byte n i :
  0 <= i < n -> Z.shiftr n 3 <= Z.shiftr i 3 ->
  exists bv, New n = Val bv /\ ByteSize bv = Z.shiftr n 3 + 1 /\
             Set_ i bv = Fault IndexOutOfRange /\
             Unset i bv = Fault IndexOutOfRange /\
             Get i bv = Fault IndexOutOfRange.
Proof.
  intros Hi Hlast.
  assert (0 <= Z.shiftr n 3) as Hn by (apply Z.shiftr_nonneg; lia).
  unfold New, make. destruct (Z.ltb_spec (Z.shiftr n 3) 0); [lia|]. cbn.
  eexists. split; [done|].
  assert (index (replicate (Z.to_nat (Z.shiftr n 3)) 0) (Z.shiftr i 3)
          = Fault IndexOutOfRange) as Hidx.
  { apply index_out_of_range. unfold len. rewrite length_replicate. lia. }
  unfold Set_, Unset, Get, ByteSize. cbn. rewrite Hidx.
  split_and!; try done.
  rewrite !Z.shiftr_div_pow2 in * by lia. change (2 ^ 3) with 8 in *.
  Z.div_mod_to_equations. lia.
Qed.

(** *** Parsing and rendering *)

Lemma Scan_chars_content s : forall acc bs,
  Scan_chars s acc = Some bs ->
  exists bs0, bs = acc ++ bs0 /\ content s = bitchar <$> bs0.
Proof.
  induction s as [|c s IH]; intros acc bs Hs; cbn in Hs.
  - injection Hs as <-. exists []. by rewrite app_nil_r.
  - cbn [content].
    destruct (Ascii.eqb_spec c "1") as [->|H1].
    { apply IH in Hs as (bs0 & -> & Hc). exists (true :: bs0).
      rewrite <- app_assoc. split; [done|]. cbn. by rewrite Hc. }
    destruct (Ascii.eqb_spec c "0") as [->|H0].
    { apply IH in Hs as (bs0 & -> & Hc). exists (false :: bs0).
      rewrite <- app_assoc. split; [done|]. cbn. by rewrite Hc. }
    destruct (Ascii.eqb_spec c " ") as [->|Hsp]; [|discriminate].
    by apply IH in Hs.
Qed.

Lemma content_append s1 s2 :
  content (String.append s1 s2) = content s1 ++ content s2.
Proof.
  induction s1 as [|c s1 IH]; [done|].
  change (String.append (String c s1) s2) with (String c (String.append s1 s2)).
  cbn [content]. destruct (Ascii.eqb c " "); [done|]. cbn. by rewrite IH.
Qed.

Lemma Set_length i bv bv' :
  Set_ i bv = Val bv' -> size bv' = size bv /\ length (bits bv') = length (bits bv).
Proof.
  unfold Set_. intros Hs.
  destruct (index (bits bv) (Z.shiftr i 3)) as [b|] eqn:Hb; [|discriminate].
  apply index_Val in Hb as [Hr _]. cbn in Hs.
  rewrite assign_in_range in Hs by done. injection Hs as <-. cbn.
  by rewrite length_insert.
Qed.

Lemma shiftr3_lt (k n : nat) : (k < 8 * n)%nat -> 0 <= Z.shiftr (Z.of_nat k) 3 < Z.of_nat n.
Proof.
  intros Hk. rewrite Z.shiftr_div_pow2 by lia. change (2 ^ 3) with 8.
  Z.div_mod_to_equations. lia.
Qed.

(** The second loop of [Scan] writes the bits [bs] from position [k] on,
    when the buffer holds them and they were clear. *)
Lemma Scan_set_spec bs : forall (k : nat) bv,
  (k + length bs <= 8 * length (bits bv))%nat ->
  (forall j : nat, (k <= j < 8 * length (bits bv))%nat -> Get (Z.of_nat j) bv = Val false) ->
  exists bv',
    Scan_set bs (Z.of_nat k) bv = Val bv' /\
    size bv' = size bv /\
    length (bits bv') = length (bits bv) /\
    (forall j : nat, (j < k)%nat -> Get (Z.of_nat j) bv' = Get (Z.of_nat j) bv) /\
    (forall (j : nat) b, bs !! j = Some b -> Get (Z.of_nat (k + j)) bv' = Val b).
Proof.
  induction bs as [|b bs IH]; intros k bv Hlen Hclear; cbn [Scan_set].
  - exists bv. split_and!; try done.
  - cbn [length] in Hlen.
    assert (exists bv1, (if b then Set_ (Z.of_nat k) bv else mret bv) = Val bv1 /\
              size bv1 = size bv /\ length (bits bv1) = length (bits bv) /\
              Get (Z.of_nat k) bv1 = Val b /\
              (forall j : nat, j <> k -> Get (Z.of_nat j) bv1 = Get (Z.of_nat j) bv))
      as (bv1 & -> & Hsize1 & Hlen1 & Hk1 & Hother1).
    { destruct b.
      - destruct (Get_after_Set (Z.of_nat k) bv) as (bv1 & Hset & Hget).
        { unfold len. apply shiftr3_lt. lia. }
        exists bv1. destruct (Set_length _ _ _ Hset) as [? ?].
        split_and!; try done.
        intros j Hj. eapply Get_Set_other; [| | |exact Hset]; lia.
      - exists bv. split_and!; try done. apply Hclear. lia. }
    cbn. replace (Z.of_nat k + 1) with (Z.of_nat (S k)) by lia.
    destruct (IH (S k) bv1) as (bv' & Hscan & Hsize' & Hlen' & Hbefore & Hbits).
    { rewrite Hlen1. lia. }
    { intros j Hj. rewrite Hother1 by lia. apply Hclear. rewrite Hlen1 in Hj. lia. }
    exists bv'. split_and!; [done|congruence|congruence| |].
    + intros j Hj. rewrite Hbefore by lia. apply Hother1. lia.
    + intros [|j] b' Hb'; cbn in Hb'.
      * injection Hb' as <-. rewrite Nat.add_0_r, Hbefore by lia. done.
      * replace (k + S j)%nat with (S k + j)%nat by lia. by apply Hbits.
Qed.

(** [String] renders the bits it reads, with separators in between. *)
Lemma String_loop_content gs : forall (k : nat) bv buf,
  (forall (j : nat) g, gs !! j = Some g -> Get (Z.of_nat (k + j)) bv = Val g) ->
  exists str, String_loop (length gs) (Z.of_nat k) bv buf = Val str /\
              content str = content buf ++ (bitchar <$> gs).
Proof.
  induction gs as [|g gs IH]; intros k bv buf Hget; cbn [length String_loop].
  - exists buf. by rewrite app_nil_r.
  - pose proof (Hget 0%nat g eq_refl) as Hg. rewrite Nat.add_0_r in Hg.
    rewrite Hg. cbn. replace (Z.of_nat k + 1) with (Z.of_nat (S k)) by lia.
    match goal with
    | |- context [String_loop _ _ _ ?buf2] => destruct (IH (S k) bv buf2) as (str & -> & Hc)
    end.
    { intros j g' Hj. replace (S k + j)%nat with (k + S j)%nat by lia. by apply Hget. }
    exists str. split; [done|]. rewrite Hc.
    destruct ((0 <? Z.of_nat k) && (Z.of_nat k mod 8 =? 0)), g;
      rewrite !content_append; cbn; by rewrite ?app_nil_r, <- ?app_assoc.
Qed.

(** Parsing and rendering reproduce the content of every valid input whose
    number of bits is a multiple of 8. *)
Lemma Scan_String_content s bs :
  Scan_chars s [] = Some bs -> (length bs mod 8 = 0)%nat ->
  exists bv str, Scan s = Val (Some bv) /\ String_ bv = Val str /\
                 content str = content s.
Proof.
  intros Hs Hmod. unfold Scan. rewrite Hs.
  apply Scan_chars_content in Hs as (bs0 & Hbs & Hcontent). cbn in Hbs. subst bs0.
  assert (0 <= Z.shiftr (len bs) 3) as Hn by (apply Z.shiftr_nonneg; unfold len; lia).
  assert (8 * Z.to_nat (Z.shiftr (len bs) 3) = length bs)%nat as Hbytes.
  { unfold len in *. rewrite Z.shiftr_div_pow2 in * by lia. change (2 ^ 3) with 8 in *.
    apply Nat.Div0.div_exact in Hmod.
    rewrite Z2Nat.inj_div, Nat2Z.id by lia. change (Z.to_nat 8) with 8%nat. lia. }
  unfold New, make. destruct (Z.ltb_spec (Z.shiftr (len bs) 3) 0); [lia|]. cbn.
  set (bv0 := mkBitVector (len bs) (replicate (Z.to_nat (Z.shiftr (len bs) 3)) 0)).
  assert (length (bits bv0) = Z.to_nat (Z.shiftr (len bs) 3)) as Hlen0
    by (cbn; by rewrite length_replicate).
  destruct (Scan_set_spec bs 0 bv0) as (bv' & Hscan & Hsize & Hlen & _ & Hbits).
  { rewrite Hlen0. lia. }
  { intros j Hj. unfold Get, bv0. cbn.
    destruct (index_in_range (replicate (Z.to_nat (Z.shiftr (len bs) 3)) 0)
                (Z.shiftr (Z.of_nat j) 3)) as (b & Hb & ->).
    { change (len (replicate (Z.to_nat (Z.shiftr (len bs) 3)) 0))
        with (Z.of_nat (length (bits bv0))).
      apply shiftr3_lt. lia. }
    apply lookup_replicate in Hb as [-> _]. cbn. by rewrite Z.land_0_l. }
  change (Z.of_nat 0) with 0 in Hscan. rewrite Hscan. cbn.
  destruct (String_loop_content bs 0 bv' EmptyString) as (str & Hstr & Hc).
  { intros j g Hj. by apply Hbits. }
  exists bv', str. split_and!; [done| |by rewrite Hc, Hcontent].
  unfold String_. rewrite Hsize. cbn [size bv0]. unfold len. by rewrite Nat2Z.id.
Qed.

Lemma Scan_set_res bs : forall i bv,
  match Scan_set bs i bv with
  | Val bv' => size bv' = size bv /\ length (bits bv') = length (bits bv)
  | Fault f => f = IndexOutOfRange
  end.
Proof.
  induction bs as [|b bs IH]; intros i bv; cbn [Scan_set]; [done|].
  assert (match (if b then Set_ i bv else mret bv) with
          | Val bv1 => size bv1 = size bv /\ length (bits bv1) = length (bits bv)
          | Fault f => f = IndexOutOfRange
          end) as Hfirst.
  { destruct b; [|done]. destruct (Set_ i bv) as [bv1|f] eqn:Hset.
    - by apply Set_length in Hset.
    - unfold Set_ in Hset.
      destruct (index (bits bv) (Z.shiftr i 3)) as [x|] eqn:Hx.
      + apply index_Val in Hx as [Hr _]. cbn in Hset.
        rewrite assign_in_range in Hset by done. discriminate.
      + destruct (decide (0 <= Z.shiftr i 3 < len (bits bv))) as [Hr|Hr].
        * destruct (index_in_range _ _ Hr) as (? & _ & ?). congruence.
        * rewrite index_out_of_range in Hx by done. cbn in Hset. congruence. }
  destruct (if b then Set_ i bv else mret bv) as [bv1|f]; cbn; [|done].
  specialize (IH (i + 1) bv1). destruct (Scan_set bs (i + 1) bv1); [|done].
  destruct Hfirst, IH. split; congruence.
Qed.

Lemma String_loop_Fault n : forall (k : nat) bv buf,
  (k <= 8 * length (bits bv))%nat -> (8 * length (bits bv) < k + n)%nat ->
  String_loop n (Z.of_nat k) bv buf = Fault IndexOutOfRange.
Proof.
  induction n as [|n IH]; intros k bv buf Hk Hn; cbn [String_loop]; [lia|].
  unfold Get. destruct (decide (k < 8 * length (bits bv))%nat) as [Hlt|Hge].
  - destruct (index_in_range (bits bv) (Z.shiftr (Z.of_nat k) 3)) as (b & _ & ->).
    { unfold len. by apply shiftr3_lt. }
    cbn. replace (Z.of_nat k + 1) with (Z.of_nat (S k)) by lia. apply IH; lia.
  - rewrite index_out_of_range; [done|]. unfold len.
    rewrite Z.shiftr_div_pow2 by lia. change (2 ^ 3) with 8.
    Z.div_mod_to_equations. lia.
Qed.

(** Every valid input whose number of bits is not a multiple of 8 faults,
    in [Scan] or in [String]. *)
Lemma Scan_String_unaligned s bs :
  Scan_chars s [] = Some bs -> (length bs mod 8 <> 0)%nat ->
  Scan s = Fault IndexOutOfRange \/
  exists bv, Scan s = Val (Some bv) /\ String_ bv = Fault IndexOutOfRange.
Proof.
  intros Hs Hmod. unfold Scan. rewrite Hs.
  assert (0 <= Z.shiftr (len bs) 3) as Hn by (apply Z.shiftr_nonneg; unfold len; lia).
  unfold New, make. destruct (Z.ltb_spec (Z.shiftr (len bs) 3) 0); [lia|]. cbn.
  set (bv0 := mkBitVector (len bs) (replicate (Z.to_nat (Z.shiftr (len bs) 3)) 0)).
  pose proof (Scan_set_res bs 0 bv0) as Hres.
  destruct (Scan_set bs 0 bv0) as [bv'|f]; cbn; [|left; by subst f].
  right. exists bv'. split; [done|]. destruct Hres as [Hsize Hlen].
  unfold String_. change 0 with (Z.of_nat 0). apply String_loop_Fault; [lia|].
  rewrite Hsize, Hlen. cbn. rewrite length_replicate. unfold len.
  rewrite Nat2Z.id, Z.shiftr_div_pow2 by lia. change (2 ^ 3) with 8.
  rewrite Z2Nat.inj_div, Nat2Z.id by lia. change (Z.to_nat 8) with 8%nat.
  pose proof (Nat.div_mod_eq (length bs) 8). lia.
Qed.

(** The distance of a fresh vector from itself faults whenever its bit
    length is not a multiple of 8. *)
Lemma Hamming_New_unaligned n :
  0 <= n -> n mod 8 <> 0 ->
  exists x, New n = Val x /\ Hamming x x = Fault IndexOutOfRange.
Proof.
  intros Hn Hmod.
  assert (0 <= Z.shiftr n 3) as Hb by (apply Z.shiftr_nonneg; lia).
  unfold New, make. destruct (Z.ltb_spec (Z.shiftr n 3) 0); [lia|]. cbn.
  eexists. split; [done|]. rewrite Hamming_spec. cbv zeta.
  rewrite decide_False; [done|]. unfold ByteSize. cbn. rewrite length_replicate.
  rewrite !Z.shiftr_div_pow2 in * by lia. change (2 ^ 3) with 8 in *.
  intros [Hle _]. apply Nat2Z.inj_le in Hle. rewrite !Z2Nat.id in Hle.
  - Z.div_mod_to_equations. lia.
  - done.
  - Z.div_mod_to_equations. lia.
Qed.

Lemma mask_is_byte i : is_byte (mask i).
Proof.
  unfold is_byte. rewrite mask_eq.
  assert (0 <= i mod 8 < 8) by (apply Z.mod_pos_bound; lia).
  split; [apply Z.pow_nonneg; lia|].
  change 256 with (2 ^ (7 + 1)). apply Z.pow_lt_mono_r; lia.
Qed.

Lemma lor_is_byte a b : is_byte a -> is_byte b -> is_byte (Z.lor a b).
Proof.
  unfold is_byte. intros Ha Hb.
  assert (Z.lor a b = Z.lor a b mod 2 ^ 8) as ->.
  { rewrite <- (Z.mod_small a (2 ^ 8)), <- (Z.mod_small b (2 ^ 8)) by lia.
    Z.bitblast. }
  apply Z.mod_pos_bound. lia.
Qed.

Lemma Set_bytes i bv bv' :
  Forall is_byte (bits bv) -> Set_ i bv = Val bv' -> Forall is_byte (bits bv').
Proof.
  unfold Set_. intros Hbytes Hs.
  destruct (index (bits bv) (Z.shiftr i 3)) as [b|] eqn:Hb; [|discriminate].
  apply index_Val in Hb as [Hr Hb]. cbn in Hs.
  rewrite assign_in_range in Hs by done. injection Hs as <-. cbn.
  apply Forall_insert; [done|]. apply lor_is_byte; [|apply mask_is_byte].
  rewrite Forall_forall in Hbytes. apply Hbytes. by eapply list_elem_of_lookup_2.
Qed.

Lemma Scan_set_bytes bs : forall i bv bv',
  Forall is_byte (bits bv) -> Scan_set bs i bv = Val bv' -> Forall is_byte (bits bv').
Proof.
  induction bs as [|b bs IH]; intros i bv bv' Hbytes Hs; cbn [Scan_set] in Hs.
  - by injection Hs as <-.
  - apply res_bind_Val in Hs as (bv1 & Hfirst & Hs).
    eapply IH; [|exact Hs]. destruct b; [by eapply Set_bytes|by injection Hfirst as <-].
Qed.

Lemma byte_all_set b :
  is_byte b -> (forall t, 0 <= t < 8 -> Z.land b (2 ^ t) <> 0) -> b = 255.
Proof.
  unfold is_byte. intros Hb Hbits. apply Z.bits_inj'. intros n Hn.
  change 255 with (Z.ones 8). rewrite Z.testbit_ones_nonneg by lia.
  destruct (Z.ltb_spec n 8) as [Hlt|Hge].
  - destruct (Z.testbit b n) eqn:Htest; [done|]. exfalso. apply (Hbits n); [lia|].
    apply Z.bits_inj'. intros m Hm.
    rewrite Z.land_spec, Z.pow2_bits_eqb, Z.bits_0 by lia.
    destruct (Z.eqb_spec n m) as [->|]; [by rewrite Htest|by rewrite andb_false_r].
  - rewrite <- (Z.mod_small b (2 ^ 8)) by lia.
    rewrite Z.mod_pow2_bits_high; [done|lia].
Qed.

(** A buffer all of whose bits read true holds the byte 255 throughout. *)
Lemma all_set_bytes bv :
  Forall is_byte (bits bv) ->
  (forall j : nat, (j < 8 * length (bits bv))%nat -> Get (Z.of_nat j) bv = Val true) ->
  bits bv = replicate (length (bits bv)) 255.
Proof.
  intros Hbytes Hget. apply list_eq_same_length with (length (bits bv));
    [by rewrite length_replicate|done|].
  intros q b b' Hq Hb Hb'. apply lookup_replicate in Hb' as [-> _].
  apply byte_all_set.
  - rewrite Forall_forall in Hbytes. apply Hbytes. by eapply list_elem_of_lookup_2.
  - intros t Ht.
    remember (8 * q + Z.to_nat t)%nat as j eqn:Hj.
    specialize (Hget j ltac:(lia)). unfold Get in Hget.
    assert (Z.shiftr (Z.of_nat j) 3 = Z.of_nat q) as Hbyte.
    { rewrite Z.shiftr_div_pow2 by lia. change (2 ^ 3) with 8.
      Z.div_mod_to_equations. lia. }
    rewrite Hbyte, (index_lookup _ _ _ Hb) in Hget. cbn in Hget.
    injection Hget as Hget. apply negb_true_iff, Z.eqb_neq in Hget.
    rewrite mask_eq in Hget.
    replace (Z.of_nat j mod 8) with t in Hget; [done|].
    Z.div_mod_to_equations. lia.
Qed.

Lemma xor_popcount_set_clear (m : nat) :
  xor_popcount (replicate m 255) (replicate m 0) = 8 * Z.of_nat m.
Proof.
  unfold xor_popcount. induction m as [|m IH]; [done|].
  cbn [replicate zip_with foldr]. rewrite IH.
  change (popcnt (uint8 (Z.lxor 255 0))) with 8. lia.
Qed.

(** On a bit length [8 * m] the vector with every bit set, built from the
    fresh vector by [Set], is at distance [8 * m] from the fresh vector,
    in both directions. *)
Lemma Hamming_all_set_all_clear (m : nat) :
  exists allclear allset,
    New (8 * Z.of_nat m) = Val allclear /\
    Scan_set (replicate (8 * m) true) 0 allclear = Val allset /\
    Hamming allset allclear = Val (8 * Z.of_nat m) /\
    Hamming allclear allset = Val (8 * Z.of_nat m).
Proof.
  assert (Z.shiftr (8 * Z.of_nat m) 3 = Z.of_nat m) as Hshift.
  { rewrite Z.shiftr_div_pow2 by lia. change (2 ^ 3) with 8.
    Z.div_mod_to_equations. lia. }
  unfold New, make. rewrite Hshift. destruct (Z.ltb_spec (Z.of_nat m) 0); [lia|].
  cbn. rewrite Nat2Z.id. set (y := mkBitVector (8 * Z.of_nat m) (replicate m 0)).
  assert (length (bits y) = m) as Hleny by (cbn; by rewrite length_replicate).
  destruct (Scan_set_spec (replicate (8 * m) true) 0 y)
    as (x & Hscan & Hsize & Hlen & _ & Hbits).
  { rewrite length_replicate, Hleny. lia. }
  { intros j Hj. unfold Get, y. cbn.
    destruct (index_in_range (replicate m 0) (Z.shiftr (Z.of_nat j) 3)) as (b & Hb & ->).
    { unfold len. rewrite length_replicate. apply shiftr3_lt. lia. }
    apply lookup_replicate in Hb as [-> _]. cbn. by rewrite Z.land_0_l. }
  exists y, x. change (Z.of_nat 0) with 0 in Hscan.
  assert (bits x = replicate m 255) as Hx.
  { rewrite <- Hleny, <- Hlen. apply all_set_bytes.
    - eapply Scan_set_bytes; [|exact Hscan]. cbn. apply Forall_replicate.
      unfold is_byte. lia.
    - intros j Hj. apply (Hbits j true). apply lookup_replicate_2. lia. }
  assert (ByteSize x = Z.of_nat m /\ ByteSize y = Z.of_nat m) as [Hbx Hby].
  { unfold ByteSize. rewrite Hsize. cbn. rewrite Z.shiftr_div_pow2 by lia.
    change (2 ^ 3) with 8. split; Z.div_mod_to_equations; lia. }
  split_and!; [done|done| |].
  - rewrite Hamming_spec. cbv zeta. rewrite Hbx, Nat2Z.id, Hx. cbn [bits y].
    rewrite decide_True by (rewrite !length_replicate; lia).
    rewrite !take_replicate, Nat.min_id. by rewrite xor_popcount_set_clear.
  - rewrite Hamming_spec. cbv zeta. rewrite Hby, Nat2Z.id, Hx. cbn [bits y].
    rewrite decide_True by (rewrite !length_replicate; lia).
    rewrite !take_replicate, Nat.min_id.
    by rewrite xor_popcount_comm, xor_popcount_set_clear.
Qed.

(** *** The properties of the specification for bit vectors *)

(** C1 (defect in [New]).  A vector of bit length 4 is given an empty
    buffer, [4 >> 3] bytes, where [ByteSize] counts one byte: [Set],
    [Unset] and [Get] of bit 0, a valid index, fault instead of writing
    and reading the bit.  [Get_after_Set], [Get_after_Unset], [Get_New]
    and [Get_Set_other] give the specified behaviour for the bits that the
    buffer does hold. *)
Theorem New_drops_last_byte :
  New 4 = Val (mkBitVector 4 []) /\
  ByteSize (mkBitVector 4 []) = 1 /\
  Set_ 0 (mkBitVector 4 []) = Fault IndexOutOfRange /\
  Unset 0 (mkBitVector 4 []) = Fault IndexOutOfRange /\
  Get 0 (mkBitVector 4 []) = Fault IndexOutOfRange.
Proof. repeat split; reflexivity. Qed.

(** C6 (defect in [New]).  The distance of the 4-bit vector from itself
    faults, since [Hamming] reads [ByteSize] bytes and the buffer made
    by [New] has none, and the all-set vector of length 4 cannot be
    built; on 8 bits the distances are the specified ones.  [Hamming_spec],
    [Hamming_self] and [Hamming_sym] give the specified behaviour on
    buffers of [ByteSize] bytes. *)
Theorem Hamming_faults_on_New_4 :
  (x ← New 4; Hamming x x) = Fault IndexOutOfRange /\
  Scan "1111" = Fault IndexOutOfRange /\
  (allset ← Scan "11111111"; allclear ← Scan "00000000";
   match allset, allclear with
   | Some x, Some y => Hamming x y
   | _, _ => Fault NilDereference
   end) = Val 8.
Proof. repeat split; reflexivity. Qed.

(** C7 (defect in [New]).  Parsing ["1"] faults in [Set], and the vector
    parsed from ["0"] faults in [String]: the buffer made by [New] for
    one bit is empty.  An input of 16 bits makes the round trip. *)
Theorem Scan_String_faults_on_one_bit :
  Scan "1" = Fault IndexOutOfRange /\
  Scan "0" = Val (Some (mkBitVector 1 [])) /\
  String_ (mkBitVector 1 []) = Fault IndexOutOfRange /\
  (o ← Scan "10110001 0100 0001";
   match o with
   | Some bv => String_ bv
   | None => Val EmptyString
   end) = Val "10110001 01000001"%string.
Proof. repeat split; reflexivity. Qed.

(** C8 as stated fails: with [x] of 16 bits and [y] of 8 bits, both with
    buffers of [ByteSize] bytes, [Hamming x y] reads [y.bits[1]] and
    faults, where the specification has it return the count over the one byte
    of the shorter vector. *)
Lemma Hamming_longer_first_faults :
  wf_bits 16 (mkBitVector 16 [0; 0]) /\
  wf_bits 8 (mkBitVector 8 [0]) /\
  New 16 = Val (mkBitVector 16 [0; 0]) /\
  New 8 = Val (mkBitVector 8 [0]) /\
  Hamming (mkBitVector 16 [0; 0]) (mkBitVector 8 [0]) = Fault IndexOutOfRange /\
  ~ (forall x y nx ny, wf_bits nx x -> wf_bits ny y -> ByteSize x <> ByteSize y ->
       let m := Z.to_nat (Z.min (ByteSize x) (ByteSize y)) in
       Hamming x y = Val (xor_popcount (take m (bits x)) (take m (bits y)))).
Proof.
  assert (wf_bits 16 (mkBitVector 16 [0; 0])) as Hx.
  { split; [done|done|]. repeat constructor; unfold is_byte; lia. }
  assert (wf_bits 8 (mkBitVector 8 [0])) as Hy.
  { split; [done|done|]. repeat constructor; unfold is_byte; lia. }
  split_and!; [done|done|reflexivity|reflexivity|reflexivity|].
  intros Hall. specialize (Hall _ _ _ _ Hx Hy). cbv zeta in Hall.
  discriminate Hall. by compute.
Qed.

(** C8 (amended).  On buffers of [ByteSize] bytes [Hamming x y] iterates
    over the byte length of [x], its first argument: when [x] is not
    the longer it returns the XOR population count over the first
    [ByteSize x] bytes, and when [x] is the longer it faults with an
    index out of range. *)
Theorem Hamming_iterates_over_first x y nx ny :
  wf_bits nx x -> wf_bits ny y ->
  let m := Z.to_nat (ByteSize x) in
  (ByteSize x <= ByteSize y ->
   Hamming x y = Val (xor_popcount (take m (bits x)) (take m (bits y)))) /\
  (ByteSize y < ByteSize x -> Hamming x y = Fault IndexOutOfRange).
Proof.
  intros [_ Hx _] [_ Hy _] m. unfold len in *. rewrite Hamming_spec. fold m.
  split; intros Hxy.
  - rewrite decide_True; [done|]. lia.
  - rewrite decide_False; [done|]. lia.
Qed.

Lemma Hamming_iterates_over_first_witness :
  Hamming (mkBitVector 8 [5]) (mkBitVector 16 [3; 255]) = Val 2 /\
  Hamming (mkBitVector 16 [3; 255]) (mkBitVector 8 [5]) = Fault IndexOutOfRange.
Proof.
  assert (wf_bits 8 (mkBitVector 8 [5])) as Hx.
  { split; [reflexivity|reflexivity|]. repeat constructor; unfold is_byte; lia. }
  assert (wf_bits 16 (mkBitVector 16 [3; 255])) as Hy.
  { split; [reflexivity|reflexivity|]. repeat constructor; unfold is_byte; lia. }
  split.
  - apply (Hamming_iterates_over_first _ _ 8 16 Hx Hy). vm_compute. discriminate.
  - apply (Hamming_iterates_over_first _ _ 16 8 Hy Hx). reflexivity.
Defined.

(** *** Bucket keys *)

Ltac byte_blast :=
  Z.bitblast;
  repeat match goal with
         | |- context [Z.testbit ?b ?l] => rewrite (Z.testbit_neg_r b l) by lia
         end;
  try reflexivity; try btauto.

Ltac as_bytes :=
  repeat match goal with
         | H : is_byte ?b |- _ =>
             unfold is_byte in H;
             rewrite <- (Z.mod_small b (2 ^ 8)) by lia;
             clear H
         end.

(** The bytes of a key are the bytes of the vector it was read from. *)
Lemma FromUint32_of_Uint32 n bv k :
  wf_bits n bv -> n <= 32 -> Uint32 bv = Val k -> FromUint32 k n = bv.
Proof.
  destruct bv as [sz bs]. intros [Hsz Hlen Hbytes] Hn HU. cbn in *. subst sz.
  unfold ByteSize in Hlen. cbn in Hlen.
  unfold FromUint32. rewrite <- Hlen. unfold len in *. rewrite Nat2Z.id.
  rewrite Z.shiftr_div_pow2 in Hlen by lia. change (2 ^ 3) with 8 in Hlen.
  f_equal.
  unfold Uint32, Uint64 in HU. cbn in HU.
  destruct bs as [|b0 [|b1 [|b2 [|b3 [|b4 bs]]]]]; cbn [length] in Hlen;
    repeat match goal with
           | H : Forall _ (_ :: _) |- _ => apply Forall_cons in H as [? H]
           end;
    repeat match type of HU with
           | context [if ?c then _ else _] =>
               match c with
               | Z.leb ?a ?b => destruct (Z.leb_spec a b)
               end
           end;
    try (exfalso; Z.div_mod_to_equations; lia);
    try discriminate HU; injection HU as <-;
    cbn [length seq map Z.of_nat Pos.of_succ_nat Pos.succ Z.mul Pos.mul];
    repeat match goal with
           | |- @eq (list Z) (_ :: _) (_ :: _) => apply (f_equal2 cons)
           | |- @eq (list Z) [] [] => reflexivity
           end;
    unfold uint8, uint32; as_bytes; byte_blast.
Qed.

Lemma Uint32_FromUint32 n bv k :
  wf_bits n bv -> n <= 32 -> Uint32 bv = Val k -> Uint32 (FromUint32 k n) = Val k.
Proof. intros Hwf Hn HU. by rewrite (FromUint32_of_Uint32 n bv k). Qed.

Lemma uint8_is_byte z : is_byte (uint8 z).
Proof. unfold is_byte, uint8. change 256 with (2 ^ 8). apply Z.mod_pos_bound. lia. Qed.

Lemma wf_FromUint32 k n : 0 <= n -> wf_bits n (FromUint32 k n).
Proof.
  intros Hn. split; cbn.
  - done.
  - unfold ByteSize, len. cbn. rewrite length_map, length_seq.
    apply Z2Nat.id. apply Z.shiftr_nonneg. lia.
  - apply Forall_map, Forall_forall. intros j _. apply uint8_is_byte.
Qed.

(** Two vectors of the same bit length have a distance. *)
Lemma Hamming_wf n x y :
  wf_bits n x -> wf_bits n y -> exists d, Hamming x y = Val d.
Proof.
  intros [Hsx Hlx _] [Hsy Hly _]. rewrite Hamming_spec. cbv zeta.
  assert (ByteSize y = ByteSize x) as Hxy by (unfold ByteSize; congruence).
  unfold len in *. rewrite decide_True by lia. eauto.
Qed.

(** [String] renders every vector whose buffer holds [ByteSize] bytes. *)
Lemma String_loop_Val n : forall (k : nat) bv buf,
  (n = 0%nat \/ Z.of_nat k + Z.of_nat n <= size bv) -> len (bits bv) = ByteSize bv ->
  exists str, String_loop n (Z.of_nat k) bv buf = Val str.
Proof.
  induction n as [|n IH]; intros k bv buf Hk Hlen; cbn; [by eexists|].
  destruct Hk as [|Hk]; [done|].
  unfold Get.
  destruct (index_in_range (bits bv) (Z.shiftr (Z.of_nat k) 3)) as (b & _ & ->).
  { rewrite Hlen. unfold ByteSize. rewrite !Z.shiftr_div_pow2 by lia.
    change (2 ^ 3) with 8. Z.div_mod_to_equations. lia. }
  cbn. replace (Z.of_nat k + 1) with (Z.of_nat (S k)) by lia.
  apply IH; [lia|done].
Qed.

Lemma String_Val bv :
  len (bits bv) = ByteSize bv -> exists str, String_ bv = Val str.
Proof.
  intros Hlen. unfold String_. change 0 with (Z.of_nat 0).
  apply String_loop_Val; [|done].
  lia.
Qed.

(** A vector of at least one bit has a key. *)
Lemma Uint32_wf n bv :
  wf_bits n bv -> 1 <= n -> exists k, Uint32 bv = Val k.
Proof.
  destruct bv as [sz bs]. intros [Hsz Hlen _] Hn. cbn in *. subst sz.
  unfold ByteSize, len in Hlen. cbn in Hlen.
  rewrite Z.shiftr_div_pow2 in Hlen by lia. change (2 ^ 3) with 8 in Hlen.
  unfold Uint32, Uint64. cbn.
  destruct bs as [|b0 [|b1 [|b2 [|b3 bs]]]]; cbn [length] in Hlen;
    repeat match goal with
           | |- context [if ?c then _ else _] =>
               match c with
               | Z.leb ?a ?b => destruct (Z.leb_spec a b)
               end
           end;
    try (exfalso; Z.div_mod_to_equations; lia); by eexists.
Qed.

(** *** Sorting by distance *)

Lemma ByHamming_Less_Val c a b lt :
  ByHamming_Less c a b = Val lt ->
  exists da db, Hamming c a = Val da /\ Hamming c b = Val db /\ lt = (da <? db).
Proof.
  unfold ByHamming_Less. intros Hlt.
  destruct (Hamming c a) as [da|]; [|discriminate].
  destruct (Hamming c b) as [db|]; [|discriminate].
  injection Hlt as <-. eauto.
Qed.

Lemma no_inversion_distances c a b :
  no_inversion c a b <->
  exists da db, Hamming c a = Val da /\ Hamming c b = Val db /\ da <= db.
Proof.
  unfold no_inversion. split.
  - intros Hlt. apply ByHamming_Less_Val in Hlt as (db & da & Hb & Ha & Hlt).
    exists da, db. split_and!; [done|done|]. symmetry in Hlt. by apply Z.ltb_ge in Hlt.
  - intros (da & db & Ha & Hb & Hle). unfold ByHamming_Less. rewrite Ha, Hb. cbn.
    f_equal. apply Z.ltb_ge. lia.
Qed.

Lemma insert_from_sorted c a l l' :
  insert_from c a l = Val l' -> Sorted (no_inversion c) l ->
  l' ≡ₚ a :: l /\ Sorted (no_inversion c) l' /\
  (forall x, HdRel (no_inversion c) x l -> no_inversion c x a ->
             HdRel (no_inversion c) x l').
Proof.
  revert l'. induction l as [|b l IH]; intros l' Hins Hs; cbn in Hins.
  - injection Hins as <-. split_and!; [done|by repeat constructor|].
    intros x _ Hxa. by constructor.
  - destruct (ByHamming_Less c a b) as [lt|] eqn:Hlt; [|discriminate]. cbn in Hins.
    pose proof (ByHamming_Less_Val _ _ _ _ Hlt) as (da & db & Ha & Hb & ->).
    destruct (Z.ltb_spec da db) as [Hab|Hab].
    + injection Hins as <-. split_and!; [done| |].
      * constructor; [done|]. constructor. apply no_inversion_distances.
        exists da, db. split_and!; [done|done|lia].
      * intros x _ Hxa. by constructor.
    + destruct (insert_from c a l) as [r|] eqn:Hr; [|discriminate].
      injection Hins as <-.
      apply Sorted_inv in Hs as [Hs Hhd].
      destruct (IH r eq_refl Hs) as (Hperm & Hsr & Hhdr).
      split_and!.
      * rewrite Hperm. apply perm_swap.
      * constructor; [done|]. apply Hhdr; [done|].
        apply no_inversion_distances. exists db, da. split_and!; [done|done|lia].
      * intros x Hx _. apply HdRel_inv in Hx. by constructor.
Qed.

(** [SortFrom] returns one of the orders that [sorted_from] allows. *)
Lemma SortFrom_sorted_from c l l' :
  SortFrom c l = Val l' -> sorted_from c l l'.
Proof.
  revert l'. induction l as [|a l IH]; intros l' Hsort; cbn in Hsort.
  - injection Hsort as <-. split; [done|constructor].
  - destruct (SortFrom c l) as [r|] eqn:Hr; [|discriminate]. cbn in Hsort.
    destruct (IH r eq_refl) as [Hperm Hs].
    destruct (insert_from_sorted _ _ _ _ Hsort Hs) as (Hperm' & Hs' & _).
    split; [|done]. by rewrite Hperm', Hperm.
Qed.

Lemma insert_from_Val c a l :
  is_Val (Hamming c a) -> Forall (fun x => is_Val (Hamming c x)) l ->
  exists l', insert_from c a l = Val l' /\ Forall (fun x => is_Val (Hamming c x)) l'.
Proof.
  intros [da Ha]. induction 1 as [|b l [db Hb] Hl (r & Hr & Hfr)]; cbn.
  - eexists. split; [done|]. repeat constructor. by exists da.
  - unfold ByHamming_Less. rewrite Ha, Hb. cbn. destruct (da <? db).
    + eexists. split; [done|]. repeat constructor; [by exists da|by exists db|done].
    + rewrite Hr. cbn. eexists. split; [done|]. constructor; [by exists db|done].
Qed.

(** [SortFrom] returns when every element has a distance from the
    center. *)
Lemma SortFrom_Val c l :
  Forall (fun x => is_Val (Hamming c x)) l ->
  exists l', SortFrom c l = Val l' /\ Forall (fun x => is_Val (Hamming c x)) l'.
Proof.
  induction 1 as [|a l Ha Hl (r & Hr & Hfr)]; cbn.
  - eexists. split; [done|constructor].
  - rewrite Hr. cbn. by apply insert_from_Val.
Qed.

(** Along an order without inversions the distances do not decrease. *)
Lemma sorted_distances c l ds :
  Sorted (no_inversion c) l ->
  Forall2 (fun x d => Hamming c x = Val d) l ds ->
  Sorted Z.le ds.
Proof.
  intros Hs. revert ds. induction Hs as [|a l Hs IH Hhd]; intros ds Hds.
  - apply Forall2_nil_inv_l in Hds as ->. constructor.
  - apply Forall2_cons_inv_l in Hds as (d & ds' & Hd & Hds & ->).
    constructor; [by apply IH|].
    destruct Hhd as [|b l Hab]; [apply Forall2_nil_inv_l in Hds as ->; constructor|].
    apply Forall2_cons_inv_l in Hds as (d' & ds'' & Hd' & Hds & ->).
    constructor. apply no_inversion_distances in Hab as (da & db & Ha & Hb & Hle).
    congruence.
Qed.

End bitvector_facts.

(** ** Storage: chains and their traversal *)

Module lsh_facts.
Import bitvector bitvector_facts lsh.

Lemma int32_small z : - 2 ^ 31 <= z < 2 ^ 31 -> int32 z = z.
Proof. intros Hz. unfold int32. rewrite Z.mod_small; lia. Qed.

Lemma getPage_lookup s h p :
  0 <= h -> pages s !! Z.to_nat h = Some p ->
  getPage h s = Val (mkPagePtr (current_array s) h).
Proof.
  intros Hh Hp. unfold getPage.
  rewrite <- (Z2Nat.id h) at 1 by lia. by rewrite (index_lookup _ _ _ Hp).
Qed.

Lemma load_current s h p :
  0 <= h -> pages s !! Z.to_nat h = Some p ->
  load (mkPagePtr (current_array s) h) s = Val p.
Proof.
  intros Hh Hp. unfold load. cbn. rewrite decide_True by done.
  rewrite <- (Z2Nat.id h) by lia. by apply index_lookup.
Qed.

Lemma lookup_in_range {A : Type} (l : list A) h :
  0 <= h < len l -> exists a, l !! Z.to_nat h = Some a.
Proof. unfold len. intros Hh. apply lookup_lt_is_Some_2. lia. Qed.

Lemma lookup_range {A : Type} (l : list A) h a :
  0 <= h -> l !! Z.to_nat h = Some a -> 0 <= h < len l.
Proof. unfold len. intros Hh Ha. apply lookup_lt_Some in Ha. lia. Qed.

Lemma next_end s c : next s (mkPageIter c (-1)) = Val (false, mkPageIter c (-1)).
Proof. reflexivity. Qed.

Lemma next_step s c h p :
  0 <= h -> pages s !! Z.to_nat h = Some p ->
  next s (mkPageIter c h) = Val (true, iter_at s h).
Proof.
  intros Hh Hp. unfold next, iter_at. cbn.
  destruct (Z.eqb_spec h (-1)); [lia|].
  pose proof (lookup_range _ _ _ Hh Hp) as Hr.
  destruct (Z.leb_spec (len (pages s)) h); [lia|].
  rewrite (getPage_lookup _ _ _ Hh Hp). cbn.
  rewrite (load_current _ _ _ Hh Hp). cbn. by rewrite Hp.
Qed.

(** A traversal with enough fuel runs the body over the pages of the chain
    and ends: it never reaches the panic of the iterator. *)
Lemma for_pages_chain {A : Type} s h ps (body : A -> pageIter -> res A) :
  chain s h ps ->
  forall fuel c a, (length ps < fuel)%nat ->
  for_pages fuel s (mkPageIter c h) body a = over_chain s ps body a.
Proof.
  induction 1 as [|h p ps Hh Hp Hch IH]; intros fuel c a Hfuel.
  - destruct fuel as [|fuel]; [cbn in Hfuel; lia|]. reflexivity.
  - destruct fuel as [|fuel]; [cbn in Hfuel; lia|]. cbn [for_pages over_chain].
    rewrite (next_step _ _ _ _ Hh Hp). cbn.
    destruct (body a (iter_at s h)) as [a'|f]; [|reflexivity]. cbn.
    unfold iter_at at 1. rewrite Hp. cbn.
    apply IH. cbn in Hfuel. lia.
Qed.

Lemma chain_functional s h ps :
  chain s h ps -> forall ps', chain s h ps' -> ps = ps'.
Proof.
  induction 1 as [|h p ps Hh Hp Hch IH]; intros ps' Hch'.
  - inversion Hch'; [done|lia].
  - inversion Hch' as [|h' p' ps'' Hh' Hp' Hch'' Heq]; subst; [lia|].
    assert (p' = p) as -> by congruence. f_equal. by apply IH.
Qed.

Lemma chain_pages s h ps :
  chain s h ps -> Forall (fun q => 0 <= q < len (pages s)) ps.
Proof.
  induction 1 as [|h p ps Hh Hp Hch IH]; constructor; [|done].
  by eapply lookup_range.
Qed.

(** In a well-formed storage the links from a page of the collection lead
    forward to the sentinel: the chain exists, its page numbers increase
    and stay within the collection. *)
Lemma chain_exists s :
  storage_ok s ->
  forall (n : nat) h, 0 <= h < len (pages s) -> len (pages s) - h <= Z.of_nat n ->
  exists ps, chain s h ps /\ hd_error ps = Some h /\
             StronglySorted Z.lt ps /\ (length ps <= n)%nat.
Proof.
  intros Hok. induction n as [|n IH]; intros h Hh Hn; [lia|].
  destruct (lookup_in_range _ _ Hh) as [p Hp].
  destruct (Hok _ _ Hp) as [[Hend|Hfwd] _ _].
  - exists [h]. split_and!.
    + eapply chain_step; [lia|done|]. rewrite Hend. constructor.
    + done.
    + repeat constructor.
    + cbn. lia.
  - rewrite Z2Nat.id in Hfwd by lia.
    destruct (IH (link p)) as (ps & Hch & Hhd & Hsort & Hlen); [lia|lia|].
    exists (h :: ps). split_and!.
    + eapply chain_step; [lia|done|done].
    + done.
    + constructor; [done|].
      destruct ps as [|q ps]; [constructor|]. injection Hhd as ->.
      apply StronglySorted_inv in Hsort as [_ Hq].
      constructor; [lia|]. eapply Forall_impl; [exact Hq|]. cbn. lia.
    + cbn. lia.
Qed.

Lemma sorted_lt_NoDup (ps : list Z) : StronglySorted Z.lt ps -> NoDup ps.
Proof.
  induction 1 as [|q ps Hs IH Hq]; constructor; [|done].
  intros Hin. rewrite Forall_forall in Hq. specialize (Hq _ Hin). lia.
Qed.

Lemma chain_length s h ps :
  storage_ok s -> chain s h ps -> (length ps <= length (pages s))%nat.
Proof.
  intros Hok Hch. destruct Hch as [|h p ps Hh Hp Hch]; [cbn; lia|].
  pose proof (lookup_range _ _ _ Hh Hp) as Hr.
  destruct (chain_exists s Hok (length (pages s)) h) as (ps' & Hch' & _ & _ & Hlen);
    [done|unfold len; lia|].
  assert (h :: ps = ps') as <-; [|done].
  eapply chain_functional; [|done]. by eapply chain_step.
Qed.

(** The chain of a page of the collection: finite, without repetition. *)
Lemma chain_of_head s h :
  storage_ok s -> 0 <= h < len (pages s) ->
  exists ps, chain s h ps /\ NoDup ps /\ (length ps <= length (pages s))%nat.
Proof.
  intros Hok Hh.
  destruct (chain_exists s Hok (length (pages s)) h) as (ps & Hch & _ & Hs & Hlen);
    [done|unfold len; lia|].
  exists ps. split_and!; [done|by apply sorted_lt_NoDup|done].
Qed.

Lemma for_pages_fuel_of {A : Type} s h ps (body : A -> pageIter -> res A) a :
  storage_ok s -> chain s h ps ->
  for_pages (fuel_of s) s (pageIterator h) body a = over_chain s ps body a.
Proof.
  intros Hok Hch. apply for_pages_chain; [done|].
  pose proof (chain_length _ _ _ Hok Hch). unfold fuel_of. lia.
Qed.

(** *** Stores, [append] and [allocatePage] *)

Lemma store_current_array p f s : current_array (store p f s) = current_array s.
Proof.
  unfold store, current_array. destruct (decide _); cbn; [done|].
  by rewrite length_alter.
Qed.

Lemma store_pages_current p f s :
  ptr_array p = current_array s ->
  pages (store p f s) = alter f (Z.to_nat (ptr_index p)) (pages s).
Proof. intros Hp. unfold store. by rewrite decide_True. Qed.

Lemma store_pages_stale p f s :
  ptr_array p <> current_array s -> pages (store p f s) = pages s.
Proof. intros Hp. unfold store. by rewrite decide_False. Qed.

(** A store changes at most the page it is aimed at. *)
Lemma store_pages_cases p f s :
  pages (store p f s) = pages s \/
  pages (store p f s) = alter f (Z.to_nat (ptr_index p)) (pages s).
Proof.
  destruct (decide (ptr_array p = current_array s)).
  - right. by apply store_pages_current.
  - left. by apply store_pages_stale.
Qed.

Section StorageFacts.
Variable growslice : Z -> Z.

Lemma append_page_pages x s : pages (append_page growslice x s) = pages s ++ [x].
Proof. unfold append_page. by destruct (_ <? _). Qed.

(** [append] moves the slice exactly when it is full. *)
Lemma append_page_array x s :
  current_array (append_page growslice x s) =
  if len (pages s) <? pages_cap s then current_array s else S (current_array s).
Proof.
  unfold append_page, current_array. destruct (_ <? _); cbn; [done|].
  rewrite length_app. cbn. lia.
Qed.

Lemma allocatePage_spec s :
  exists s', allocatePage growslice s = Val (len (pages s), s') /\
             pages s' = pages s ++ [Page_Init zeroPage] /\
             current_array s' = current_array (append_page growslice zeroPage s).
Proof.
  unfold allocatePage.
  set (s1 := append_page growslice zeroPage s).
  assert (pages s1 !! Z.to_nat (len (pages s)) = Some zeroPage) as Hnew.
  { unfold s1, len. rewrite append_page_pages, Nat2Z.id.
    rewrite lookup_app_r by lia. by rewrite Nat.sub_diag. }
  assert (0 <= len (pages s)) as Hpos by (unfold len; lia).
  rewrite (getPage_lookup _ _ _ Hpos Hnew). cbn.
  eexists. split_and!; [done| |apply store_current_array].
  rewrite store_pages_current by done. cbn.
  unfold s1, len. rewrite append_page_pages, Nat2Z.id.
  rewrite alter_app_r_alt by lia. by rewrite Nat.sub_diag.
Qed.

(** *** Well-formed storage is preserved *)

Lemma page_ok_more n n' i p : n <= n' -> page_ok n i p -> page_ok n' i p.
Proof. intros Hn [Hl Hc Hi]. split; [|done|done]. lia. Qed.

Lemma storage_ok_app s s' x :
  storage_ok s -> pages s' = pages s ++ [x] ->
  page_ok (len (pages s) + 1) (len (pages s)) x -> storage_ok s'.
Proof.
  intros Hok Hs' Hx i p. rewrite Hs'. unfold len. rewrite length_app. cbn.
  intros Hp. apply lookup_app_Some in Hp as [Hp|[Hi Hp]].
  - eapply page_ok_more; [|by apply Hok]. unfold len. lia.
  - apply list_lookup_singleton_Some in Hp as [Hi0 <-].
    replace (Z.of_nat i) with (len (pages s)) by (unfold len; lia).
    unfold len in Hx. by replace (Z.of_nat (length (pages s) + 1)) with
      (Z.of_nat (length (pages s)) + 1) by lia.
Qed.

Lemma storage_ok_alter s s' (t : nat) f :
  storage_ok s -> pages s' = alter f t (pages s) ->
  (forall p, pages s !! t = Some p ->
             page_ok (len (pages s)) (Z.of_nat t) p ->
             page_ok (len (pages s)) (Z.of_nat t) (f p)) ->
  storage_ok s'.
Proof.
  intros Hok Hs' Hf i p. rewrite Hs'. unfold len. rewrite length_alter.
  destruct (decide (i = t)) as [->|Hne].
  - rewrite list_lookup_alter_eq. intros Hp.
    destruct (pages s !! t) as [q|] eqn:Hq; [|discriminate]. injection Hp as <-.
    apply Hf; [done|]. by apply Hok.
  - rewrite list_lookup_alter_ne by done. apply Hok.
Qed.

(** The loop of [Storage.Add] ends on the last page of the chain. *)
Lemma walk_over_chain s ps (a : option PagePtr * Z) :
  Forall (fun q => 0 <= q < len (pages s)) ps ->
  over_chain s ps
    (fun (_ : option PagePtr * Z) it =>
       page ← iter_page s it; mret (Some page, iter_pageno it)) a =
  Val (match last ps with
       | Some t => (Some (mkPagePtr (current_array s) t), t)
       | None => a
       end).
Proof.
  intros Hps. revert a. induction Hps as [|q ps Hq Hps IH]; intros a; [done|].
  cbn [over_chain].
  change (iter_page s (iter_at s q)) with (getPage q s).
  change (iter_pageno (iter_at s q)) with q.
  destruct (lookup_in_range _ _ Hq) as [p Hp].
  rewrite (getPage_lookup _ _ _ (proj1 Hq) Hp).
  etrans; [apply (IH (Some (mkPagePtr (current_array s) q), q))|].
  rewrite last_cons. by destruct (last ps).
Qed.

Lemma Page_Full_spec p :
  len (items p) = PageSize -> Page_Full p = (nitems p =? PageSize).
Proof. intros Hi. unfold Page_Full. by rewrite Hi. Qed.

Lemma Page_Add_spec itemid p :
  0 <= nitems p < PageSize -> len (items p) = PageSize ->
  Page_Add itemid p =
  Val (mkPage (nitems p + 1) (link p) (<[Z.to_nat (nitems p) := itemid]> (items p))).
Proof.
  intros Hn Hi. unfold Page_Add. rewrite assign_in_range by lia. cbn.
  rewrite int32_small; [done|]. unfold PageSize in Hn. lia.
Qed.

Lemma page_ok_Add n i itemid p :
  nitems p < PageSize -> page_ok n i p ->
  page_ok n i (mkPage (nitems p + 1) (link p) (<[Z.to_nat (nitems p) := itemid]> (items p))).
Proof.
  intros Hn [Hl Hc Hi]. split; cbn; [done|lia|].
  unfold len in *. by rewrite length_insert.
Qed.

(** [Storage.Add] on a chain of a well-formed storage returns, adds at most
    one page, and leaves the storage well-formed as long as the page
    numbers fit the links. *)
Lemma Storage_Add_ok itemid h s :
  storage_ok s -> 0 <= h < len (pages s) ->
  exists pageno s',
    Storage_Add growslice itemid h s = Val (pageno, s') /\
    len (pages s) <= len (pages s') <= len (pages s) + 1 /\
    (len (pages s') <= MaxPages -> storage_ok s').
Proof.
  intros Hok Hh. unfold Storage_Add, pageIterator. cbv zeta.
  destruct (chain_exists s Hok (length (pages s)) h) as (ps & Hch & Hhd & _ & Hlen);
    [done|unfold len; lia|].
  rewrite (for_pages_chain _ _ _ _ Hch) by (unfold fuel_of; lia).
  pose proof (chain_pages _ _ _ Hch) as Hps.
  rewrite (walk_over_chain _ _ _ Hps). cbn.
  destruct (last ps) as [t|] eqn:Hlast; cycle 1.
  { exfalso. destruct ps as [|q ps]; [discriminate|].
    rewrite last_cons in Hlast. by destruct (last ps). }
  assert (0 <= t < len (pages s)) as Ht.
  { rewrite Forall_forall in Hps. apply Hps. apply last_Some_elem_of. done. }
  destruct (lookup_in_range _ _ Ht) as [p Hp].
  rewrite (load_current _ _ _ (proj1 Ht) Hp). cbn.
  destruct (Hok _ _ Hp) as [Hpl Hpc Hpi].
  rewrite (Page_Full_spec _ Hpi).
  destruct (Z.eqb_spec (nitems p) PageSize) as [Hfull|Hroom].
  - (* the tail is full: a page is allocated *)
    destruct (allocatePage_spec s) as (s0 & -> & Hs0 & Harr0). cbn.
    set (n := len (pages s)).
    set (s1 := store (mkPagePtr (current_array s) t) (Page_Link n) s0).
    assert (pages s1 !! Z.to_nat n = Some (Page_Init zeroPage)) as Hnew.
    { destruct (store_pages_cases (mkPagePtr (current_array s) t) (Page_Link n) s0)
        as [Hs1|Hs1]; fold s1 in Hs1; rewrite Hs1; cbn.
      - rewrite Hs0. unfold n, len. rewrite Nat2Z.id, lookup_app_r by lia.
        by rewrite Nat.sub_diag.
      - rewrite list_lookup_alter_ne by (unfold n, len in *; lia).
        rewrite Hs0. unfold n, len. rewrite Nat2Z.id, lookup_app_r by lia.
        by rewrite Nat.sub_diag. }
    assert (0 <= n) as Hn by (unfold n, len; lia).
    rewrite (getPage_lookup _ _ _ Hn Hnew). cbn.
    unfold store_res. rewrite (load_current _ _ _ Hn Hnew). cbn.
    rewrite Page_Add_spec; [|cbn; unfold PageSize; lia|reflexivity]. cbn.
    eexists _, _. split; [done|].
    rewrite store_pages_current by done. cbn.
    assert (length (pages s1) = S (length (pages s))) as Hlen1.
    { destruct (store_pages_cases (mkPagePtr (current_array s) t) (Page_Link n) s0)
        as [Hs1|Hs1]; fold s1 in Hs1; rewrite Hs1, ?length_alter, Hs0, length_app;
        cbn; lia. }
    split; [unfold n, len; rewrite length_alter, Hlen1; lia|].
    unfold len at 1. rewrite length_alter, Hlen1. intros Hmax.
    assert (storage_ok s0) as Hok0.
    { eapply storage_ok_app; [done|done|]. split; cbn; [by left|unfold PageSize; lia|done]. }
    assert (storage_ok s1) as Hok1.
    { destruct (store_pages_cases (mkPagePtr (current_array s) t) (Page_Link n) s0)
        as [Hs1|Hs1]; fold s1 in Hs1.
      - intros i q. rewrite Hs1. apply Hok0.
      - eapply (storage_ok_alter s0); [done|exact Hs1|]. cbn.
        intros q Hq [Hql Hqc Hqi]. split; cbn; [|done|done].
        right. rewrite int32_small by (unfold MaxPages in Hmax; unfold n, len; lia).
        rewrite Hs0. unfold n, len in *. rewrite length_app. cbn. lia. }
    eapply (storage_ok_alter s1); [done|by apply store_pages_current|]. cbn.
    intros q Hq Hqok. rewrite Hnew in Hq. injection Hq as <-.
    apply (page_ok_Add _ _ itemid (Page_Init zeroPage)); [cbn; unfold PageSize; lia|done].
  - (* the tail has room *)
    unfold store_res. rewrite (load_current _ _ _ (proj1 Ht) Hp). cbn.
    rewrite Page_Add_spec; [|lia|done]. cbn.
    eexists _, _. split; [done|].
    rewrite store_pages_current by done. cbn.
    split; [unfold len; rewrite length_alter; lia|]. intros _.
    eapply (storage_ok_alter s); [done|by apply store_pages_current|]. cbn.
    intros q Hq Hqok. assert (q = p) as -> by congruence.
    apply page_ok_Add; [lia|done].
Qed.

(** The collection of pages never shrinks. *)
Lemma store_length p f s : length (pages (store p f s)) = length (pages s).
Proof.
  destruct (store_pages_cases p f s) as [->| ->]; [done|]. by rewrite length_alter.
Qed.

Lemma store_res_length p f s s' :
  store_res p f s = Val s' -> length (pages s') = length (pages s).
Proof.
  unfold store_res. intros Hs.
  apply res_bind_Val in Hs as (pg & _ & Hs).
  apply res_bind_Val in Hs as (pg' & _ & Hs).
  injection Hs as <-. apply store_length.
Qed.

Lemma allocatePage_length s n s' :
  allocatePage growslice s = Val (n, s') -> length (pages s') = S (length (pages s)).
Proof.
  destruct (allocatePage_spec s) as (s0 & -> & Hs0 & _). intros [= _ <-].
  rewrite Hs0, length_app. cbn. lia.
Qed.

Lemma Storage_Add_length itemid h s pageno s' :
  Storage_Add growslice itemid h s = Val (pageno, s') ->
  (length (pages s) <= length (pages s'))%nat.
Proof.
  unfold Storage_Add. intros Hadd.
  apply res_bind_Val in Hadd as ([[page|] pn] & _ & Hadd); [|discriminate].
  apply res_bind_Val in Hadd as (pg & _ & Hadd).
  destruct (Page_Full pg).
  - apply res_bind_Val in Hadd as ([n s0] & Halloc & Hadd).
    apply res_bind_Val in Hadd as (page' & _ & Hadd).
    apply res_bind_Val in Hadd as (s2 & Hs2 & Hadd). injection Hadd as _ <-.
    rewrite (store_res_length _ _ _ _ Hs2), store_length.
    rewrite (allocatePage_length _ _ _ Halloc). lia.
  - apply res_bind_Val in Hadd as (s2 & Hs2 & Hadd). injection Hadd as _ <-.
    by rewrite (store_res_length _ _ _ _ Hs2).
Qed.

End StorageFacts.

(** ** The indexer *)

Arguments Storage_Add : simpl never.
Arguments allocatePage : simpl never.

Section IndexerFacts.
Context {F : Type} `{DistanceOk F} {vectorgen : VectorGen F}.
Variable growslice : Z -> Z.

Lemma init_hyperplane_length n : forall g, length (init_hyperplane n g) = n.
Proof.
  induction n as [|n IH]; intros g; cbn; [done|].
  destruct (Next g) as [v g']. cbn. by rewrite IH.
Qed.

Lemma NewIndexer_spec seed bitsize vecsize :
  0 <= bitsize <= 32 ->
  NewIndexer seed bitsize vecsize =
  Val (mkIndexer seed bitsize vecsize
         (init_hyperplane (Z.to_nat bitsize) (NewRandomVectorGen seed vecsize))
         zeroStorage ∅).
Proof.
  intros Hb. unfold NewIndexer.
  destruct (Z.ltb_spec 32 bitsize); [lia|].
  destruct (Z.ltb_spec bitsize 0); [lia|]. done.
Qed.

Lemma NewIndexer_negative seed bitsize vecsize :
  bitsize < 0 -> NewIndexer seed bitsize vecsize = Fault MakeOutOfRange.
Proof.
  intros Hb. unfold NewIndexer.
  destruct (Z.ltb_spec 32 bitsize); [lia|].
  by destruct (Z.ltb_spec bitsize 0); [|lia].
Qed.

Lemma NewIndexer_Val seed bitsize vecsize idx :
  NewIndexer seed bitsize vecsize = Val idx -> 0 <= bitsize <= 32.
Proof.
  unfold NewIndexer.
  destruct (Z.ltb_spec 32 bitsize); [discriminate|].
  destruct (Z.ltb_spec bitsize 0); [discriminate|]. lia.
Qed.

Lemma NewIndexer_ok seed bitsize vecsize idx :
  NewIndexer seed bitsize vecsize = Val idx -> indexer_ok idx.
Proof.
  intros Hnew. pose proof (NewIndexer_Val _ _ _ _ Hnew) as Hb.
  rewrite NewIndexer_spec in Hnew by done. injection Hnew as <-.
  split; cbn.
  - intros i p Hp. done.
  - intros k h Hk. by rewrite lookup_empty in Hk.
  - intros k [h Hk]. by rewrite lookup_empty in Hk.
  - unfold len. rewrite init_hyperplane_length. lia.
  - done.
Qed.

Lemma Indexer_Add_length itemid vec idx idx' :
  Indexer_Add growslice itemid vec idx = Val idx' ->
  (length (pages (storage idx)) <= length (pages (storage idx')))%nat /\
  bitsize idx' = bitsize idx /\ hyperplane idx' = hyperplane idx.
Proof.
  unfold Indexer_Add. intros Hadd.
  apply res_bind_Val in Hadd as (k & Hk & Hadd).
  apply res_bind_Val in Hadd as ([[pageno s] lk] & Hlk & Hadd).
  apply res_bind_Val in Hadd as ([pn s'] & Hs' & Hadd). injection Hadd as <-. cbn.
  split; [|done].
  apply Storage_Add_length in Hs'.
  destruct (lookup idx !! k) as [h|].
  - by injection Hlk as _ <- _.
  - apply res_bind_Val in Hlk as ([n s0] & Halloc & Hlk). injection Hlk as _ <- _.
    apply allocatePage_length in Halloc. lia.
Qed.

(** [Add] keeps the index well-formed as long as the page numbers fit the
    links. *)
Lemma Indexer_Add_ok itemid vec idx idx' :
  indexer_ok idx ->
  Indexer_Add growslice itemid vec idx = Val idx' ->
  len (pages (storage idx')) <= MaxPages ->
  indexer_ok idx'.
Proof.
  intros [Hst Hheads Hkeys Hhp Hbits] Hadd Hmax.
  unfold Indexer_Add in Hadd.
  apply res_bind_Val in Hadd as (k & Hk & Hadd).
  apply res_bind_Val in Hadd as ([[pageno s] lk] & Hlk & Hadd).
  apply res_bind_Val in Hadd as ([pn s'] & Hs' & Hadd). injection Hadd as <-.
  cbn in Hmax.
  assert (storage_ok s /\ 0 <= pageno < len (pages s) /\
          (forall k' h, lk !! k' = Some h -> 0 <= h < len (pages s)) /\
          (forall k', is_Some (lk !! k') ->
                      Uint32 (FromUint32 k' (bitsize idx)) = Val k'))
    as (Hs & Hpageno & Hlkh & Hlkk).
  { destruct (lookup idx !! k) as [h|] eqn:Hlook.
    - injection Hlk as <- <- <-. eauto.
    - destruct (allocatePage_spec growslice (storage idx)) as (s0 & Halloc & Hs0 & _).
      rewrite Halloc in Hlk. injection Hlk as <- <- <-.
      assert (len (pages s0) = len (pages (storage idx)) + 1) as Hlen0.
      { unfold len. rewrite Hs0, length_app. cbn. lia. }
      split_and!.
      + eapply storage_ok_app; [done|done|].
        split; cbn; [by left|unfold PageSize; lia|done].
      + unfold len in *. lia.
      + unfold len in *. lia.
      + intros k' h. rewrite lookup_insert. case_decide as Hkk.
        * intros [= <-]. unfold len in *. lia.
        * intros Hk'. apply Hheads in Hk'. lia.
      + intros k'. rewrite lookup_insert. case_decide as Hkk.
        * subst k'. intros _.
          eapply Uint32_FromUint32; [|lia|done].
          rewrite <- Hhp. apply GetBitVector_wf.
        * apply Hkeys. }
  destruct (Storage_Add_ok growslice itemid pageno s Hs Hpageno)
    as (pn' & s'' & Hadd' & Hlen & Hok').
  rewrite Hadd' in Hs'. injection Hs' as <- <-.
  split; cbn; [by apply Hok'| |done|done|done].
  intros k' h Hk'. apply Hlkh in Hk'. lia.
Qed.

Lemma run_length ops : forall idx idx',
  run growslice ops idx = Val idx' ->
  (length (pages (storage idx)) <= length (pages (storage idx')))%nat /\
  bitsize idx' = bitsize idx /\ hyperplane idx' = hyperplane idx.
Proof.
  induction ops as [|[itemid vec] ops IH]; intros idx idx' Hrun; cbn in Hrun.
  - by injection Hrun as <-.
  - apply res_bind_Val in Hrun as (idx1 & Hadd & Hrun).
    apply Indexer_Add_length in Hadd as (Hl1 & Hb1 & Hh1).
    apply IH in Hrun as (Hl & Hb & Hh). split_and!; [lia|congruence|congruence].
Qed.

Lemma run_ok ops : forall idx idx',
  indexer_ok idx ->
  run growslice ops idx = Val idx' ->
  len (pages (storage idx')) <= MaxPages ->
  indexer_ok idx'.
Proof.
  induction ops as [|[itemid vec] ops IH]; intros idx idx' Hok Hrun Hmax; cbn in Hrun.
  - by injection Hrun as <-.
  - apply res_bind_Val in Hrun as (idx1 & Hadd & Hrun).
    eapply IH; [|done|done].
    eapply Indexer_Add_ok; [done|done|].
    apply run_length in Hrun as (Hl & _). unfold len in *. lia.
Qed.

(** [Add] returns on a well-formed index of at least one bit, and adds at
    most one page. *)
Lemma Indexer_Add_returns itemid vec (idx : Indexer F) :
  indexer_ok idx -> 1 <= bitsize idx ->
  exists idx', Indexer_Add growslice itemid vec idx = Val idx' /\
               len (pages (storage idx')) <= len (pages (storage idx)) + 1.
Proof.
  intros Hok Hbit. destruct Hok as [Hst Hheads Hkeys Hhp Hbits].
  unfold Indexer_Add.
  destruct (Uint32_wf (bitsize idx) (GetBitVector (hyperplane idx) vec)) as [k ->];
    [rewrite <- Hhp; apply GetBitVector_wf|done|]. cbn.
  destruct (lookup idx !! k) as [h|] eqn:Hlook; cbn.
  - destruct (Storage_Add_ok growslice itemid h (storage idx) Hst (Hheads _ _ Hlook))
      as (pn & s' & -> & Hlen & _). cbn. eexists. split; [done|]. cbn. lia.
  - destruct (allocatePage_spec growslice (storage idx)) as (s0 & -> & Hs0 & _). cbn.
    set (n := len (pages (storage idx))).
    assert (storage_ok s0) as Hok0.
    { eapply storage_ok_app; [done|done|].
      split; cbn; [by left|unfold PageSize; lia|done]. }
    assert (pages s0 !! Z.to_nat n = Some (Page_Init zeroPage)) as Hnew.
    { rewrite Hs0. unfold n, len. rewrite Nat2Z.id, lookup_app_r by lia.
      by rewrite Nat.sub_diag. }
    assert (0 <= n) as Hn by (unfold n, len; lia).
    (* the new page has room: the insert goes into it *)
    unfold Storage_Add, pageIterator. cbv zeta.
    assert (chain s0 n [n]) as Hch.
    { eapply chain_step; [done|done|]. cbn. rewrite int32_small by lia. constructor. }
    rewrite (for_pages_fuel_of _ _ _ _ _ Hok0 Hch). cbn [over_chain].
    change (iter_page s0 (iter_at s0 n)) with (getPage n s0).
    rewrite (getPage_lookup _ _ _ Hn Hnew). cbn.
    rewrite (load_current _ _ _ Hn Hnew). cbn.
    unfold store_res. rewrite (load_current _ _ _ Hn Hnew). cbn.
    eexists. split; [done|]. cbn.
    rewrite store_pages_current by done. unfold len. rewrite length_alter, Hs0, length_app.
    cbn. unfold n, len. lia.
Qed.

(** A sequence of [Add] calls returns as long as the page numbers fit the
    links. *)
Lemma run_returns ops : forall idx : Indexer F,
  indexer_ok idx -> 1 <= bitsize idx ->
  len (pages (storage idx)) + len ops <= MaxPages ->
  exists idx', run growslice ops idx = Val idx'.
Proof.
  induction ops as [|[itemid vec] ops IH]; intros idx Hok Hbit Hmax; cbn.
  - by eexists.
  - destruct (Indexer_Add_returns itemid vec idx Hok Hbit) as (idx1 & Hadd & Hlen).
    rewrite Hadd. cbn. unfold len in Hmax. cbn [length] in Hmax.
    apply IH.
    + eapply Indexer_Add_ok; [done|done|]. unfold len in *. lia.
    + by destruct (Indexer_Add_length _ _ _ _ Hadd) as (_ & -> & _).
    + unfold len in *. lia.
Qed.

(** An index built by [NewIndexer] and [Add] calls is well-formed as long
    as the page numbers fit the links. *)
Lemma built_ok seed bitsize vecsize ops idx :
  built growslice seed bitsize vecsize ops idx ->
  len (pages (storage idx)) <= MaxPages ->
  indexer_ok idx.
Proof.
  unfold built. intros Hb Hmax.
  apply res_bind_Val in Hb as (idx0 & Hnew & Hrun).
  eapply run_ok; [|done|done]. by eapply NewIndexer_ok.
Qed.

End IndexerFacts.

(** ** Search *)

Arguments drain : simpl never.
Arguments fuel_of : simpl never.

Lemma Page_Gets_ok n i p :
  page_ok n i p -> Page_Gets p = Val (take (Z.to_nat (nitems p)) (items p)).
Proof.
  intros [_ Hc Hi]. unfold Page_Gets. rewrite Hi.
  destruct (Z.ltb_spec (nitems p) 0); [lia|].
  destruct (Z.ltb_spec PageSize (nitems p)); [lia|]. done.
Qed.

Lemma drain_over_chain s ps : forall items,
  storage_ok s ->
  Forall (fun q => 0 <= q < len (pages s)) ps ->
  over_chain s ps
    (fun items it =>
       page ← iter_page s it;
       pg ← load page s;
       got ← Page_Gets pg;
       mret (items ++ got)) items =
  Val (items ++ concat (page_items s <$> ps)).
Proof.
  intros items Hok Hps. revert items.
  induction Hps as [|q ps Hq Hps IH]; intros items; cbn [over_chain fmap list_fmap concat].
  - by rewrite app_nil_r.
  - change (iter_page s (iter_at s q)) with (getPage q s).
    destruct (lookup_in_range _ _ Hq) as [p Hp].
    rewrite (getPage_lookup _ _ _ (proj1 Hq) Hp). cbn.
    rewrite (load_current _ _ _ (proj1 Hq) Hp). cbn.
    rewrite (Page_Gets_ok _ _ _ (Hok _ _ Hp)). cbn.
    etrans; [apply IH|]. unfold page_items at 2. rewrite Hp.
    by rewrite <- app_assoc.
Qed.

(** Draining a bucket appends the items of its chain. *)
Lemma drain_spec s h ps items :
  storage_ok s -> chain s h ps ->
  drain s h items = Val (items ++ concat (page_items s <$> ps)).
Proof.
  intros Hok Hch. unfold drain.
  rewrite (for_pages_fuel_of _ _ _ _ _ Hok Hch).
  apply drain_over_chain; [done|]. by eapply chain_pages.
Qed.

Section SearchFacts.
Context {F : Type} `{DistanceOk F} {vectorgen : VectorGen F}.

Lemma bucket_exists (idx : Indexer F) k :
  indexer_ok idx -> is_Some (lookup idx !! k) -> exists b, bucket idx k b.
Proof.
  intros [Hst Hheads _ _ _] [h Hk].
  destruct (chain_of_head _ h Hst (Hheads _ _ Hk)) as (ps & Hch & _).
  eexists. exists h, ps. eauto.
Qed.

Lemma buckets_exist (idx : Indexer F) ks :
  indexer_ok idx -> Forall (fun k => is_Some (lookup idx !! k)) ks ->
  exists bs, Forall2 (bucket idx) ks bs.
Proof.
  intros Hok. induction 1 as [|k ks Hk Hks (bs & Hbs)]; [by exists []|].
  destruct (bucket_exists idx k Hok Hk) as [b Hb]. exists (b :: bs). by constructor.
Qed.

Lemma distances_exist (idx : Indexer F) vec ks :
  indexer_ok idx ->
  exists ds, Forall2 (fun x d => Hamming (GetBitVector (hyperplane idx) vec) x = Val d)
               (lkeys_of idx ks) ds.
Proof.
  intros [_ _ _ Hhp Hbits]. induction ks as [|k ks (ds & Hds)]; [by exists []|].
  destruct (Hamming_wf (bitsize idx) (GetBitVector (hyperplane idx) vec)
              (FromUint32 k (bitsize idx))) as [d Hd].
  - rewrite <- Hhp. apply GetBitVector_wf.
  - apply wf_FromUint32. lia.
  - exists (d :: ds). by constructor.
Qed.

(** The loop of [Search] from any point: it returns the items of the
    buckets up to the first one at which it stops. *)
Lemma Search_loop_spec (idx : Indexer F) key limit :
  indexer_ok idx ->
  forall ks bs ds lastdist items,
  Forall2 (bucket idx) ks bs ->
  Forall2 (fun x d => Hamming key x = Val d) (lkeys_of idx ks) ds ->
  exists n : nat,
    (n <= length ks)%nat /\
    Search_loop idx key limit (lkeys_of idx ks) lastdist items =
      Val (items ++ collected bs n) /\
    (forall j, (j < n)%nat -> ~ stops_from limit ds bs lastdist items j) /\
    ((n < length ks)%nat -> stops_from limit ds bs lastdist items n).
Proof.
  intros Hok ks bs ds lastdist items Hbs. revert ds lastdist items.
  induction Hbs as [|k b ks bs Hb Hbs IH]; intros ds lastdist items Hds.
  - exists 0%nat. cbn. unfold collected. cbn. rewrite app_nil_r.
    split_and!; [lia|done|intros; lia|lia].
  - cbn in Hds. apply Forall2_cons_inv_l in Hds as (d & ds' & Hd & Hds & ->).
    cbn [lkeys_of map Search_loop]. rewrite Hd. cbn.
    destruct (negb (lastdist =? d) && (limit <=? len items)) eqn:Hstop.
    + exists 0%nat. unfold collected. cbn. rewrite app_nil_r.
      apply andb_true_iff in Hstop as [Hne Hle].
      apply negb_true_iff, Z.eqb_neq in Hne. apply Z.leb_le in Hle.
      split_and!; [lia|done|intros; lia|].
      intros _. split; cbn; [by rewrite app_nil_r|congruence].
    + destruct Hb as (h & ps & Hk & Hch & ->).
      rewrite (ok_keys _ Hok k) by eauto. cbn. rewrite Hk. cbn.
      rewrite (drain_spec _ _ _ _ (ok_storage _ Hok) Hch). cbn.
      destruct (IH ds' d (items ++ concat (page_items (storage idx) <$> ps)) Hds)
        as (n & Hn & Hloop & Hbefore & Hat).
      exists (S n). split_and!.
      * cbn. lia.
      * unfold lkeys_of in Hloop. rewrite Hloop. unfold collected. cbn.
        by rewrite <- app_assoc.
      * intros [|j] Hj.
        -- intros [Hle Hne]. cbn in Hle, Hne. unfold collected in Hle. cbn in Hle.
           rewrite app_nil_r in Hle.
           apply andb_false_iff in Hstop as [Hs|Hs].
           ++ apply negb_false_iff, Z.eqb_eq in Hs. congruence.
           ++ apply Z.leb_gt in Hs. lia.
        -- intros [Hle Hne]. apply (Hbefore j); [lia|]. split.
           ++ unfold collected in *. cbn in Hle. by rewrite <- app_assoc.
           ++ destruct j; cbn in *; done.
      * intros Hlt. destruct Hat as [Hle Hne]; [cbn in Hlt; lia|]. split.
        -- unfold collected in *. cbn. by rewrite <- app_assoc in Hle.
        -- destruct n; cbn in *; done.
Qed.

(** The buckets in a search order are the keys of the lookup table. *)
Lemma search_order_keys (idx : Indexer F) vec lkeys :
  search_order idx vec lkeys ->
  exists ks, lkeys = lkeys_of idx ks /\
             ks ≡ₚ (map_to_list (lookup idx)).*1 /\
             Forall (fun k => is_Some (lookup idx !! k)) ks.
Proof.
  intros [Hperm _]. unfold lkeys_of in Hperm.
  apply Permutation_map_inv in Hperm as (ks & -> & Hks).
  exists ks. split_and!; [done|by symmetry|].
  apply Forall_forall. intros k Hk. rewrite <- Hks in Hk.
  apply list_elem_of_fmap in Hk as ([k' h] & -> & Hk).
  apply elem_of_map_to_list in Hk. by exists h.
Qed.

(** The result slice is made for a limit that is not negative and whose
    elements fit the allocator. *)
Lemma Search_sorted_in_range (idx : Indexer F) vec limit lkeys :
  0 <= limit -> 8 * limit <= maxAlloc ->
  Search_sorted lkeys idx vec limit =
  Search_loop idx (GetBitVector (hyperplane idx) vec) limit lkeys 0 [].
Proof.
  intros Hlimit Hmax. unfold Search_sorted.
  destruct (Z.ltb_spec limit 0); [lia|].
  destruct (Z.ltb_spec maxAlloc (8 * limit)); [lia|]. done.
Qed.

(** [Search] over a search order: the buckets are ranked by distance, and
    the result is the items of the buckets before the first one at
    which the search stops. *)
Lemma Search_sorted_spec (idx : Indexer F) vec limit lkeys :
  indexer_ok idx -> 0 <= limit -> 8 * limit <= maxAlloc ->
  search_order idx vec lkeys ->
  exists ks bs ds (n : nat),
    lkeys = lkeys_of idx ks /\
    ks ≡ₚ (map_to_list (lookup idx)).*1 /\
    Forall2 (bucket idx) ks bs /\
    Forall2 (fun x d => Hamming (GetBitVector (hyperplane idx) vec) x = Val d) lkeys ds /\
    Sorted Z.le ds /\
    (n <= length lkeys)%nat /\
    Search_sorted lkeys idx vec limit = Val (collected bs n) /\
    (forall j, (j < n)%nat -> ~ stops limit ds bs j) /\
    ((n < length lkeys)%nat -> stops limit ds bs n).
Proof.
  intros Hok Hlimit Hfits Horder.
  destruct (search_order_keys _ _ _ Horder) as (ks & -> & Hperm & Hks).
  destruct (buckets_exist idx ks Hok Hks) as [bs Hbs].
  destruct (distances_exist idx vec ks Hok) as [ds Hds].
  destruct (Search_loop_spec idx (GetBitVector (hyperplane idx) vec) limit Hok
              ks bs ds 0 [] Hbs Hds) as (n & Hn & Hloop & Hbefore & Hat).
  exists ks, bs, ds, n. unfold lkeys_of at 3 4. rewrite length_map.
  split_and!; try done.
  - destruct Horder as [_ Hs]. by eapply sorted_distances.
  - by rewrite Search_sorted_in_range.
  - unfold lkeys_of. by rewrite length_map.
Qed.

Lemma Search_sorted_negative (idx : Indexer F) vec limit lkeys :
  limit < 0 -> Search_sorted lkeys idx vec limit = Fault MakeOutOfRange.
Proof. intros Hl. unfold Search_sorted. by destruct (Z.ltb_spec limit 0); [|lia]. Qed.

(** [Search] panics when it makes the result slice for a limit that is
    negative or beyond the allocator, whatever the index holds. *)
Lemma Search_sorted_out_of_range (idx : Indexer F) vec limit lkeys :
  limit < 0 \/ maxAlloc < 8 * limit ->
  Search_sorted lkeys idx vec limit = Fault MakeOutOfRange.
Proof.
  intros Hl. unfold Search_sorted.
  destruct (Z.ltb_spec limit 0); [done|].
  destruct (Z.ltb_spec maxAlloc (8 * limit)); [done|lia].
Qed.

(** [Search] as it is computed follows one of the search orders. *)
Lemma Search_search_order (idx : Indexer F) vec limit r :
  Search vec limit idx = Val r ->
  exists lkeys, search_order idx vec lkeys /\
                Search_sorted lkeys idx vec limit = Val r.
Proof.
  unfold Search. intros Hs. apply res_bind_Val in Hs as (lkeys & Hsort & Hs).
  exists lkeys. split; [|done]. by apply SortFrom_sorted_from.
Qed.

(** On a well-formed index [Search] returns for every limit that is not
    negative and fits the allocator, and its result is that of one of
    the search orders. *)
Lemma Search_returns (idx : Indexer F) vec limit :
  indexer_ok idx -> 0 <= limit -> 8 * limit <= maxAlloc ->
  exists lkeys r, search_order idx vec lkeys /\
                  Search vec limit idx = Val r /\
                  Search_sorted lkeys idx vec limit = Val r.
Proof.
  intros Hok Hlimit Hfits.
  destruct (SortFrom_Val (GetBitVector (hyperplane idx) vec)
              (lkeys_of idx (map_to_list (lookup idx)).*1)) as (lkeys & Hsort & _).
  { apply Forall_forall. intros x Hx. unfold lkeys_of in Hx.
    apply list_elem_of_fmap in Hx as (k & -> & _).
    destruct (Hamming_wf (bitsize idx) (GetBitVector (hyperplane idx) vec)
                (FromUint32 k (bitsize idx))) as [d Hd].
    - rewrite <- (ok_hyperplane _ Hok). apply GetBitVector_wf.
    - apply wf_FromUint32. apply Hok.
    - by exists d. }
  assert (search_order idx vec lkeys) as Horder by by apply SortFrom_sorted_from.
  destruct (Search_sorted_spec idx vec limit lkeys Hok Hlimit Hfits Horder)
    as (ks & bs & ds & n & _ & _ & _ & _ & _ & _ & Hr & _).
  exists lkeys, (collected bs n). split_and!; [done| |done].
  unfold Search. rewrite Hsort. cbn. exact Hr.
Qed.

End SearchFacts.

(** ** Traversals that return *)

Lemma over_chain_Val {A : Type} s ps (body : A -> pageIter -> res A) :
  Forall (fun q => 0 <= q < len (pages s)) ps ->
  (forall a q, 0 <= q < len (pages s) -> is_Val (body a (iter_at s q))) ->
  forall a, is_Val (over_chain s ps body a).
Proof.
  intros Hps Hbody. induction Hps as [|q ps Hq Hps IH]; intros a; cbn.
  - by eexists.
  - destruct (Hbody a q Hq) as [a' ->]. cbn. apply IH.
Qed.

Lemma mapM_res_Val {A B : Type} (f : A -> res B) l :
  Forall (fun x => is_Val (f x)) l -> is_Val (mapM f l).
Proof.
  induction 1 as [|x l [y Hy] Hl [ys Hys]]; cbn; [by eexists|].
  rewrite Hy. cbn. rewrite Hys. cbn. by eexists.
Qed.

Lemma Uint32_range bv k : Uint32 bv = Val k -> uint32 k = k.
Proof.
  unfold Uint32. intros Hk. apply res_bind_Val in Hk as (v & _ & Hk).
  injection Hk as <-. unfold uint32. apply Z.mod_mod. lia.
Qed.

Section Theorems.
Context {F : Type} `{DistanceOk F} {vectorgen : VectorGen F}.
Variable growslice : Z -> Z.

Lemma Dump_line_Val (idx : Indexer F) k :
  indexer_ok idx -> is_Some (lookup idx !! k) -> is_Val (Dump_line idx k).
Proof.
  intros Hok [h Hk]. unfold Dump_line.
  rewrite (Uint32_range _ _ (ok_keys _ Hok k (mk_is_Some _ _ Hk))). rewrite Hk. cbn.
  destruct (chain_of_head _ h (ok_storage _ Hok) (ok_heads _ Hok _ _ Hk))
    as (ps & Hch & _ & _).
  rewrite (for_pages_fuel_of _ _ _ _ _ (ok_storage _ Hok) Hch).
  match goal with
  | |- context [over_chain _ _ ?b ?a0] =>
      assert (is_Val (over_chain (storage idx) ps b a0)) as [[n pl] ->];
        [apply over_chain_Val|]
  end.
  - by eapply chain_pages.
  - intros a q Hq. cbn beta.
    change (iter_page (storage idx) (iter_at (storage idx) q))
      with (getPage q (storage idx)).
    destruct (lookup_in_range _ _ Hq) as [p Hp].
    rewrite (getPage_lookup _ _ _ (proj1 Hq) Hp). cbn.
    rewrite (load_current _ _ _ (proj1 Hq) Hp). cbn. by eexists.
  - cbn. destruct (String_Val (FromUint32 k (bitsize idx))) as [str ->].
    + apply wf_FromUint32. apply Hok.
    + cbn. by eexists.
Qed.

Lemma Dump_Val (idx : Indexer F) : indexer_ok idx -> is_Val (Dump idx).
Proof.
  intros Hok. unfold Dump.
  destruct (mapM_res_Val (Dump_line idx)
              (merge_sort Z.le (map_to_list (lookup idx)).*1)) as [lines ->].
  - apply Forall_forall. intros k Hk. apply Dump_line_Val; [done|].
    rewrite merge_sort_Permutation in Hk.
    apply list_elem_of_fmap in Hk as ([k' h] & -> & Hk).
    apply elem_of_map_to_list in Hk. by exists h.
  - cbn. by eexists.
Qed.

(** C2 (amended).  For every index built by [NewIndexer] and [Add] calls
    whose page numbers fit the links, every query vector and every
    [limit >= 0] for which the result slice can be made (its [limit]
    elements of 8 bytes within [maxAlloc]), in each order in which
    [Search] can visit the buckets: the buckets are visited in ascending
    Hamming distance from the query key, and the result is the items of
    the first [n] buckets, each in full, where [n] is the first position
    at which the collected size is at least [limit] and the distance of
    bucket [n] differs from the last one drained (taken as 0 before any
    bucket is drained), or the number of buckets if there is no such
    position.  For a limit that is negative or beyond that bound
    [Search] panics when it makes the result slice. *)
Theorem Search_drains_whole_tiers seed bitsize vecsize ops (idx : Indexer F)
    vec limit lkeys :
  built growslice seed bitsize vecsize ops idx ->
  len (pages (storage idx)) <= MaxPages ->
  search_order idx vec lkeys ->
  (0 <= limit -> 8 * limit <= maxAlloc ->
   drains_whole_tiers idx vec limit lkeys) /\
  (limit < 0 \/ maxAlloc < 8 * limit ->
   Search_sorted lkeys idx vec limit = Fault MakeOutOfRange).
Proof.
  intros Hbuilt Hmax Horder. split.
  - intros Hlimit Hfits.
    apply Search_sorted_spec; [|done|done|done]. by eapply built_ok.
  - apply Search_sorted_out_of_range.
Qed.

(** C5 (amended).  For every index built by [NewIndexer] and [Add] calls
    whose page numbers fit the links, every query vector and every
    [limit >= 0] for which the result slice can be made (its [limit]
    elements of 8 bytes within [maxAlloc]): [Search] returns at least
    [limit] identifiers unless the chains of all buckets together hold
    fewer than [limit], and then it returns all of them; on an index
    without buckets it returns the empty sequence.  For a limit that is
    negative or beyond that bound [Search] panics when it makes the
    result slice, also on the index without buckets. *)
Theorem Search_returns_limit_or_all seed bitsize vecsize ops (idx : Indexer F)
    vec limit lkeys :
  built growslice seed bitsize vecsize ops idx ->
  len (pages (storage idx)) <= MaxPages ->
  search_order idx vec lkeys ->
  (0 <= limit -> 8 * limit <= maxAlloc ->
   returns_limit_or_all idx vec limit lkeys) /\
  (limit < 0 \/ maxAlloc < 8 * limit ->
   Search_sorted lkeys idx vec limit = Fault MakeOutOfRange).
Proof.
  intros Hbuilt Hmax Horder. split; [|apply Search_sorted_out_of_range].
  intros Hlimit Hfits.
  destruct (Search_sorted_spec idx vec limit lkeys) as
    (ks & bs & ds & n & -> & Hperm & Hbs & Hds & _ & Hn & Hr & _ & Hat);
    [by eapply built_ok|done|done|done|].
  exists ks, bs, (collected bs n). split_and!; [done|done|done| | |].
  - intros Htotal. destruct (decide (n < length (lkeys_of idx ks))%nat) as [Hlt|Hge].
    + destruct (Hat Hlt) as [Hle _]. done.
    + unfold collected. rewrite take_ge; [done|].
      apply Forall2_length in Hbs. unfold lkeys_of in Hge, Hn.
      rewrite length_map in Hge, Hn. lia.
  - intros Htotal. destruct (decide (n < length (lkeys_of idx ks))%nat) as [Hlt|Hge].
    + destruct (Hat Hlt) as [Hle _]. cbn in Hle. exfalso.
      assert (len (collected bs n) <= len (concat bs)); [|lia].
      unfold collected, len. rewrite <- (take_drop n bs) at 2.
      rewrite concat_app, length_app. lia.
    + unfold collected. rewrite take_ge; [done|].
      apply Forall2_length in Hbs. unfold lkeys_of in Hge, Hn.
      rewrite length_map in Hge, Hn. lia.
  - intros Hempty. rewrite Hempty, map_to_list_empty in Hperm. cbn in Hperm.
    apply Permutation_nil_r in Hperm as ->.
    apply Forall2_nil_inv_l in Hbs as ->. unfold collected. by rewrite take_nil.
Qed.


End Theorems.

(** C9 (amended).  Construction with [bitsize > 32] panics with the
    configuration error.  For every [bitsize] with [0 <= bitsize <= 32]
    it succeeds: the index has [bitsize] hyperplanes, the first vectors
    of the generator seeded with [seed], each of dimension [vecsize]
    when [vecsize >= 0] and the generator meets its contract; its
    storage has no page and its lookup table no key. *)
Theorem NewIndexer_builds {F : Type} {vectorgen : VectorGen F}
    {vectorgen_ok : VectorGenOk F} seed bitsize vecsize :
  (32 < bitsize -> NewIndexer seed bitsize vecsize = Fault ConfigPanic) /\
  (0 <= bitsize <= 32 ->
   exists idx : Indexer F,
     NewIndexer seed bitsize vecsize = Val idx /\
     bitsize = lsh.bitsize idx /\
     len (hyperplane idx) = bitsize /\
     hyperplane idx =
       init_hyperplane (Z.to_nat bitsize) (NewRandomVectorGen seed vecsize) /\
     (0 <= vecsize -> Forall (fun v => len v = vecsize) (hyperplane idx)) /\
     storage idx = zeroStorage /\
     pages (storage idx) = [] /\
     lookup idx = ∅).
Proof.
  split.
  - intros Hb. unfold NewIndexer. by destruct (Z.ltb_spec 32 bitsize); [|lia].
  - intros Hb. eexists. split; [by apply NewIndexer_spec|]. cbn.
    split_and!; try done.
    + unfold len. rewrite init_hyperplane_length. lia.
    + intros Hv.
      assert (forall n g, gen_vecsize g = vecsize ->
                Forall (fun v => len v = vecsize) (init_hyperplane n g)) as Hgen.
      { induction n as [|n IH]; intros g Hg; cbn; [constructor|].
        pose proof (gen_dim_next g) as Hdim. pose proof (gen_vecsize_next g) as Hnext.
        destruct (Next g) as [v g']. cbn in *. constructor; [|apply IH]; lia. }
      apply Hgen. by apply gen_vecsize_new.
Qed.

End lsh_facts.

(** ** The instance meets the contracts; the scenarios *)

Module scenarios.
Import bitvector bitvector_facts lsh lsh_facts instance.

Lemma set_bit_bytes i bs : Forall is_byte bs -> Forall is_byte (set_bit i bs).
Proof.
  intros Hbs. unfold set_bit. apply Forall_alter; [done|].
  intros b _ Hb. apply lor_is_byte; [done|apply mask_is_byte].
Qed.

Lemma angular_bits_wf hp vec bs :
  Forall is_byte bs ->
  length (angular_bits hp vec bs) = length bs /\
  Forall is_byte (angular_bits hp vec bs).
Proof.
  intros Hbs. unfold angular_bits.
  induction (imap pair hp) as [|[i h] l [IHlen IHbytes]]; cbn [foldr fst snd]; [done|].
  destruct (0 <=? dot h vec); [|done].
  split; [|by apply set_bit_bytes].
  unfold set_bit. by rewrite length_alter.
Qed.

#[export] Instance Angular_ok : DistanceOk Z.
Proof.
  intros hp v. cbn.
  destruct (angular_bits_wf hp v
              (replicate (Z.to_nat (Z.shiftr (len hp + 7) 3)) 0)) as [Hlen Hbytes].
  { apply Forall_replicate. unfold is_byte. lia. }
  split; cbn; [done| |done].
  unfold ByteSize, len in *. cbn. rewrite Hlen, length_replicate.
  apply Z2Nat.id, Z.shiftr_nonneg. lia.
Qed.

Lemma draw_length n : forall x, length (draw n x).1 = n.
Proof. induction n as [|n IH]; intros x; cbn; [done|]. by rewrite IH. Qed.

#[export] Instance Lcg_ok : VectorGenOk Z.
Proof.
  split.
  - done.
  - done.
  - intros [x n] Hn. cbn in *. unfold len. rewrite draw_length. lia.
Qed.

(** The index of three inserts, and the order in which [Search] visits
    its buckets. *)
Lemma index3_built : built gc_growslice 0 4 3 ops3 index3.
Proof. vm_compute. reflexivity. Qed.

Lemma index3_pages : len (pages (storage index3)) <= MaxPages.
Proof. vm_compute. discriminate. Qed.

Lemma lkeys3_order vec :
  is_Val (SortFrom (GetBitVector (hyperplane index3) vec)
            (lkeys_of index3 (map_to_list (lookup index3)).*1)) ->
  search_order index3 vec (lkeys3 vec).
Proof.
  intros [l Hl]. unfold search_order, lkeys3. rewrite Hl. cbn.
  by apply SortFrom_sorted_from.
Qed.

(** *** One bucket, whatever the hashing strategy and the generator *)

Section OneBucket.
Context {F : Type} `{DistanceOk F} {vectorgen : VectorGen F}.
Variable growslice : Z -> Z.

(** Inserts of one vector whose bucket exists go to the chain of that
    bucket and leave the lookup table as it is. *)
Lemma run_one_bucket (vec : list F) k h ids : forall idx : Indexer F,
  Uint32 (GetBitVector (hyperplane idx) vec) = Val k ->
  lookup idx !! k = Some h ->
  run growslice (map (fun i => (i, vec)) ids) idx =
  (s' ← Storage_Adds growslice ids h (storage idx);
   mret (mkIndexer (seed idx) (bitsize idx) (vecsize idx) (hyperplane idx)
           s' (lookup idx))).
Proof.
  induction ids as [|i ids IH]; intros idx Hk Hh; cbn [map run Storage_Adds].
  - by destruct idx.
  - unfold Indexer_Add. rewrite Hk. cbn. rewrite Hh. cbn.
    destruct (Storage_Add growslice i h (storage idx)) as [[pn s']|f]; [|done]. cbn.
    by rewrite IH.
Qed.

(** The first insert of a vector makes its bucket. *)
Lemma Indexer_Add_new_bucket itemid (vec : list F) k (idx : Indexer F) :
  Uint32 (GetBitVector (hyperplane idx) vec) = Val k ->
  lookup idx !! k = None ->
  Indexer_Add growslice itemid vec idx =
  ('(pageno, s) ← allocatePage growslice (storage idx);
   '(_, s') ← Storage_Add growslice itemid pageno s;
   mret (mkIndexer (seed idx) (bitsize idx) (vecsize idx) (hyperplane idx)
           s' (<[k := pageno]> (lookup idx)))).
Proof.
  intros Hk Hnone. unfold Indexer_Add. rewrite Hk. cbn. rewrite Hnone. cbn.
  by destruct (allocatePage growslice (storage idx)) as [[pageno s]|f].
Qed.

(** On an index with the one bucket of the query, [Search] drains that
    bucket. *)
Lemma Search_one_bucket (vec : list F) k h limit (idx : Indexer F) :
  len (hyperplane idx) = bitsize idx -> bitsize idx <= 32 ->
  Uint32 (GetBitVector (hyperplane idx) vec) = Val k ->
  lookup idx = {[k := h]} ->
  0 <= limit -> 8 * limit <= maxAlloc ->
  Search vec limit idx = drain (storage idx) h [].
Proof.
  intros Hhp Hbits Hk Hlookup Hlimit Hfits. unfold Search.
  rewrite Hlookup, map_to_list_singleton. cbn.
  rewrite Search_sorted_in_range by done.
  cbn [Search_loop].
  assert (wf_bits (bitsize idx) (GetBitVector (hyperplane idx) vec)) as Hwf.
  { rewrite <- Hhp. apply GetBitVector_wf. }
  rewrite (FromUint32_of_Uint32 _ _ _ Hwf Hbits Hk).
  rewrite (Hamming_self _ (wf_len _ _ Hwf)). cbn.
  rewrite Hk. cbn. rewrite Hlookup, lookup_singleton_eq. cbn.
  by destruct (drain (storage idx) h []).
Qed.

(** On an index with one bucket, [Dump] reports the chain of that
    bucket. *)
Lemma Dump_one_bucket k h (idx : Indexer F) :
  uint32 k = k ->
  lookup idx = {[k := h]} ->
  Dump idx = (line ← Dump_line idx k; mret ([line], (dump_nitems line + 0, 1))).
Proof.
  intros Hk Hlookup. unfold Dump. rewrite Hlookup, map_to_list_singleton. cbn.
  by destruct (Dump_line idx k).
Qed.

End OneBucket.

Section LostLink.
Context {F : Type} `{DistanceOk F} {vectorgen : VectorGen F}.

(** [n >= 1] inserts of one vector into a new index: one bucket at page 0,
    holding the storage of [one_bucket_storage]. *)
Lemma run_same_vec seed bitsize vecsize (vec : list F) (n : nat) s :
  1 <= bitsize <= 32 ->
  one_bucket_storage (S n) = Val s ->
  exists k hp,
    (idx0 ← NewIndexer seed bitsize vecsize;
     run gc_growslice (same_vec (S n) vec) idx0)
    = Val (mkIndexer seed bitsize vecsize hp s {[k := 0]}) /\
    len hp = bitsize /\
    Uint32 (GetBitVector hp vec) = Val k.
Proof.
  intros Hb Hs. rewrite NewIndexer_spec by lia. cbn.
  set (hp := init_hyperplane (Z.to_nat bitsize) (NewRandomVectorGen seed vecsize)).
  assert (len hp = bitsize) as Hhp.
  { unfold hp, len. rewrite init_hyperplane_length. lia. }
  destruct (Uint32_wf bitsize (GetBitVector hp vec)) as [k Hk];
    [rewrite <- Hhp; apply GetBitVector_wf|lia|].
  exists k, hp. split; [|done].
  unfold same_vec. cbn [seq map run].
  rewrite (Indexer_Add_new_bucket gc_growslice _ _ k) by done. cbn.
  unfold one_bucket_storage in Hs. cbn [seq map Storage_Adds] in Hs.
  change (allocatePage gc_growslice zeroStorage) with
    (Val (0, mkStorage [] [Page_Init zeroPage] 1 [[]])) in *.
  cbn in Hs |- *.
  match type of Hs with
  | context [Storage_Add ?g ?i ?h ?s0] =>
      destruct (Storage_Add g i h s0) as [[pn s1]|f]; [|discriminate]
  end. cbn in Hs |- *.
  replace (map (fun i : nat => (Z.of_nat i, vec)) (seq 2 n))
    with (map (fun i => (i, vec)) (map Z.of_nat (seq 2 n))) by by rewrite map_map.
  rewrite (run_one_bucket gc_growslice vec k 0);
    [|done|cbn; by rewrite lookup_insert_eq].
  cbn. rewrite Hs. cbn. by rewrite insert_empty.
Qed.

(** C3 (defect in [Storage.Add]).  Whatever the hashing strategy and the
    generator, after 1024 inserts of one vector with the identifiers 1
    to 1024 the search for that vector with limit 1 returns the
    identifiers 1 to 1023 and not 1024: the last insert found page 0
    full, [allocatePage] moved the pages to a larger array, and the link
    was written through the pointer into the array left behind, so the
    page that holds identifier 1024 is not on the chain of the bucket. *)
Theorem Search_misses_item_after_page_fills seed bitsize vecsize (vec : list F) :
  1 <= bitsize <= 32 ->
  (idx0 ← NewIndexer seed bitsize vecsize;
   idx ← run gc_growslice (same_vec 1024 vec) idx0;
   Search vec 1 idx) = Val (map Z.of_nat (seq 1 1023)).
Proof.
  intros Hb.
  destruct (run_same_vec seed bitsize vecsize vec 1023 storage1024 Hb)
    as (k & hp & Hrun & Hhp & Hk); [by vm_compute|].
  etrans; [symmetry; apply (res_bind_assoc _
             (fun idx0 => run gc_growslice (same_vec 1024 vec) idx0)
             (fun idx => Search vec 1 idx))|].
  rewrite Hrun. cbn.
  rewrite (Search_one_bucket vec k 0); [|done|cbn; lia|done|done|lia|by vm_compute].
  by vm_compute.
Qed.

(** C4 (defect in [Storage.Add]).  Whatever the hashing strategy and the
    generator, after 1025 inserts into one bucket [Dump] reports one
    page and 1023 items for the bucket, not two pages and 1025 items:
    the pages allocated by inserts 1024 and 1025 were never linked to
    page 0, since each link was written into the array that [append]
    had left behind. *)
Theorem Dump_loses_items_after_page_fills seed bitsize vecsize (vec : list F) :
  1 <= bitsize <= 32 ->
  exists k str,
    (idx0 ← NewIndexer seed bitsize vecsize;
     idx ← run gc_growslice (same_vec 1025 vec) idx0;
     Dump idx) = Val ([mkDumpLine k str [0] 1023], (1023, 1)).
Proof.
  intros Hb.
  destruct (run_same_vec seed bitsize vecsize vec 1024 storage1025 Hb)
    as (k & hp & Hrun & Hhp & Hk); [by vm_compute|].
  assert (wf_bits bitsize (GetBitVector hp vec)) as Hwf
    by (rewrite <- Hhp; apply GetBitVector_wf).
  destruct (String_Val (GetBitVector hp vec) (wf_len _ _ Hwf)) as [str Hstr].
  exists k, str.
  etrans; [symmetry; apply (res_bind_assoc _
             (fun idx0 => run gc_growslice (same_vec 1025 vec) idx0)
             (fun idx => Dump idx))|].
  rewrite Hrun. cbn.
  rewrite (Dump_one_bucket k 0); [|by eapply Uint32_range|done].
  unfold Dump_line. cbn [lsh.lookup lsh.bitsize lsh.storage].
  rewrite (Uint32_range _ _ Hk), lookup_singleton_eq. cbn [default].
  rewrite (FromUint32_of_Uint32 _ _ _ Hwf (proj2 Hb) Hk), Hstr.
  match goal with
  | |- context [for_pages ?fuel ?s ?it ?body ?a] =>
      assert (for_pages fuel s it body a = Val (1023, [0])) as -> by by vm_compute
  end.
  done.
Qed.

End LostLink.

Lemma Search_misses_item_after_page_fills_witness :
  (idx0 ← NewIndexer 0 4 3;
   idx ← run gc_growslice (same_vec 1024 [1; 1; 1]) idx0;
   Search [1; 1; 1] 1 idx) = Val (map Z.of_nat (seq 1 1023)).
Proof. apply (Search_misses_item_after_page_fills (F := Z) 0 4 3 [1; 1; 1]). lia. Defined.

Lemma Dump_loses_items_after_page_fills_witness :
  exists k str,
    (idx0 ← NewIndexer 0 4 3;
     idx ← run gc_growslice (same_vec 1025 [1; 1; 1]) idx0;
     Dump idx) = Val ([mkDumpLine k str [0] 1023], (1023, 1)).
Proof. apply (Dump_loses_items_after_page_fills (F := Z) 0 4 3 [1; 1; 1]). lia. Defined.

(** The pages after 1024 and after 1025 inserts into one bucket: page 0 is
    full and ends its chain, the later pages hold one identifier each,
    and the links to them are in the arrays left behind.  Insert 1026
    allocates page 3 within the capacity 4, so that [append] leaves the
    pages where they are: this time page 0 is linked, to page 3, and
    [Dump] reports the pages 0 and 3 with 1024 items. *)
Lemma pages_after_page_fills :
  (idx ← after 1026 [1; 1; 1];
   d ← Dump idx;
   mret (page_shape (pages (storage idx)), pages_cap (storage idx), d))
  = Val ([(1023, 3); (1, -1); (1, -1); (1, -1)], 4,
         ([mkDumpLine 0 "0000" [0; 3] 1024], (1024, 1))) /\
  (idx ← after 1024 [1; 1; 1];
   mret (page_shape (pages (storage idx)),
         page_items (storage idx) 1,
         map page_shape (abandoned (storage idx))))
  = Val ([(1023, -1); (1, -1)], [1024], [[]; [(1023, 1)]]) /\
  (idx ← after 1025 [1; 1; 1];
   mret (page_shape (pages (storage idx)),
         map page_shape (abandoned (storage idx))))
  = Val ([(1023, -1); (1, -1); (1, -1)],
         [[]; [(1023, 1)]; [(1023, 2); (1, -1)]]) /\
  (idx ← after 1025 [1; 1; 1]; Dump idx)
  = Val ([mkDumpLine 0 "0000" [0] 1023], (1023, 1)).
Proof. split_and!; vm_compute; reflexivity. Qed.

(** C2 as stated fails for a negative limit: the search panics when it
    makes the result slice, whatever the order of the buckets, where
    the specification has it drain buckets and return them. *)
Lemma Search_negative_limit_faults :
  built gc_growslice 0 4 3 ops3 index3 /\
  Search [1; 1; 1] (-1) index3 = Fault MakeOutOfRange /\
  (forall lkeys, Search_sorted lkeys index3 [1; 1; 1] (-1) = Fault MakeOutOfRange) /\
  ~ (forall limit, drains_whole_tiers index3 [1; 1; 1] limit (lkeys3 [1; 1; 1])).
Proof.
  split_and!.
  - apply index3_built.
  - vm_compute. reflexivity.
  - intros lkeys. by apply Search_sorted_negative.
  - intros Hall. destruct (Hall (-1)) as (ks & bs & ds & n & _ & _ & _ & _ & _ & _ & Hs & _).
    rewrite Search_sorted_negative in Hs by lia. discriminate.
Qed.

Lemma Search_drains_whole_tiers_witness :
  built gc_growslice 0 4 3 ops3 index3 /\
  search_order index3 [1; 1; 1] (lkeys3 [1; 1; 1]) /\
  drains_whole_tiers index3 [1; 1; 1] 1 (lkeys3 [1; 1; 1]).
Proof.
  assert (search_order index3 [1; 1; 1] (lkeys3 [1; 1; 1])) as Horder.
  { apply lkeys3_order. eexists. vm_compute. reflexivity. }
  split_and!; [apply index3_built|exact Horder|].
  apply (Search_drains_whole_tiers gc_growslice 0 4 3 ops3 index3 [1; 1; 1] 1
           (lkeys3 [1; 1; 1]) index3_built index3_pages Horder);
    [lia|unfold maxAlloc; lia].
Defined.

(** C5 as stated fails for a negative limit: on the index without buckets
    the search panics when it makes the result slice, where the
    specification has it return the empty sequence regardless of the
    limit. *)
Lemma Search_empty_index_negative_limit_faults :
  built gc_growslice 0 4 3 [] index0 /\
  lookup index0 = ∅ /\
  Search [1; 1; 1] (-1) index0 = Fault MakeOutOfRange /\
  Search [1; 1; 1] 0 index0 = Val [] /\
  ~ (forall limit, returns_limit_or_all index0 [1; 1; 1] limit []).
Proof.
  split_and!; [by vm_compute|by vm_compute|by vm_compute|by vm_compute|].
  intros Hall. destruct (Hall (-1)) as (ks & bs & r & _ & _ & Hs & _).
  rewrite Search_sorted_negative in Hs by lia. discriminate.
Qed.

Lemma Search_returns_limit_or_all_witness :
  built gc_growslice 0 4 3 ops3 index3 /\
  search_order index3 [1; -1; 1] (lkeys3 [1; -1; 1]) /\
  returns_limit_or_all index3 [1; -1; 1] 2 (lkeys3 [1; -1; 1]).
Proof.
  assert (search_order index3 [1; -1; 1] (lkeys3 [1; -1; 1])) as Horder.
  { apply lkeys3_order. eexists. vm_compute. reflexivity. }
  split_and!; [apply index3_built|exact Horder|].
  apply (Search_returns_limit_or_all gc_growslice 0 4 3 ops3 index3 [1; -1; 1] 2
           (lkeys3 [1; -1; 1]) index3_built index3_pages Horder);
    [lia|unfold maxAlloc; lia].
Defined.

(** C9 as stated fails for a negative [bitsize]: it is not above 32, and
    construction panics when it makes the slice of hyperplanes. *)
Lemma NewIndexer_negative_bitsize_faults :
  NewIndexer (F := Z) 0 (-1) 3 = Fault MakeOutOfRange /\
  ~ (forall bitsize, bitsize <= 32 ->
       exists idx : Indexer Z, NewIndexer 0 bitsize 3 = Val idx).
Proof.
  split; [reflexivity|].
  intros Hall. destruct (Hall (-1)) as [idx Hidx]; [lia|]. discriminate Hidx.
Qed.

Lemma NewIndexer_builds_witness :
  NewIndexer (F := Z) 0 33 3 = Fault ConfigPanic /\
  exists idx : Indexer Z,
    NewIndexer 0 4 3 = Val idx /\
    4 = bitsize idx /\
    len (hyperplane idx) = 4 /\
    hyperplane idx = init_hyperplane (Z.to_nat 4) (NewRandomVectorGen 0 3) /\
    (0 <= 3 -> Forall (fun v => len v = 3) (hyperplane idx)) /\
    storage idx = zeroStorage /\
    pages (storage idx) = [] /\
    lookup idx = ∅.
Proof.
  split.
  - apply (NewIndexer_builds (F := Z) 0 33 3). lia.
  - apply (NewIndexer_builds (F := Z) 0 4 3). lia.
Defined.


End scenarios.

(** * Further properties of the bit vector *)

(** ** Writes to a bit *)

Module bitvector_laws.
Import bitvector bitvector_facts.

(** ** Single bits *)

Lemma shiftr3_div i : Z.shiftr i 3 = i / 8.
Proof. by rewrite Z.shiftr_div_pow2 by lia. Qed.

Lemma mod8_bound i : 0 <= i mod 8 < 8.
Proof. apply Z.mod_pos_bound. lia. Qed.

(** The bits of a byte after [|= mask] and after [&= ^mask]. *)
Lemma testbit_set_mask b i t :
  0 <= t -> Z.testbit (Z.lor b (mask i)) t = Z.testbit b t || (i mod 8 =? t).
Proof.
  intros Ht. pose proof (mod8_bound i).
  by rewrite mask_eq, Z.lor_spec, Z.pow2_bits_eqb by lia.
Qed.

Lemma testbit_clear_mask b i t :
  0 <= t ->
  Z.testbit (Z.land b (uint8 (Z.lxor (mask i) 255))) t =
  Z.testbit b t && (t <? 8) && negb (i mod 8 =? t).
Proof.
  intros Ht. pose proof (mod8_bound i).
  rewrite mask_eq, Z.land_spec. unfold uint8.
  rewrite Z.testbit_mod_pow2 by lia.
  rewrite Z.lxor_spec, Z.pow2_bits_eqb by lia.
  change 255 with (Z.ones 8). rewrite Z.testbit_ones by lia.
  destruct (Z.leb_spec 0 t); [|lia].
  destruct (Z.ltb_spec t 8), (Z.eqb_spec (i mod 8) t), (Z.testbit b t); done.
Qed.

Lemma testbit_mask_land b i :
  (Z.land b (mask i) =? 0) = negb (Z.testbit b (i mod 8)).
Proof.
  pose proof (mod8_bound i). rewrite mask_eq.
  destruct (Z.testbit b (i mod 8)) eqn:Hb; cbn.
  - apply Z.eqb_neq. intros H0.
    assert (Z.testbit (Z.land b (2 ^ (i mod 8))) (i mod 8) = false) as Hf
      by (rewrite H0; apply Z.bits_0).
    rewrite Z.land_spec, Z.pow2_bits_eqb, Z.eqb_refl, Hb in Hf by lia. done.
  - apply Z.eqb_eq. apply Z.bits_inj'. intros t Ht.
    rewrite Z.land_spec, Z.pow2_bits_eqb, Z.bits_0 by lia.
    destruct (Z.eqb_spec (i mod 8) t) as [<-|]; [by rewrite Hb|by rewrite andb_false_r].
Qed.

(** [Get] reads bit [i mod 8] of byte [i / 8]. *)
Lemma Get_testbit i bv :
  Get i bv = b ← index (bits bv) (i / 8); mret (Z.testbit b (i mod 8)).
Proof.
  unfold Get. rewrite shiftr3_div.
  destruct (index (bits bv) (i / 8)) as [b|f]; [|done]. cbn.
  by rewrite testbit_mask_land, negb_involutive.
Qed.

Lemma insert_as_alter {A : Type} (f : A -> A) (l : list A) (n : nat) (a : A) :
  l !! n = Some a -> <[n := f a]> l = alter f n l.
Proof.
  intros Ha. apply list_eq. intros k. rewrite list_lookup_alter.
  destruct (decide (n = k)) as [<-|Hne].
  - rewrite list_lookup_insert_eq by (by eapply lookup_lt_Some). by rewrite Ha.
  - by rewrite list_lookup_insert_ne.
Qed.

(** [Set] and [Unset] rewrite one byte in place. *)
Lemma Set_update i bv : Set_ i bv = update_byte (fun b => Z.lor b (mask i)) i bv.
Proof.
  unfold Set_, update_byte. rewrite shiftr3_div. case_decide as Hr.
  - destruct (index_in_range (bits bv) _ Hr) as (b & Hb & ->). cbn.
    rewrite assign_in_range by done. cbn. do 2 f_equal.
    exact (insert_as_alter (fun b => Z.lor b (mask i)) _ _ _ Hb).
  - by rewrite index_out_of_range.
Qed.

Lemma Unset_update i bv :
  Unset i bv = update_byte (fun b => Z.land b (uint8 (Z.lxor (mask i) 255))) i bv.
Proof.
  unfold Unset, update_byte. rewrite shiftr3_div. case_decide as Hr.
  - destruct (index_in_range (bits bv) _ Hr) as (b & Hb & ->). cbn.
    rewrite assign_in_range by done. cbn. do 2 f_equal.
    exact (insert_as_alter (fun b => Z.land b (uint8 (Z.lxor (mask i) 255))) _ _ _ Hb).
  - by rewrite index_out_of_range.
Qed.

Lemma update_byte_Val f i bv bv' :
  update_byte f i bv = Val bv' ->
  0 <= i / 8 < len (bits bv) /\
  bv' = mkBitVector (size bv) (alter f (Z.to_nat (i / 8)) (bits bv)).
Proof. unfold update_byte. case_decide; [|done]. by intros [= <-]. Qed.

(** A byte rewritten in a way that keeps bit [j mod 8] keeps bit [j]. *)
Lemma Get_update_byte f i j bv bv' :
  0 <= j ->
  (i / 8 = j / 8 -> forall b, Z.testbit (f b) (j mod 8) = Z.testbit b (j mod 8)) ->
  update_byte f i bv = Val bv' -> Get j bv' = Get j bv.
Proof.
  intros Hj Hf Hupd. apply update_byte_Val in Hupd as [Hr ->].
  rewrite !Get_testbit. cbn [bits]. unfold index.
  assert (0 <= j / 8) by (apply Z.div_pos; lia).
  destruct (Z.ltb_spec (j / 8) 0); [lia|].
  rewrite list_lookup_alter. case_decide as Heq; [|done].
  apply Z2Nat.inj in Heq; [|lia|lia].
  rewrite Heq. destruct (bits bv !! Z.to_nat (j / 8)) as [b|]; [|done]. cbn.
  by rewrite Hf.
Qed.

Lemma bit_of_index i j : 0 <= i -> 0 <= j -> i <> j -> i / 8 = j / 8 -> i mod 8 <> j mod 8.
Proof. intros. Z.div_mod_to_equations. lia. Qed.

(** X1.  [New(n)] panics for a negative [n].  For [n >= 0] whose buffer of
    [n / 8] bytes (rounded down) is within the bound [maxAlloc] of the
    allocator it returns a vector of size [n] with that buffer: every
    bit below [8 * (n / 8)] reads false and can be set and unset, and
    [Get], [Set] and [Unset] panic with an index out of range for every
    bit from there on, the last [n mod 8] bits of the vector included.
    (Beyond the bound the run-time system refuses the buffer; these
    sizes are left out.) *)
Theorem New_bits_domain n i :
  (n < 0 -> New n = Fault MakeOutOfRange) /\
  (0 <= n -> n / 8 <= maxAlloc -> 0 <= i ->
   exists bv,
     New n = Val bv /\ size bv = n /\ len (bits bv) = n / 8 /\
     (i < 8 * (n / 8) ->
      Get i bv = Val false /\ is_Val (Set_ i bv) /\ is_Val (Unset i bv)) /\
     (8 * (n / 8) <= i ->
      Get i bv = Fault IndexOutOfRange /\
      Set_ i bv = Fault IndexOutOfRange /\
      Unset i bv = Fault IndexOutOfRange)).
Proof.
  split.
  - intros Hn. unfold New, make. rewrite shiftr3_div.
    destruct (Z.ltb_spec (n / 8) 0); [done|]. Z.div_mod_to_equations. lia.
  - intros Hn _ Hi.
    assert (0 <= n / 8) as Hn8 by (apply Z.div_pos; lia).
    unfold New, make. rewrite shiftr3_div.
    destruct (Z.ltb_spec (n / 8) 0); [lia|]. cbn.
    eexists. split; [done|]. cbn [size bits].
    assert (len (replicate (Z.to_nat (n / 8)) 0) = n / 8) as Hlen.
    { unfold len. rewrite length_replicate. lia. }
    split_and!; [done|done| |].
    + intros Hlt.
      assert (0 <= i / 8 < n / 8) as Hr by (Z.div_mod_to_equations; lia).
      split_and!.
      * rewrite Get_testbit. cbn [bits].
        destruct (index_in_range (replicate (Z.to_nat (n / 8)) 0) (i / 8))
          as (b & Hb & ->); [lia|].
        apply lookup_replicate in Hb as [-> _]. cbn. by rewrite Z.bits_0.
      * rewrite Set_update. unfold update_byte. cbn [bits].
        rewrite decide_True by lia. by eexists.
      * rewrite Unset_update. unfold update_byte. cbn [bits].
        rewrite decide_True by lia. by eexists.
    + intros Hge.
      assert (~ (0 <= i / 8 < n / 8)) as Hr by (Z.div_mod_to_equations; lia).
      split_and!.
      * rewrite Get_testbit. cbn [bits]. rewrite index_out_of_range; [done|lia].
      * rewrite Set_update. unfold update_byte. cbn [bits].
        rewrite decide_False; [done|lia].
      * rewrite Unset_update. unfold update_byte. cbn [bits].
        rewrite decide_False; [done|lia].
Qed.

(** X2.  [Set(i)] and [Unset(i)] change bit [i] only: every other bit
    reads as before, and the size and the length of the buffer stay. *)
Theorem Set_Unset_keep_other_bits i j bv bv' :
  0 <= i -> 0 <= j -> i <> j ->
  Set_ i bv = Val bv' \/ Unset i bv = Val bv' ->
  Get j bv' = Get j bv /\ size bv' = size bv /\ len (bits bv') = len (bits bv).
Proof.
  intros Hi Hj Hij Hop.
  assert (exists f, update_byte f i bv = Val bv' /\
            (i / 8 = j / 8 ->
             forall b, Z.testbit (f b) (j mod 8) = Z.testbit b (j mod 8)))
    as (f & Hupd & Hf).
  { pose proof (mod8_bound j). destruct Hop as [Hset|Hunset].
    - rewrite Set_update in Hset. eexists. split; [exact Hset|].
      intros Heq b. cbn beta. rewrite testbit_set_mask by lia.
      pose proof (bit_of_index i j Hi Hj Hij Heq).
      destruct (Z.eqb_spec (i mod 8) (j mod 8)); [lia|]. by rewrite orb_false_r.
    - rewrite Unset_update in Hunset. eexists. split; [exact Hunset|].
      intros Heq b. cbn beta. rewrite testbit_clear_mask by lia.
      pose proof (bit_of_index i j Hi Hj Hij Heq).
      destruct (Z.eqb_spec (i mod 8) (j mod 8)); [lia|].
      destruct (Z.ltb_spec (j mod 8) 8); [|lia]. by rewrite !andb_true_r. }
  split; [by eapply Get_update_byte|].
  apply update_byte_Val in Hupd as [_ ->]. cbn. unfold len. by rewrite length_alter.
Qed.

Lemma Set_Unset_keep_other_bits_witness :
  Get 9 (mkBitVector 16 [4; 3]) = Get 9 (mkBitVector 16 [0; 3]) /\
  size (mkBitVector 16 [4; 3]) = size (mkBitVector 16 [0; 3]) /\
  len (bits (mkBitVector 16 [4; 3])) = len (bits (mkBitVector 16 [0; 3])).
Proof.
  apply (Set_Unset_keep_other_bits 2 9 (mkBitVector 16 [0; 3]) (mkBitVector 16 [4; 3]));
    [lia|lia|lia|left; reflexivity].
Defined.

(** *** Writes to the same bit and to different bits *)

Lemma update_byte_twice f g i bv :
  (a ← update_byte g i bv; update_byte f i a) = update_byte (f ∘ g) i bv.
Proof.
  unfold update_byte. case_decide as Hr; [|done]. cbn.
  unfold len. rewrite length_alter. fold (len (bits bv)).
  rewrite decide_True by done. by rewrite list_alter_alter_eq.
Qed.

Lemma update_byte_ext f g i bv :
  (forall b, is_byte b -> f b = g b) -> Forall is_byte (bits bv) ->
  update_byte f i bv = update_byte g i bv.
Proof.
  intros Hfg Hbytes. unfold update_byte. case_decide; [|done].
  do 2 f_equal. apply list_alter_ext; [|done].
  intros b Hb. apply Hfg. by eapply Forall_lookup_1.
Qed.

Lemma update_byte_commute f g i j bv :
  (i / 8 = j / 8 -> forall b, g (f b) = f (g b)) ->
  (a ← update_byte f i bv; update_byte g j a) =
  (a ← update_byte g j bv; update_byte f i a).
Proof.
  intros Hfg. unfold update_byte.
  destruct (decide (0 <= i / 8 < len (bits bv))) as [Hi|Hi],
           (decide (0 <= j / 8 < len (bits bv))) as [Hj|Hj]; cbn;
    unfold len; rewrite ?length_alter; fold (len (bits bv));
    rewrite ?(decide_True _ _ Hi), ?(decide_True _ _ Hj),
            ?(decide_False _ _ Hi), ?(decide_False _ _ Hj); try done.
  do 2 f_equal.
  destruct (decide (i / 8 = j / 8)) as [Heq|Hne].
  - rewrite Heq, !list_alter_alter_eq. apply list_alter_ext; [|done].
    intros b _. cbn. by apply Hfg.
  - apply list_alter_alter_ne. lia.
Qed.

Ltac byte_bits :=
  apply Z.bits_inj'; intros t Ht;
  rewrite ?testbit_set_mask, ?testbit_clear_mask by lia;
  rewrite ?testbit_set_mask, ?testbit_clear_mask by lia.

(** X3.  On one bit the last write wins: setting or clearing a bit twice
    is setting or clearing it once, [Unset] after [Set] is [Unset], and
    [Set] after [Unset] is [Set]; a write that panics panics in both. *)
Theorem Set_Unset_last_write_wins i bv :
  Forall is_byte (bits bv) ->
  (a ← Set_ i bv; Set_ i a) = Set_ i bv /\
  (a ← Unset i bv; Unset i a) = Unset i bv /\
  (a ← Set_ i bv; Unset i a) = Unset i bv /\
  (a ← Unset i bv; Set_ i a) = Set_ i bv.
Proof.
  intros Hbytes.
  assert (forall f g h,
            (forall b, is_byte b -> f (g b) = h b) ->
            (a ← update_byte g i bv; update_byte f i a) = update_byte h i bv) as Hlast.
  { intros f g h Hfg. rewrite update_byte_twice. by apply update_byte_ext. }
  split_and!.
  - rewrite (Set_update i bv).
    etrans; [|apply (Hlast (fun b => Z.lor b (mask i)) (fun b => Z.lor b (mask i)))].
    + destruct (update_byte _ i bv); [|done]. cbn. apply Set_update.
    + intros b _. byte_bits. by destruct (Z.testbit b t), (i mod 8 =? t).
  - rewrite (Unset_update i bv).
    etrans; [|apply (Hlast (fun b => Z.land b (uint8 (Z.lxor (mask i) 255)))
                           (fun b => Z.land b (uint8 (Z.lxor (mask i) 255))))].
    + destruct (update_byte _ i bv); [|done]. cbn. apply Unset_update.
    + intros b _. byte_bits.
      by destruct (Z.testbit b t), (t <? 8), (i mod 8 =? t).
  - rewrite (Set_update i bv), (Unset_update i bv).
    etrans; [|apply (Hlast (fun b => Z.land b (uint8 (Z.lxor (mask i) 255)))
                           (fun b => Z.lor b (mask i)))].
    + destruct (update_byte _ i bv); [|done]. cbn. apply Unset_update.
    + intros b _. byte_bits.
      by destruct (Z.testbit b t), (t <? 8), (i mod 8 =? t).
  - rewrite (Set_update i bv), (Unset_update i bv).
    etrans; [|apply (Hlast (fun b => Z.lor b (mask i))
                           (fun b => Z.land b (uint8 (Z.lxor (mask i) 255))))].
    + destruct (update_byte _ i bv); [|done]. cbn. apply Set_update.
    + intros b Hb. byte_bits.
      destruct (Z.ltb_spec t 8) as [Hlt|Hge].
      * by destruct (Z.testbit b t), (i mod 8 =? t).
      * assert (Z.testbit b t = false) as ->; [|done].
        unfold is_byte in Hb. apply Z.bits_above_log2; [lia|].
        destruct (decide (b = 0)) as [->|Hb0]; [cbn; lia|].
        apply Z.log2_lt_pow2; [lia|].
        apply Z.lt_le_trans with (2 ^ 8); [lia|]. apply Z.pow_le_mono_r; lia.
Qed.

Lemma Set_Unset_last_write_wins_witness :
  (a ← Set_ 10 (mkBitVector 16 [1; 2]); Set_ 10 a) = Set_ 10 (mkBitVector 16 [1; 2]) /\
  (a ← Unset 10 (mkBitVector 16 [1; 2]); Unset 10 a) = Unset 10 (mkBitVector 16 [1; 2]) /\
  (a ← Set_ 10 (mkBitVector 16 [1; 2]); Unset 10 a) = Unset 10 (mkBitVector 16 [1; 2]) /\
  (a ← Unset 10 (mkBitVector 16 [1; 2]); Set_ 10 a) = Set_ 10 (mkBitVector 16 [1; 2]).
Proof.
  apply (Set_Unset_last_write_wins 10 (mkBitVector 16 [1; 2])).
  repeat constructor; unfold is_byte; lia.
Defined.

(** X4.  Writes to different bits commute: two [Set]s, a [Set] and an
    [Unset], and two [Unset]s give the same vector, or the same panic, in
    either order. *)
Theorem Set_Unset_commute i j bv :
  0 <= i -> 0 <= j -> i <> j ->
  (a ← Set_ i bv; Set_ j a) = (a ← Set_ j bv; Set_ i a) /\
  (a ← Set_ i bv; Unset j a) = (a ← Unset j bv; Set_ i a) /\
  (a ← Unset i bv; Unset j a) = (a ← Unset j bv; Unset i a).
Proof.
  intros Hi Hj Hij.
  pose proof (fun Heq => bit_of_index i j Hi Hj Hij Heq) as Hbit.
  split_and!.
  - etrans; [|etrans; [apply (update_byte_commute (fun b => Z.lor b (mask i))
                                (fun b => Z.lor b (mask j)) i j bv)|]].
    + rewrite (Set_update i bv). destruct (update_byte _ i bv); [|done]. cbn.
      apply Set_update.
    + intros Heq b. byte_bits.
      by destruct (Z.testbit b t), (i mod 8 =? t), (j mod 8 =? t).
    + rewrite (Set_update j bv). destruct (update_byte _ j bv); [|done]. cbn.
      symmetry. apply Set_update.
  - etrans; [|etrans; [apply (update_byte_commute (fun b => Z.lor b (mask i))
                                (fun b => Z.land b (uint8 (Z.lxor (mask j) 255))) i j bv)|]].
    + rewrite (Set_update i bv). destruct (update_byte _ i bv); [|done]. cbn.
      apply Unset_update.
    + intros Heq b. specialize (Hbit Heq). pose proof (mod8_bound i). byte_bits.
      destruct (Z.eqb_spec (i mod 8) t) as [Hit|], (Z.eqb_spec (j mod 8) t) as [Hjt|];
        try lia.
      by destruct (Z.testbit b t), (t <? 8).
    + rewrite (Unset_update j bv). destruct (update_byte _ j bv); [|done]. cbn.
      symmetry. apply Set_update.
  - etrans; [|etrans; [apply (update_byte_commute
                                (fun b => Z.land b (uint8 (Z.lxor (mask i) 255)))
                                (fun b => Z.land b (uint8 (Z.lxor (mask j) 255))) i j bv)|]].
    + rewrite (Unset_update i bv). destruct (update_byte _ i bv); [|done]. cbn.
      apply Unset_update.
    + intros Heq b. byte_bits.
      by destruct (Z.testbit b t), (t <? 8), (i mod 8 =? t), (j mod 8 =? t).
    + rewrite (Unset_update j bv). destruct (update_byte _ j bv); [|done]. cbn.
      symmetry. apply Unset_update.
Qed.

Lemma Set_Unset_commute_witness :
  (a ← Set_ 3 (mkBitVector 16 [1; 2]); Set_ 12 a)
    = (a ← Set_ 12 (mkBitVector 16 [1; 2]); Set_ 3 a) /\
  (a ← Set_ 3 (mkBitVector 16 [1; 2]); Unset 12 a)
    = (a ← Unset 12 (mkBitVector 16 [1; 2]); Set_ 3 a) /\
  (a ← Unset 3 (mkBitVector 16 [1; 2]); Unset 12 a)
    = (a ← Unset 12 (mkBitVector 16 [1; 2]); Unset 3 a).
Proof. apply (Set_Unset_commute 3 12 (mkBitVector 16 [1; 2])); lia. Defined.

End bitvector_laws.

(** ** [Scan] and [String] *)

Module bitvector_text.
Import bitvector bitvector_facts bitvector_laws.

(** ** Parsing *)

Lemma scan_char_cases c :
  scan_char c = true -> c = "1"%char \/ c = "0"%char \/ c = " "%char.
Proof.
  unfold scan_char. intros Hc.
  destruct (Ascii.eqb_spec c "1"); [by left|].
  destruct (Ascii.eqb_spec c "0"); [by right; left|].
  destruct (Ascii.eqb_spec c " "); [by right; right|done].
Qed.

(** The first loop of [Scan] fails exactly on a character that is not
    accepted. *)
Lemma Scan_chars_None s : forall acc,
  Scan_chars s acc = None <->
  exists c, c ∈ list_ascii_of_string s /\ scan_char c = false.
Proof.
  induction s as [|c s IH]; intros acc; cbn [Scan_chars list_ascii_of_string].
  - split; [done|]. intros (c & Hc & _). by apply elem_of_nil in Hc.
  - assert ((exists c', c' ∈ c :: list_ascii_of_string s /\ scan_char c' = false) <->
            scan_char c = false \/
            exists c', c' ∈ list_ascii_of_string s /\ scan_char c' = false) as ->.
    { split.
      - intros (c' & Hin & Hc'). apply elem_of_cons in Hin as [->|Hin]; [by left|].
        right. by exists c'.
      - intros [Hc|(c' & Hin & Hc')].
        + exists c. split; [apply elem_of_cons; by left|done].
        + exists c'. split; [apply elem_of_cons; by right|done]. }
    unfold scan_char.
    destruct (Ascii.eqb c "1"); [rewrite IH; cbn; split; [by right|by intros [?|?]]|].
    destruct (Ascii.eqb c "0"); [rewrite IH; cbn; split; [by right|by intros [?|?]]|].
    destruct (Ascii.eqb c " "); [rewrite IH; cbn; split; [by right|by intros [?|?]]|].
    cbn. split; [by left|done].
Qed.

Lemma Scan_None s : Scan s = Val None <-> Scan_chars s [] = None.
Proof.
  unfold Scan. destruct (Scan_chars s []) as [bs|]; [|done].
  split; [|done]. intros Hs.
  destruct (New (len bs)) as [bv|]; [|done]. cbn in Hs.
  destruct (Scan_set bs 0 bv); done.
Qed.

(** X5.  [Scan] returns its parse error exactly when the string holds a
    character other than ['0'], ['1'] and the space, wherever it stands
    and whatever else the string holds; [MustScan] panics with that
    error for the same strings. *)
Theorem Scan_rejects_other_characters s :
  (Scan s = Val None <->
   exists c, c ∈ list_ascii_of_string s /\ scan_char c = false) /\
  (MustScan s = PanicError <->
   exists c, c ∈ list_ascii_of_string s /\ scan_char c = false).
Proof.
  split.
  - by rewrite Scan_None, Scan_chars_None.
  - rewrite <- (Scan_chars_None s []), <- Scan_None. unfold MustScan.
    destruct (Scan s) as [[bv|]|f]; split; done.
Qed.

(** *** What [Scan] returns *)

Lemma Scan_chars_Some s acc :
  Forall (fun c => scan_char c = true) (list_ascii_of_string s) ->
  exists bs, Scan_chars s acc = Some (acc ++ bs) /\ content s = bitchar <$> bs.
Proof.
  intros Hvalid. destruct (Scan_chars s acc) as [bs|] eqn:Hs.
  - apply Scan_chars_content in Hs as (bs0 & -> & Hc). by exists bs0.
  - apply Scan_chars_None in Hs as (c & Hin & Hc).
    rewrite Forall_forall in Hvalid. specialize (Hvalid c Hin). congruence.
Qed.

Lemma Scan_set_app bs1 bs2 : forall i bv,
  Scan_set (bs1 ++ bs2) i bv =
  bv' ← Scan_set bs1 i bv; Scan_set bs2 (i + len bs1) bv'.
Proof.
  induction bs1 as [|b bs1 IH]; intros i bv; cbn [app Scan_set].
  - cbn. by rewrite Z.add_0_r.
  - destruct (if b then Set_ i bv else mret bv) as [bv1|f]; [|done]. cbn.
    rewrite IH. unfold len. cbn [length].
    by replace (i + 1 + Z.of_nat (length bs1)) with (i + Z.of_nat (S (length bs1))) by lia.
Qed.

Lemma Scan_set_clear bs : forall i bv,
  Forall (fun b => b = false) bs -> Scan_set bs i bv = Val bv.
Proof.
  induction bs as [|b bs IH]; intros i bv Hbs; cbn [Scan_set]; [done|].
  apply Forall_cons in Hbs as [-> Hbs]. cbn. by apply IH.
Qed.

Lemma Scan_set_outside bs : forall i bv,
  0 <= i -> 8 * len (bits bv) <= i -> ~ Forall (fun b => b = false) bs ->
  Scan_set bs i bv = Fault IndexOutOfRange.
Proof.
  induction bs as [|b bs IH]; intros i bv Hi Hout Hbs; cbn [Scan_set].
  - by destruct Hbs.
  - destruct b.
    + rewrite Set_update. unfold update_byte. rewrite decide_False; [done|].
      Z.div_mod_to_equations. lia.
    + cbn. apply IH; [lia|lia|]. intros Hall. apply Hbs. by constructor.
Qed.

Lemma bitchar_zero b : bitchar b = "0"%char <-> b = false.
Proof. by destruct b. Qed.

Lemma bitchar_one b : Ascii.eqb (bitchar b) "1" = b.
Proof. by destruct b. Qed.

(** X6.  On a string of accepted characters [Scan] makes a vector whose
    size is the number [n] of ['0'] and ['1'] characters, with a buffer
    of [n / 8] bytes (rounded down): it returns the vector, whose bit
    [j] below [8 * (n / 8)] is set exactly when character [j] is ['1'],
    if the characters from position [8 * (n / 8)] on are all ['0'], and
    panics with an index out of range if one of them is ['1']. *)
Theorem Scan_result s :
  Forall (fun c => scan_char c = true) (list_ascii_of_string s) ->
  let cs := content s in
  let n := len cs in
  (Forall (fun c => c = "0"%char) (drop (Z.to_nat (8 * (n / 8))) cs) ->
   exists bv,
     Scan s = Val (Some bv) /\ size bv = n /\ len (bits bv) = n / 8 /\
     Forall is_byte (bits bv) /\
     forall (j : nat) c, Z.of_nat j < 8 * (n / 8) -> cs !! j = Some c ->
       Get (Z.of_nat j) bv = Val (Ascii.eqb c "1")) /\
  (~ Forall (fun c => c = "0"%char) (drop (Z.to_nat (8 * (n / 8))) cs) ->
   Scan s = Fault IndexOutOfRange).
Proof.
  intros Hvalid cs n.
  destruct (Scan_chars_Some s [] Hvalid) as (bs & Hs & Hc). cbn [app] in Hs.
  assert (n = len bs) as Hn by (unfold n, cs, len; by rewrite Hc, length_fmap).
  assert (0 <= n / 8) as Hn8 by (apply Z.div_pos; unfold len in Hn; lia).
  set (k := Z.to_nat (8 * (n / 8))).
  assert (k <= length bs)%nat as Hk.
  { unfold k. unfold len in Hn. Z.div_mod_to_equations. lia. }
  assert (Forall (fun c => c = "0"%char) (drop k cs) <->
          Forall (fun b => b = false) (drop k bs)) as Hzero.
  { unfold cs. rewrite Hc, <- fmap_drop, Forall_fmap.
    apply Forall_proper; [|done]. intros b. cbn. apply bitchar_zero. }
  unfold Scan. rewrite Hs. unfold New, make. rewrite shiftr3_div, <- Hn.
  destruct (Z.ltb_spec (n / 8) 0); [lia|]. cbn.
  set (bv0 := mkBitVector n (replicate (Z.to_nat (n / 8)) 0)).
  assert (length (bits bv0) = Z.to_nat (n / 8)) as Hlen0
    by (cbn; by rewrite length_replicate).
  assert (Scan_set bs 0 bv0 =
          bv' ← Scan_set (take k bs) 0 bv0; Scan_set (drop k bs) (Z.of_nat k) bv')
    as ->.
  { rewrite <- (take_drop k bs) at 1. rewrite Scan_set_app.
    unfold len. rewrite length_take. by replace (0 + Z.of_nat (k `min` length bs))
      with (Z.of_nat k) by lia. }
  destruct (Scan_set_spec (take k bs) 0 bv0) as (bv1 & Hscan & Hsize & Hlen & _ & Hbits).
  { rewrite length_take, Hlen0. unfold k. lia. }
  { intros j Hj. rewrite Get_testbit. cbn [bits bv0].
    destruct (index_in_range (replicate (Z.to_nat (n / 8)) 0) (Z.of_nat j / 8))
      as (b & Hb & ->).
    { unfold len. rewrite length_replicate. rewrite Hlen0 in Hj.
      Z.div_mod_to_equations. lia. }
    apply lookup_replicate in Hb as [-> _]. cbn. by rewrite Z.bits_0. }
  change (Z.of_nat 0) with 0 in Hscan. rewrite Hscan. cbn.
  assert (len (bits bv1) = n / 8) as Hlen1 by (unfold len; rewrite Hlen, Hlen0; lia).
  split.
  - intros Hall. apply Hzero in Hall.
    rewrite Scan_set_clear by done. cbn. exists bv1.
    split_and!; [done|by rewrite Hsize|done| |].
    + eapply Scan_set_bytes; [|exact Hscan]. cbn.
      apply Forall_replicate. unfold is_byte. lia.
    + intros j c Hj Hcj. unfold cs in Hcj. rewrite Hc, list_lookup_fmap in Hcj.
      destruct (bs !! j) as [b|] eqn:Hb; [|done]. injection Hcj as <-.
      rewrite bitchar_one. specialize (Hbits j b). cbn in Hbits. apply Hbits.
      rewrite lookup_take_lt; [done|]. unfold k. lia.
  - intros Hnot. rewrite Scan_set_outside; [done|lia| |].
    + rewrite Hlen1. unfold k. lia.
    + by rewrite <- Hzero.
Qed.

Lemma Scan_result_witness :
  (Forall (fun c => c = "0"%char) (drop 8 (content "1011 0001 10")) ->
   exists bv,
     Scan "1011 0001 10" = Val (Some bv) /\ size bv = 10 /\ len (bits bv) = 1 /\
     Forall is_byte (bits bv) /\
     forall (j : nat) c, Z.of_nat j < 8 -> content "1011 0001 10" !! j = Some c ->
       Get (Z.of_nat j) bv = Val (Ascii.eqb c "1")) /\
  (~ Forall (fun c => c = "0"%char) (drop 8 (content "1011 0001 10")) ->
   Scan "1011 0001 10" = Fault IndexOutOfRange).
Proof.
  apply (Scan_result "1011 0001 10"). repeat constructor.
Defined.

(** *** Rendering and parsing back *)

Lemma Scan_chars_append s1 s2 : forall acc,
  Scan_chars (String.append s1 s2) acc =
  match Scan_chars s1 acc with
  | Some a => Scan_chars s2 a
  | None => None
  end.
Proof.
  induction s1 as [|c s1 IH]; intros acc; [done|].
  change (String.append (String c s1) s2) with (String c (String.append s1 s2)).
  cbn [Scan_chars].
  destruct (Ascii.eqb c "1"); [apply IH|].
  destruct (Ascii.eqb c "0"); [apply IH|].
  destruct (Ascii.eqb c " "); [apply IH|done].
Qed.

(** What [String] writes is read back by the first loop of [Scan] as the
    bits it has rendered. *)
Lemma String_loop_Scan_chars gs : forall (k : nat) bv buf,
  (forall (j : nat) g, gs !! j = Some g -> Get (Z.of_nat (k + j)) bv = Val g) ->
  exists str, String_loop (length gs) (Z.of_nat k) bv buf = Val str /\
              forall acc a, Scan_chars buf acc = Some a ->
                            Scan_chars str acc = Some (a ++ gs).
Proof.
  induction gs as [|g gs IH]; intros k bv buf Hget; cbn [length String_loop].
  - exists buf. split; [done|]. intros acc a Ha. by rewrite app_nil_r.
  - pose proof (Hget 0%nat g eq_refl) as Hg. rewrite Nat.add_0_r in Hg.
    rewrite Hg. cbn. replace (Z.of_nat k + 1) with (Z.of_nat (S k)) by lia.
    match goal with
    | |- context [String_loop _ _ _ ?buf2] =>
        destruct (IH (S k) bv buf2) as (str & -> & Hread)
    end.
    { intros j g' Hj. replace (S k + j)%nat with (k + S j)%nat by lia. by apply Hget. }
    exists str. split; [done|]. intros acc a Ha.
    rewrite (Hread acc (a ++ [g])); [by rewrite <- app_assoc|].
    destruct ((0 <? Z.of_nat k) && (Z.of_nat k mod 8 =? 0)), g;
      rewrite !Scan_chars_append, ?Ha; cbn; by rewrite ?Ha.
Qed.

(** The bits that [Get] reads from a buffer that holds them. *)
Lemma Gets_exist (n : nat) : forall bv,
  (n <= 8 * length (bits bv))%nat ->
  exists gs, length gs = n /\
             forall (j : nat) g, gs !! j = Some g -> Get (Z.of_nat j) bv = Val g.
Proof.
  induction n as [|n IH]; intros bv Hn.
  - exists []. split; [done|]. intros j g Hj. by rewrite lookup_nil in Hj.
  - destruct (IH bv) as (gs & Hlen & Hgs); [lia|].
    destruct (index_in_range (bits bv) (Z.of_nat n / 8)) as (b & _ & Hb).
    { unfold len. Z.div_mod_to_equations. lia. }
    exists (gs ++ [Z.testbit b (Z.of_nat n mod 8)]). split.
    + rewrite length_app. cbn. lia.
    + intros j g Hj. apply lookup_app_Some in Hj as [Hj|[Hge Hj]]; [by apply Hgs|].
      apply list_lookup_singleton_Some in Hj as [Hj <-].
      assert (j = n) as -> by lia. rewrite Get_testbit, Hb. done.
Qed.

(** Two buffers of bytes that [Get] cannot tell apart are the same. *)
Lemma bits_ext xs ys sx sy :
  Forall is_byte xs -> Forall is_byte ys -> length xs = length ys ->
  (forall j : nat, (j < 8 * length xs)%nat ->
     Get (Z.of_nat j) (mkBitVector sx xs) = Get (Z.of_nat j) (mkBitVector sy ys)) ->
  xs = ys.
Proof.
  intros Hxs Hys Hlen Hget. apply list_eq_same_length with (length xs); [done|done|].
  intros q x y Hq Hx Hy.
  pose proof (Forall_lookup_1 _ _ _ _ Hxs Hx) as Hbx.
  pose proof (Forall_lookup_1 _ _ _ _ Hys Hy) as Hby.
  apply Z.bits_inj'. intros t Ht.
  destruct (Z.ltb_spec t 8) as [Hlt|Hge].
  - specialize (Hget (8 * q + Z.to_nat t)%nat). rewrite !Get_testbit in Hget.
    cbn [bits] in Hget.
    replace (Z.of_nat (8 * q + Z.to_nat t) / 8) with (Z.of_nat q) in Hget
      by (Z.div_mod_to_equations; lia).
    replace (Z.of_nat (8 * q + Z.to_nat t) mod 8) with t in Hget
      by (Z.div_mod_to_equations; lia).
    rewrite (index_lookup _ _ _ Hx), (index_lookup _ _ _ Hy) in Hget. cbn in Hget.
    assert (Val (Z.testbit x t) = Val (Z.testbit y t)) as [= ->]; [|done].
    apply Hget. lia.
  - unfold is_byte in *.
    assert (forall b, 0 <= b < 256 -> Z.testbit b t = false) as Hhigh.
    { intros b Hb. destruct (decide (b = 0)) as [->|Hb0]; [apply Z.bits_0|].
      apply Z.bits_above_log2; [lia|]. apply Z.log2_lt_pow2; [lia|].
      apply Z.lt_le_trans with (2 ^ 8); [lia|]. apply Z.pow_le_mono_r; lia. }
    by rewrite !Hhigh.
Qed.

(** X7.  For a vector whose size is eight times the length of its buffer,
    [String] returns, and [Scan] of the string it returns gives the
    vector back: the same size and the same bytes. *)
Theorem String_then_Scan bv :
  size bv = 8 * len (bits bv) -> Forall is_byte (bits bv) ->
  exists str, String_ bv = Val str /\ Scan str = Val (Some bv).
Proof.
  intros Hsize Hbytes. unfold len in Hsize.
  destruct (Gets_exist (8 * length (bits bv)) bv) as (gs & Hlen & Hgs); [lia|].
  destruct (String_loop_Scan_chars gs 0 bv EmptyString) as (str & Hstr & Hread).
  { intros j g Hj. by apply Hgs. }
  exists str. split.
  { unfold String_. rewrite Hsize. rewrite <- Hstr, Hlen. f_equal. lia. }
  specialize (Hread [] [] eq_refl). cbn [app] in Hread.
  unfold Scan. rewrite Hread. unfold New, make. rewrite shiftr3_div.
  assert (len gs / 8 = Z.of_nat (length (bits bv))) as Hbytes8.
  { unfold len. rewrite Hlen. Z.div_mod_to_equations. lia. }
  rewrite Hbytes8. destruct (Z.ltb_spec (Z.of_nat (length (bits bv))) 0); [lia|]. cbn.
  rewrite Nat2Z.id.
  set (bv0 := mkBitVector (len gs) (replicate (length (bits bv)) 0)).
  destruct (Scan_set_spec gs 0 bv0) as (bv' & Hscan & Hsize' & Hlen' & _ & Hbits).
  { cbn. rewrite length_replicate. lia. }
  { intros j Hj. rewrite Get_testbit. cbn [bits bv0].
    destruct (index_in_range (replicate (length (bits bv)) 0) (Z.of_nat j / 8))
      as (b & Hb & ->).
    { unfold len. rewrite length_replicate. cbn in Hj. rewrite length_replicate in Hj.
      Z.div_mod_to_equations. lia. }
    apply lookup_replicate in Hb as [-> _]. cbn. by rewrite Z.bits_0. }
  change (Z.of_nat 0) with 0 in Hscan. rewrite Hscan. cbn. do 2 f_equal.
  cbn in Hsize', Hlen'. rewrite length_replicate in Hlen'.
  destruct bv' as [size' bits'], bv as [size0 bits0]. cbn in *.
  f_equal; [unfold len in Hsize'; lia|].
  apply (bits_ext bits' bits0 size' size0); [|done|done|].
  - eapply (Scan_set_bytes gs 0 bv0 (mkBitVector size' bits')); [|done].
    cbn. apply Forall_replicate. unfold is_byte. lia.
  - intros j Hj. rewrite Hlen' in Hj.
    destruct (lookup_lt_is_Some_2 gs j) as [g Hg]; [lia|].
    rewrite (Hbits j g Hg). symmetry. by apply Hgs.
Qed.

Lemma String_then_Scan_witness :
  exists str, String_ (mkBitVector 16 [141; 130]) = Val str /\
              Scan str = Val (Some (mkBitVector 16 [141; 130])).
Proof.
  apply (String_then_Scan (mkBitVector 16 [141; 130])); [reflexivity|].
  repeat constructor; unfold is_byte; lia.
Defined.

End bitvector_text.

(** ** The rendering and the integer value *)

Module bitvector_values.
Import bitvector bitvector_facts bitvector_laws bitvector_text.

(** ** The layout of [String] *)

Lemma length_append s1 s2 :
  String.length (String.append s1 s2) = (String.length s1 + String.length s2)%nat.
Proof.
  induction s1 as [|c s1 IH]; [done|].
  change (String.append (String c s1) s2) with (String c (String.append s1 s2)).
  cbn [String.length]. by rewrite IH.
Qed.

(** The separators written by the iterations [k .. k + n - 1]: one before
    each multiple of 8 other than 0. *)
Lemma String_loop_length n : forall (k : nat) bv buf str,
  String_loop n (Z.of_nat k) bv buf = Val str ->
  Z.of_nat (String.length str) =
  Z.of_nat (String.length buf) + Z.of_nat n +
  ((Z.max (Z.of_nat k + Z.of_nat n) 1 - 1) / 8 - (Z.max (Z.of_nat k) 1 - 1) / 8).
Proof.
  induction n as [|n IH]; intros k bv buf str Hstr; cbn [String_loop] in Hstr.
  - injection Hstr as <-. replace (Z.of_nat k + Z.of_nat 0) with (Z.of_nat k) by lia. lia.
  - destruct (Get (Z.of_nat k) bv) as [g|]; [|done]. cbn in Hstr.
    replace (Z.of_nat k + 1) with (Z.of_nat (S k)) in Hstr by lia.
    apply IH in Hstr. rewrite Hstr. clear Hstr IH.
    assert (Z.of_nat (String.length
              (if g then String.append
                 (if (0 <? Z.of_nat k) && (Z.of_nat k mod 8 =? 0)
                  then String.append buf " " else buf) "1"
               else String.append
                 (if (0 <? Z.of_nat k) && (Z.of_nat k mod 8 =? 0)
                  then String.append buf " " else buf) "0")) =
            Z.of_nat (String.length buf) + 1 +
            (if (0 <? Z.of_nat k) && (Z.of_nat k mod 8 =? 0) then 1 else 0)) as ->.
    { destruct g, ((0 <? Z.of_nat k) && (Z.of_nat k mod 8 =? 0));
        rewrite !length_append; cbn [String.length]; lia. }
    destruct (Z.ltb_spec 0 (Z.of_nat k)), (Z.eqb_spec (Z.of_nat k mod 8) 0);
      cbn [andb]; Z.div_mod_to_equations; lia.
Qed.

Lemma string_append_assoc s1 s2 s3 :
  String.append (String.append s1 s2) s3 = String.append s1 (String.append s2 s3).
Proof.
  induction s1 as [|c s1 IH]; [done|].
  change (String.append (String c s1) s2) with (String c (String.append s1 s2)).
  change (String.append (String c (String.append s1 s2)) s3)
    with (String c (String.append (String.append s1 s2) s3)).
  by rewrite IH.
Qed.

(** The loop of [String] appends the rendering of the bits it reads. *)
Lemma String_loop_layout gs : forall (k : nat) bv buf,
  (forall (j : nat) g, gs !! j = Some g -> Get (Z.of_nat (k + j)) bv = Val g) ->
  String_loop (length gs) (Z.of_nat k) bv buf =
  Val (String.append buf (layout (Z.of_nat k) gs)).
Proof.
  induction gs as [|g gs IH]; intros k bv buf Hget; cbn [length String_loop layout].
  - f_equal. induction buf as [|c buf IHb]; [done|].
    change (String.append (String c buf) EmptyString)
      with (String c (String.append buf EmptyString)).
    by rewrite <- IHb.
  - pose proof (Hget 0%nat g eq_refl) as Hg. rewrite Nat.add_0_r in Hg.
    rewrite Hg. cbn [mbind res_mbind res_bind].
    replace (Z.of_nat k + 1) with (Z.of_nat (S k)) by lia.
    rewrite IH.
    2:{ intros j g' Hj. replace (S k + j)%nat with (k + S j)%nat by lia. by apply Hget. }
    f_equal. cbv zeta.
    destruct ((0 <? Z.of_nat k) && (Z.of_nat k mod 8 =? 0)), g;
      by rewrite !string_append_assoc.
Qed.

(** X8.  [String] panics when the buffer holds fewer than [size] bits.
    Otherwise it returns the rendering of the [size] bits of the
    vector: one character for each bit, in order, ['1'] for a bit that
    is set and ['0'] for one that is not, with one space before each bit
    whose index is a positive multiple of 8 and no other character:
    [size + (size - 1) / 8] characters in all, and none for a size that
    is not positive. *)
Theorem String_layout bv :
  (size bv <= 0 -> String_ bv = Val EmptyString) /\
  (1 <= size bv <= 8 * len (bits bv) ->
   exists gs,
     len gs = size bv /\
     (forall (j : nat) g, gs !! j = Some g -> Get (Z.of_nat j) bv = Val g) /\
     String_ bv = Val (layout 0 gs) /\
     Z.of_nat (String.length (layout 0 gs)) = size bv + (size bv - 1) / 8 /\
     content (layout 0 gs) = bitchar <$> gs) /\
  (0 <= size bv -> 8 * len (bits bv) < size bv ->
   String_ bv = Fault IndexOutOfRange).
Proof.
  split_and!.
  - intros Hs. unfold String_. by replace (Z.to_nat (size bv)) with 0%nat by lia.
  - intros Hs. unfold len in Hs.
    destruct (Gets_exist (Z.to_nat (size bv)) bv) as (gs & Hlen & Hgs); [lia|].
    assert (String_ bv = Val (layout 0 gs)) as Hstr.
    { unfold String_. rewrite <- Hlen. change 0 with (Z.of_nat 0).
      by rewrite (String_loop_layout gs 0 bv EmptyString). }
    exists gs. split_and!; [unfold len; lia|done|done| |].
    + assert (String_loop (Z.to_nat (size bv)) (Z.of_nat 0) bv EmptyString =
              Val (layout 0 gs)) as Hl by exact Hstr.
      apply String_loop_length in Hl. cbn [String.length] in Hl. rewrite Hl.
      Z.div_mod_to_equations. lia.
    + destruct (String_loop_content gs 0 bv EmptyString) as (str & Hstr' & Hc).
      { intros j g Hj. by apply Hgs. }
      assert (String_loop (length gs) (Z.of_nat 0) bv EmptyString =
              Val (layout 0 gs)) as Hl by (rewrite Hlen; exact Hstr).
      rewrite Hl in Hstr'. injection Hstr' as <-. by rewrite Hc.
  - intros Hs Hshort. unfold String_. change 0 with (Z.of_nat 0).
    apply String_loop_Fault; unfold len in Hshort; lia.
Qed.

(** ** [Uint64] *)

Lemma index_replicate_0 (m : nat) j :
  index (replicate m 0) j =
  if decide (0 <= j < Z.of_nat m) then Val 0 else Fault IndexOutOfRange.
Proof.
  case_decide as Hj.
  - destruct (index_in_range (replicate m 0) j) as (b & Hb & ->).
    { unfold len. rewrite length_replicate. lia. }
    by apply lookup_replicate in Hb as [-> _].
  - apply index_out_of_range. unfold len. by rewrite length_replicate.
Qed.

(** X9.  On a fresh vector of [n] bits, for [n >= 0] whose buffer of
    [n / 8] bytes is within the bound [maxAlloc] of the allocator,
    [Uint64] returns 0 when [n] is 8, 16, 24 or at least 32, and panics
    with an index out of range for every other [n]: the buffer made by
    [New] then holds fewer bytes than [Uint64] reads. *)
Theorem Uint64_of_New n :
  0 <= n -> n / 8 <= maxAlloc ->
  (x ← New n; Uint64 x) =
  if decide (n = 8 \/ n = 16 \/ n = 24 \/ 32 <= n) then Val 0
  else Fault IndexOutOfRange.
Proof.
  intros Hn _. assert (0 <= n / 8) as Hn8 by (apply Z.div_pos; lia).
  unfold New, make. rewrite shiftr3_div.
  destruct (Z.ltb_spec (n / 8) 0); [lia|]. cbn. unfold Uint64. cbn [size bits].
  rewrite !index_replicate_0.
  repeat match goal with
         | |- context [if ?c then _ else _] =>
             match c with
             | Z.leb ?a ?b => destruct (Z.leb_spec a b)
             end
         end;
    repeat case_decide; cbn; try done;
    exfalso; Z.div_mod_to_equations; lia.
Qed.

Lemma Uint64_of_New_witness :
  (x ← New 16; Uint64 x) = Val 0 /\
  (x ← New 20; Uint64 x) = Fault IndexOutOfRange.
Proof.
  split.
  - apply (Uint64_of_New 16); [lia|by vm_compute].
  - apply (Uint64_of_New 20); [lia|by vm_compute].
Defined.

(** *** The value of [Uint64] *)

Lemma byte_high_bits b t : is_byte b -> 8 <= t -> Z.testbit b t = false.
Proof.
  unfold is_byte. intros Hb Ht.
  rewrite <- (Z.mod_small b (2 ^ 8)) by lia. apply Z.mod_pow2_bits_high. lia.
Qed.

(** Four bytes packed with byte 0 least significant. *)
Lemma testbit_pack b0 b1 b2 b3 t :
  is_byte b0 -> is_byte b1 -> is_byte b2 -> is_byte b3 -> 0 <= t ->
  Z.testbit (Z.lor (Z.lor (Z.lor (Z.shiftl b3 24) (Z.shiftl b2 16)) (Z.shiftl b1 8)) b0) t =
  if t <? 8 then Z.testbit b0 t
  else if t <? 16 then Z.testbit b1 (t - 8)
  else if t <? 24 then Z.testbit b2 (t - 16)
  else Z.testbit b3 (t - 24).
Proof.
  intros H0 H1 H2 H3 Ht. rewrite !Z.lor_spec, !Z.shiftl_spec by lia.
  destruct (Z.ltb_spec t 8); [|destruct (Z.ltb_spec t 16); [|destruct (Z.ltb_spec t 24)]].
  - by rewrite !(Z.testbit_neg_r _ (t - _)) by lia.
  - rewrite !(Z.testbit_neg_r _ (t - 24)), !(Z.testbit_neg_r _ (t - 16)) by lia.
    rewrite (byte_high_bits b0) by (done || lia). cbn. by rewrite orb_false_r.
  - rewrite !(Z.testbit_neg_r _ (t - 24)) by lia.
    rewrite (byte_high_bits b0), (byte_high_bits b1) by (done || lia).
    cbn. by rewrite !orb_false_r.
  - rewrite (byte_high_bits b0), (byte_high_bits b1), (byte_high_bits b2)
      by (done || lia).
    by rewrite !orb_false_r.
Qed.

Lemma bounded_by_bits v n :
  0 <= n -> 0 <= v -> (forall t, n <= t -> Z.testbit v t = false) -> 0 <= v < 2 ^ n.
Proof.
  intros Hn Hv Hbits.
  assert (v = v mod 2 ^ n) as ->; [|apply Z.mod_pos_bound; by apply Z.pow_pos_nonneg].
  apply Z.bits_inj'. intros t Ht. rewrite Z.testbit_mod_pow2 by done.
  destruct (Z.ltb_spec t n); [done|]. by apply Hbits.
Qed.

Lemma is_byte_0 : is_byte 0.
Proof. unfold is_byte. lia. Qed.

Lemma pack_bytes b0 b1 b2 b3 k :
  is_byte b0 -> is_byte b1 -> is_byte b2 -> is_byte b3 ->
  1 <= k <= 4 ->
  (k < 4 -> b3 = 0) -> (k < 3 -> b2 = 0) -> (k < 2 -> b1 = 0) ->
  let v := Z.lor (Z.lor (Z.lor (Z.shiftl b3 24) (Z.shiftl b2 16)) (Z.shiftl b1 8)) b0 in
  0 <= v < 2 ^ (8 * k) /\ v < 2 ^ 32.
Proof.
  intros H0 H1 H2 H3 Hk Hz3 Hz2 Hz1 v.
  assert (0 <= v) as Hv.
  { unfold v, is_byte in *. rewrite !Z.lor_nonneg, !Z.shiftl_nonneg. lia. }
  assert (0 <= v < 2 ^ (8 * k)) as [Hb1 Hb2].
  { apply bounded_by_bits; [lia|done|]. intros t Ht. unfold v.
    rewrite testbit_pack by (done || lia).
    destruct (Z.ltb_spec t 8); [lia|].
    destruct (Z.ltb_spec t 16); [rewrite Hz1 by lia; apply Z.bits_0|].
    destruct (Z.ltb_spec t 24); [rewrite Hz2 by lia; apply Z.bits_0|].
    destruct (decide (k < 4)); [rewrite Hz3 by lia; apply Z.bits_0|].
    apply byte_high_bits; [done|lia]. }
  split_and!; [exact Hb1|exact Hb2|].
  apply Z.lt_le_trans with (2 ^ (8 * k)); [exact Hb2|]. apply Z.pow_le_mono_r; lia.
Qed.

(** The bit that [Get] reads from a buffer of at most four bytes. *)
Lemma Get_pack sz b0 b1 b2 b3 t :
  0 <= t < 32 ->
  Get t (mkBitVector sz [b0; b1; b2; b3]) =
  Val (if t <? 8 then Z.testbit b0 t
       else if t <? 16 then Z.testbit b1 (t - 8)
       else if t <? 24 then Z.testbit b2 (t - 16)
       else Z.testbit b3 (t - 24)).
Proof.
  intros Ht. rewrite Get_testbit. cbn [bits].
  assert (t / 8 = 0 \/ t / 8 = 1 \/ t / 8 = 2 \/ t / 8 = 3) as Hq
    by (Z.div_mod_to_equations; lia).
  pose proof (index_lookup [b0; b1; b2; b3] 0%nat b0 eq_refl) as H0.
  pose proof (index_lookup [b0; b1; b2; b3] 1%nat b1 eq_refl) as H1.
  pose proof (index_lookup [b0; b1; b2; b3] 2%nat b2 eq_refl) as H2.
  pose proof (index_lookup [b0; b1; b2; b3] 3%nat b3 eq_refl) as H3.
  change (Z.of_nat 0) with 0 in H0. change (Z.of_nat 1) with 1 in H1.
  change (Z.of_nat 2) with 2 in H2. change (Z.of_nat 3) with 3 in H3.
  destruct (Z.ltb_spec t 8); [|destruct (Z.ltb_spec t 16); [|destruct (Z.ltb_spec t 24)]];
    destruct Hq as [Hq|[Hq|[Hq|Hq]]];
    try (exfalso; Z.div_mod_to_equations; lia);
    rewrite Hq, ?H0, ?H1, ?H2, ?H3; cbn [mbind res_mbind res_bind mret res_ret];
    do 2 f_equal; Z.div_mod_to_equations; lia.
Qed.

(** [Get] on a bit that the first bytes hold does not depend on the rest
    of the buffer. *)
Lemma Get_prefix sz sz' (l1 l2 l2' : list Z) t :
  0 <= t < 8 * len l1 ->
  Get t (mkBitVector sz (l1 ++ l2)) = Get t (mkBitVector sz' (l1 ++ l2')).
Proof.
  intros Ht. rewrite !Get_testbit. cbn [bits]. unfold len in Ht.
  assert (0 <= t / 8 < len l1) as Hq by (unfold len; Z.div_mod_to_equations; lia).
  destruct (index_in_range l1 _ Hq) as (b & Hb & _).
  unfold index. destruct (Z.ltb_spec (t / 8) 0); [lia|].
  by rewrite !(lookup_app_l_Some _ _ _ _ Hb).
Qed.

(** X10.  [Uint64] reads one byte of a vector of at most 8 bits, two of a
    vector of at most 16, three of a vector of at most 24 and four of
    every larger one, and panics when the buffer holds fewer.  Otherwise
    its value is below [2 ^ (8 * k)] for the [k] bytes read, at most
    [2 ^ 32], and bit [t] of the value is bit [t] of the vector: the
    bits from 32 on are not part of it. *)
Theorem Uint64_reads_low_bytes bv :
  Forall is_byte (bits bv) ->
  let k := Uint64_bytes (size bv) in
  (k <= len (bits bv) ->
   exists v, Uint64 bv = Val v /\ 0 <= v < 2 ^ (8 * k) /\ v < 2 ^ 32 /\
             forall t, 0 <= t < 8 * k -> Get t bv = Val (Z.testbit v t)) /\
  (len (bits bv) < k -> Uint64 bv = Fault IndexOutOfRange).
Proof.
  intros Hbytes k.
  assert (forall b0 b1 b2 b3 rest,
            is_byte b0 -> is_byte b1 -> is_byte b2 -> is_byte b3 ->
            (k < 4 -> b3 = 0) -> (k < 3 -> b2 = 0) -> (k < 2 -> b1 = 0) ->
            1 <= k <= 4 ->
            take (Z.to_nat k) (bits bv) = take (Z.to_nat k) [b0; b1; b2; b3] ->
            bits bv = take (Z.to_nat k) (bits bv) ++ rest ->
            forall v,
            v = Z.lor (Z.lor (Z.lor (Z.shiftl b3 24) (Z.shiftl b2 16))
                         (Z.shiftl b1 8)) b0 ->
            0 <= v < 2 ^ (8 * k) /\ v < 2 ^ 32 /\
            forall t, 0 <= t < 8 * k -> Get t bv = Val (Z.testbit v t)) as Hvalue.
  { intros b0 b1 b2 b3 rest H0 H1 H2 H3 Hz3 Hz2 Hz1 Hk Htake Hrest v ->.
    destruct (pack_bytes b0 b1 b2 b3 k) as (Hb & H32); try done.
    split_and!; [apply Hb|apply Hb|apply H32|].
    intros t Ht. rewrite testbit_pack by (done || lia).
    rewrite <- (Get_pack (size bv)) by lia.
    destruct bv as [sz bs]. cbn [bits size] in *. rewrite Hrest, Htake.
    rewrite <- (take_drop (Z.to_nat k) [b0; b1; b2; b3]) at 2.
    apply Get_prefix. unfold len. rewrite length_take. cbn [length]. lia. }
  unfold Uint64. unfold Uint64_bytes in k. destruct bv as [sz bs]. cbn [size bits] in *.
  destruct (Z.leb_spec sz 8); [|destruct (Z.leb_spec sz 16); [|destruct (Z.leb_spec sz 24)]];
    subst k; unfold len;
    destruct bs as [|b0 [|b1 [|b2 [|b3 bs]]]]; cbn [length];
    repeat match goal with
           | H : Forall _ (_ :: _) |- _ => apply Forall_cons in H as [? H]
           end;
    (split; intros Hk; try lia; try done);
    (eexists; split; [reflexivity|]).
  - apply (Hvalue b0 0 0 0 []); first [done|apply is_byte_0|lia].
  - apply (Hvalue b0 0 0 0 [b1]); first [done|apply is_byte_0|lia].
  - apply (Hvalue b0 0 0 0 [b1; b2]); first [done|apply is_byte_0|lia].
  - apply (Hvalue b0 0 0 0 (b1 :: b2 :: b3 :: bs)); first [done|apply is_byte_0|lia].
  - apply (Hvalue b0 b1 0 0 []); first [done|apply is_byte_0|lia].
  - apply (Hvalue b0 b1 0 0 [b2]); first [done|apply is_byte_0|lia].
  - apply (Hvalue b0 b1 0 0 (b2 :: b3 :: bs)); first [done|apply is_byte_0|lia].
  - apply (Hvalue b0 b1 b2 0 []); first [done|apply is_byte_0|lia].
  - apply (Hvalue b0 b1 b2 0 (b3 :: bs)); first [done|apply is_byte_0|lia].
  - apply (Hvalue b0 b1 b2 b3 bs); first [done|apply is_byte_0|lia].
Qed.

Lemma Uint64_reads_low_bytes_witness :
  (Uint64_bytes 16 <= len [141; 130] ->
   exists v, Uint64 (mkBitVector 16 [141; 130]) = Val v /\
             0 <= v < 2 ^ (8 * Uint64_bytes 16) /\ v < 2 ^ 32 /\
             forall t, 0 <= t < 8 * Uint64_bytes 16 ->
                       Get t (mkBitVector 16 [141; 130]) = Val (Z.testbit v t)) /\
  (len [141; 130] < Uint64_bytes 16 ->
   Uint64 (mkBitVector 16 [141; 130]) = Fault IndexOutOfRange).
Proof.
  apply (Uint64_reads_low_bytes (mkBitVector 16 [141; 130])).
  repeat constructor; unfold is_byte; lia.
Defined.

End bitvector_values.

(** ** The order of a slice, and the distance *)

Module bitvector_order.
Import bitvector bitvector_facts bitvector_laws bitvector_text bitvector_values.

(** ** The sort interface of [BitVectorSlice] *)

Lemma lex_lt_irrefl xs : lex_lt xs xs = false.
Proof. induction xs as [|x xs IH]; [done|]. cbn. by rewrite Z.eqb_refl. Qed.

Lemma lex_lt_asym xs : forall ys, lex_lt xs ys = true -> lex_lt ys xs = false.
Proof.
  induction xs as [|x xs IH]; intros [|y ys]; cbn; try done.
  rewrite (Z.eqb_sym y x).
  destruct (Z.eqb_spec x y) as [->|Hne]; [apply IH|].
  intros Hlt. apply Z.ltb_lt in Hlt. apply Z.ltb_ge. lia.
Qed.

Lemma lex_lt_trans xs : forall ys zs,
  lex_lt xs ys = true -> lex_lt ys zs = true -> lex_lt xs zs = true.
Proof.
  induction xs as [|x xs IH]; intros [|y ys] [|z zs]; cbn; try done.
  destruct (Z.eqb_spec x y) as [->|Hxy].
  - destruct (Z.eqb_spec y z) as [->|Hyz]; [apply IH|done].
  - intros Hlt. apply Z.ltb_lt in Hlt.
    destruct (Z.eqb_spec y z) as [->|Hyz].
    + intros _. destruct (Z.eqb_spec x z); [lia|]. by apply Z.ltb_lt.
    + intros Hlt'. apply Z.ltb_lt in Hlt'.
      destruct (Z.eqb_spec x z); [lia|]. apply Z.ltb_lt. lia.
Qed.

Lemma lex_lt_total xs : forall ys,
  length xs = length ys -> lex_lt xs ys = false -> lex_lt ys xs = false -> xs = ys.
Proof.
  induction xs as [|x xs IH]; intros [|y ys]; cbn; try done.
  intros [= Hlen]. rewrite (Z.eqb_sym y x).
  destruct (Z.eqb_spec x y) as [->|Hne].
  - intros H1 H2. f_equal. by apply IH.
  - intros H1 H2. apply Z.ltb_ge in H1, H2. lia.
Qed.

(** The loop of [Less] compares the bytes in order. *)
Lemma Less_loop_lex s i j a b n : forall (k : nat),
  index s i = Val a -> index s j = Val b ->
  (k + n <= length (bits a))%nat -> (k + n <= length (bits b))%nat ->
  Less_loop n (Z.of_nat k) s i j =
  Val (lex_lt (take n (drop k (bits a))) (take n (drop k (bits b)))).
Proof.
  intros k Ha Hb. revert k.
  induction n as [|n IH]; intros k Hka Hkb; cbn [Less_loop]; [done|].
  rewrite Ha, Hb. cbn.
  destruct (lookup_lt_is_Some_2 (bits a) k) as [x Hx]; [lia|].
  destruct (lookup_lt_is_Some_2 (bits b) k) as [y Hy]; [lia|].
  rewrite (index_lookup _ _ _ Hx), (index_lookup _ _ _ Hy). cbn.
  rewrite (drop_S _ _ _ Hx), (drop_S _ _ _ Hy). cbn [take lex_lt].
  destruct (Z.eqb_spec x y); cbn; [|done].
  replace (Z.of_nat k + 1) with (Z.of_nat (S k)) by lia. apply IH; lia.
Qed.

Lemma Less_lex s n i j a b :
  Forall (fun v => ByteSize v = n /\ len (bits v) = n) s ->
  index s i = Val a -> index s j = Val b ->
  BitVectorSlice_Less s i j = Val (lex_lt (bits a) (bits b)).
Proof.
  intros Hs Ha Hb. unfold BitVectorSlice_Less. rewrite Ha. cbn.
  pose proof (index_Val _ _ _ Ha) as [_ Hia]. pose proof (index_Val _ _ _ Hb) as [_ Hjb].
  destruct (Forall_lookup_1 _ _ _ _ Hs Hia) as [Hna Hla].
  destruct (Forall_lookup_1 _ _ _ _ Hs Hjb) as [Hnb Hlb].
  unfold len in *. change 0 with (Z.of_nat 0).
  rewrite (Less_loop_lex s i j a b) by (done || lia).
  rewrite !drop_0, !take_ge by lia. done.
Qed.

Lemma Less_Val s n i j :
  Forall (fun v => ByteSize v = n /\ len (bits v) = n) s ->
  BitVectorSlice_Less s i j = Val true ->
  exists a b, index s i = Val a /\ index s j = Val b /\ lex_lt (bits a) (bits b) = true.
Proof.
  intros Hs Hless. pose proof Hless as Hless0. unfold BitVectorSlice_Less in Hless.
  apply res_bind_Val in Hless as (a & Ha & Hless).
  destruct (Z.to_nat (ByteSize a)) as [|m]; [done|]. cbn [Less_loop] in Hless.
  apply res_bind_Val in Hless as (a' & _ & Hless).
  apply res_bind_Val in Hless as (x & _ & Hless).
  apply res_bind_Val in Hless as (b & Hb & _).
  exists a, b. split_and!; [done|done|].
  rewrite (Less_lex s n i j a b Hs Ha Hb) in Hless0. by injection Hless0.
Qed.

(** X11.  On a slice of vectors that all hold [n] bytes for a byte size of
    [n], [Less] is the strict lexicographic order of the buffers, byte 0
    first: it returns for every two positions of the slice and panics
    for a first position outside it; it never holds between a position
    and itself; it is transitive; and of two positions exactly one is
    less than the other unless their buffers are equal. *)
Theorem Less_strict_total_order s n :
  Forall (fun v => ByteSize v = n /\ len (bits v) = n) s ->
  let lt i j := BitVectorSlice_Less s i j = Val true in
  (forall i j, ~ (0 <= i < len s) -> BitVectorSlice_Less s i j = Fault IndexOutOfRange) /\
  (forall i, ~ lt i i) /\
  (forall i j k, lt i j -> lt j k -> lt i k) /\
  (forall i j a b, index s i = Val a -> index s j = Val b ->
     BitVectorSlice_Less s i j = Val (lex_lt (bits a) (bits b)) /\
     ((lt i j /\ ~ lt j i /\ bits a <> bits b) \/
      (lt j i /\ ~ lt i j /\ bits a <> bits b) \/
      (~ lt i j /\ ~ lt j i /\ bits a = bits b))).
Proof.
  intros Hs lt. split_and!.
  - intros i j Hi. unfold BitVectorSlice_Less. by rewrite index_out_of_range.
  - intros i Hlt. apply (Less_Val s n) in Hlt as (a & b & Ha & Hb & Hlt); [|done].
    assert (a = b) as -> by congruence. by rewrite lex_lt_irrefl in Hlt.
  - intros i j k Hij Hjk.
    apply (Less_Val s n) in Hij as (a & b & Ha & Hb & Hab); [|done].
    apply (Less_Val s n) in Hjk as (b' & c & Hb' & Hc & Hbc); [|done].
    assert (b' = b) as -> by congruence.
    unfold lt. rewrite (Less_lex s n i k a c) by done.
    f_equal. by eapply lex_lt_trans.
  - intros i j a b Ha Hb. split; [by eapply Less_lex|].
    unfold lt. rewrite (Less_lex s n i j a b), (Less_lex s n j i b a) by done.
    pose proof (index_Val _ _ _ Ha) as [_ Hia].
    pose proof (index_Val _ _ _ Hb) as [_ Hjb].
    destruct (Forall_lookup_1 _ _ _ _ Hs Hia) as [_ Hla].
    destruct (Forall_lookup_1 _ _ _ _ Hs Hjb) as [_ Hlb].
    destruct (lex_lt (bits a) (bits b)) eqn:Hab.
    + left. pose proof (lex_lt_asym _ _ Hab) as Hba. rewrite Hba.
      split_and!; [done|done|]. intros Heq. rewrite Heq, lex_lt_irrefl in Hab. done.
    + destruct (lex_lt (bits b) (bits a)) eqn:Hba.
      * right; left. split_and!; [done|done|].
        intros Heq. rewrite Heq, lex_lt_irrefl in Hba. done.
      * right; right. split_and!; [done|done|].
        apply lex_lt_total; [|done|done]. unfold len in *. lia.
Qed.

Lemma Less_strict_total_order_witness :
  let s := [mkBitVector 16 [1; 2]; mkBitVector 16 [1; 3]] in
  let lt i j := BitVectorSlice_Less s i j = Val true in
  (forall i j, ~ (0 <= i < len s) -> BitVectorSlice_Less s i j = Fault IndexOutOfRange) /\
  (forall i, ~ lt i i) /\
  (forall i j k, lt i j -> lt j k -> lt i k) /\
  (forall i j a b, index s i = Val a -> index s j = Val b ->
     BitVectorSlice_Less s i j = Val (lex_lt (bits a) (bits b)) /\
     ((lt i j /\ ~ lt j i /\ bits a <> bits b) \/
      (lt j i /\ ~ lt i j /\ bits a <> bits b) \/
      (~ lt i j /\ ~ lt j i /\ bits a = bits b))).
Proof.
  apply (Less_strict_total_order [mkBitVector 16 [1; 2]; mkBitVector 16 [1; 3]] 2).
  by repeat constructor.
Defined.

Lemma index_lookup_Z {A : Type} (l : list A) i x :
  0 <= i -> l !! Z.to_nat i = Some x -> index l i = Val x.
Proof. intros Hi Hx. unfold index. destruct (Z.ltb_spec i 0); [lia|]. by rewrite Hx. Qed.

(** X12.  [Swap(i, j)] panics unless both positions are in the slice.
    Otherwise it exchanges the two elements and leaves the others and the
    length as they are: the result is a permutation of the slice, and
    swapping again gives the slice back. *)
Theorem Swap_exchanges s i j :
  (0 <= i < len s -> 0 <= j < len s ->
   exists s' a b,
     index s i = Val a /\ index s j = Val b /\
     BitVectorSlice_Swap s i j = Val s' /\
     BitVectorSlice_Len s' = BitVectorSlice_Len s /\
     index s' i = Val b /\ index s' j = Val a /\
     (forall k, k <> i -> k <> j -> index s' k = index s k) /\
     s' ≡ₚ s /\
     BitVectorSlice_Swap s' i j = Val s) /\
  (~ (0 <= i < len s /\ 0 <= j < len s) ->
   BitVectorSlice_Swap s i j = Fault IndexOutOfRange).
Proof.
  split.
  - intros Hi Hj.
    destruct (index_in_range s i Hi) as (a & Hia & Ha).
    destruct (index_in_range s j Hj) as (b & Hjb & Hb).
    assert (forall (l : list BitVector) x y,
              l !! Z.to_nat i = Some x -> l !! Z.to_nat j = Some y ->
              0 <= i < len l -> 0 <= j < len l ->
              BitVectorSlice_Swap l i j =
              Val (<[Z.to_nat j := x]> (<[Z.to_nat i := y]> l))) as Hswap.
    { intros l x y Hx Hy Hil Hjl. unfold BitVectorSlice_Swap.
      rewrite (index_lookup_Z _ _ _ (proj1 Hil) Hx), (index_lookup_Z _ _ _ (proj1 Hjl) Hy).
      cbn. rewrite assign_in_range by done. cbn.
      rewrite assign_in_range; [done|]. unfold len. by rewrite length_insert. }
    set (s' := <[Z.to_nat j := a]> (<[Z.to_nat i := b]> s)).
    assert (length s' = length s) as Hlen by (unfold s'; by rewrite !length_insert).
    assert (s' !! Z.to_nat j = Some a) as Hja'.
    { unfold s'. apply list_lookup_insert_eq. rewrite length_insert.
      by eapply lookup_lt_Some. }
    assert (s' !! Z.to_nat i = Some b) as Hib'.
    { unfold s'. destruct (decide (Z.to_nat i = Z.to_nat j)) as [Heq|Hne].
      - assert (Some a = Some b) as [= ->] by (rewrite <- Hia, <- Hjb; by rewrite Heq).
        rewrite Heq. apply list_lookup_insert_eq. rewrite length_insert.
        by eapply lookup_lt_Some.
      - rewrite list_lookup_insert_ne by done. apply list_lookup_insert_eq.
        by eapply lookup_lt_Some. }
    exists s', a, b. split_and!; try done.
    + by apply Hswap.
    + unfold BitVectorSlice_Len, len. by rewrite Hlen.
    + apply index_lookup_Z; [lia|done].
    + apply index_lookup_Z; [lia|done].
    + intros k Hki Hkj. unfold index. destruct (Z.ltb_spec k 0); [done|].
      unfold s'. rewrite !list_lookup_insert_ne by lia. done.
    + by apply Permutation_insert_swap.
    + rewrite (Hswap s' b a Hib' Hja');
        [|unfold len; rewrite Hlen; exact Hi|unfold len; rewrite Hlen; exact Hj].
      f_equal. apply list_eq. intros k.
      destruct (decide (k = Z.to_nat j)) as [->|Hkj].
      * rewrite list_lookup_insert_eq; [done|].
        rewrite length_insert, Hlen. by eapply lookup_lt_Some.
      * rewrite list_lookup_insert_ne by done.
        destruct (decide (k = Z.to_nat i)) as [->|Hki].
        -- rewrite list_lookup_insert_eq; [done|]. rewrite Hlen. by eapply lookup_lt_Some.
        -- rewrite list_lookup_insert_ne by done. unfold s'.
           by rewrite !list_lookup_insert_ne by done.
  - intros Hout. unfold BitVectorSlice_Swap.
    destruct (decide (0 <= j < len s)) as [Hj|Hj].
    + destruct (index_in_range s j Hj) as (b & _ & ->). cbn.
      rewrite (index_out_of_range s i) by tauto. reflexivity.
    + rewrite (index_out_of_range s j) by done. reflexivity.
Qed.

(** ** The Hamming distance as a metric *)

Lemma popcnt_bits b :
  popcnt b =
  Z.b2z (Z.testbit b 0) + (Z.b2z (Z.testbit b 1) + (Z.b2z (Z.testbit b 2) +
  (Z.b2z (Z.testbit b 3) + (Z.b2z (Z.testbit b 4) + (Z.b2z (Z.testbit b 5) +
  (Z.b2z (Z.testbit b 6) + (Z.b2z (Z.testbit b 7) + 0))))))).
Proof. reflexivity. Qed.

Lemma testbit_xor_byte a b t :
  0 <= t < 8 -> Z.testbit (uint8 (Z.lxor a b)) t = xorb (Z.testbit a t) (Z.testbit b t).
Proof.
  intros Ht. unfold uint8. rewrite Z.testbit_mod_pow2, Z.lxor_spec by lia.
  by destruct (Z.ltb_spec t 8); [|lia].
Qed.

Lemma b2z_range x : 0 <= Z.b2z x <= 1.
Proof. by destruct x. Qed.

Lemma popcnt_bounds b : 0 <= popcnt b <= 8.
Proof.
  rewrite popcnt_bits.
  pose proof (b2z_range (Z.testbit b 0)). pose proof (b2z_range (Z.testbit b 1)).
  pose proof (b2z_range (Z.testbit b 2)). pose proof (b2z_range (Z.testbit b 3)).
  pose proof (b2z_range (Z.testbit b 4)). pose proof (b2z_range (Z.testbit b 5)).
  pose proof (b2z_range (Z.testbit b 6)). pose proof (b2z_range (Z.testbit b 7)).
  lia.
Qed.

Lemma popcnt_xor_bounds a b : 0 <= popcnt (uint8 (Z.lxor a b)) <= 8.
Proof. apply popcnt_bounds. Qed.

Lemma popcnt_xor_zero a b :
  is_byte a -> is_byte b -> popcnt (uint8 (Z.lxor a b)) = 0 <-> a = b.
Proof.
  intros Ha Hb. split.
  - intros Hz. rewrite popcnt_bits in Hz.
    rewrite !testbit_xor_byte in Hz by lia.
    apply Z.bits_inj'. intros t Ht.
    destruct (Z.ltb_spec t 8) as [Hlt|Hge];
      [|by rewrite !byte_high_bits by (done || lia)].
    assert (t = 0 \/ t = 1 \/ t = 2 \/ t = 3 \/ t = 4 \/ t = 5 \/ t = 6 \/ t = 7)
      as Hcases by lia.
    repeat match type of Hz with
           | context [Z.b2z (xorb ?x ?y)] =>
               let e := fresh in
               assert (0 <= Z.b2z (xorb x y) <= 1) by (by destruct x, y);
               assert (Z.b2z (xorb x y) = 0 -> x = y) by (by destruct x, y);
               generalize dependent (Z.b2z (xorb x y)); intros e; intros
           end.
    destruct Hcases as [->|[->|[->|[->|[->|[->|[->| ->]]]]]]];
      match goal with
      | H : _ -> Z.testbit a ?k = Z.testbit b ?k |- Z.testbit a ?k = Z.testbit b ?k =>
          apply H; lia
      end.
  - intros ->. rewrite Z.lxor_nilpotent. reflexivity.
Qed.

Lemma popcnt_xor_triangle a b c :
  popcnt (uint8 (Z.lxor a c)) <=
  popcnt (uint8 (Z.lxor a b)) + popcnt (uint8 (Z.lxor b c)).
Proof.
  rewrite !popcnt_bits, !testbit_xor_byte by lia.
  assert (forall x y z, Z.b2z (xorb x z) <= Z.b2z (xorb x y) + Z.b2z (xorb y z)) as Hbit
    by (by intros [] [] []).
  pose proof (Hbit (Z.testbit a 0) (Z.testbit b 0) (Z.testbit c 0)).
  pose proof (Hbit (Z.testbit a 1) (Z.testbit b 1) (Z.testbit c 1)).
  pose proof (Hbit (Z.testbit a 2) (Z.testbit b 2) (Z.testbit c 2)).
  pose proof (Hbit (Z.testbit a 3) (Z.testbit b 3) (Z.testbit c 3)).
  pose proof (Hbit (Z.testbit a 4) (Z.testbit b 4) (Z.testbit c 4)).
  pose proof (Hbit (Z.testbit a 5) (Z.testbit b 5) (Z.testbit c 5)).
  pose proof (Hbit (Z.testbit a 6) (Z.testbit b 6) (Z.testbit c 6)).
  pose proof (Hbit (Z.testbit a 7) (Z.testbit b 7) (Z.testbit c 7)).
  lia.
Qed.

Lemma xor_popcount_bounds xs : forall ys,
  0 <= xor_popcount xs ys <= 8 * len xs.
Proof.
  unfold xor_popcount, len.
  induction xs as [|x xs IH]; intros [|y ys]; cbn [zip_with foldr length]; try lia.
  specialize (IH ys). pose proof (popcnt_xor_bounds x y). lia.
Qed.

Lemma xor_popcount_zero xs : forall ys,
  Forall is_byte xs -> Forall is_byte ys -> length xs = length ys ->
  xor_popcount xs ys = 0 <-> xs = ys.
Proof.
  induction xs as [|x xs IH]; intros [|y ys] Hxs Hys Hlen; try done.
  apply Forall_cons in Hxs as [Hx Hxs]. apply Forall_cons in Hys as [Hy Hys].
  injection Hlen as Hlen. specialize (IH ys Hxs Hys Hlen).
  unfold xor_popcount in *. cbn [zip_with foldr].
  pose proof (popcnt_xor_bounds x y). pose proof (xor_popcount_bounds xs ys) as Hb.
  unfold xor_popcount in Hb. split.
  - intros Hz. f_equal; [apply popcnt_xor_zero; [done|done|lia]|apply IH; lia].
  - intros [= -> ->]. pose proof (xor_popcount_self ys) as Hself.
    unfold xor_popcount in Hself. rewrite Hself, Z.lxor_nilpotent. reflexivity.
Qed.

Lemma xor_popcount_triangle xs : forall ys zs,
  length xs = length ys -> length ys = length zs ->
  xor_popcount xs zs <= xor_popcount xs ys + xor_popcount ys zs.
Proof.
  unfold xor_popcount.
  induction xs as [|x xs IH]; intros [|y ys] [|z zs] Hxy Hyz; cbn [zip_with foldr];
    try done.
  injection Hxy as Hxy. injection Hyz as Hyz. specialize (IH ys zs Hxy Hyz).
  pose proof (popcnt_xor_triangle x y z). lia.
Qed.

(** X13.  On vectors of the same size whose buffers hold [ByteSize] bytes
    the Hamming distance is a metric: it is defined, it lies between 0
    and eight times the byte size, it is 0 exactly for equal buffers, it
    is symmetric, and it satisfies the triangle inequality. *)
Theorem Hamming_is_metric n x y z :
  wf_bits n x -> wf_bits n y -> wf_bits n z ->
  exists dxy dyz dxz,
    Hamming x y = Val dxy /\ Hamming y z = Val dyz /\ Hamming x z = Val dxz /\
    0 <= dxy <= 8 * ByteSize x /\
    (dxy = 0 <-> bits x = bits y) /\
    Hamming y x = Val dxy /\
    dxz <= dxy + dyz.
Proof.
  intros [Hsx Hlx Hbx] [Hsy Hly Hby] [Hsz Hlz Hbz].
  assert (ByteSize y = ByteSize x /\ ByteSize z = ByteSize x) as [Hyx Hzx]
    by (unfold ByteSize; split; congruence).
  assert (forall u v, len (bits u) = ByteSize x -> len (bits v) = ByteSize x ->
            ByteSize u = ByteSize x ->
            Hamming u v = Val (xor_popcount (bits u) (bits v))) as Hdist.
  { intros u v Hu Hv Hbu. rewrite Hamming_spec. cbv zeta. unfold len in *.
    rewrite decide_True by lia. by rewrite !take_ge by lia. }
  exists (xor_popcount (bits x) (bits y)), (xor_popcount (bits y) (bits z)),
         (xor_popcount (bits x) (bits z)).
  unfold len in *.
  split_and!.
  - apply Hdist; unfold len; lia.
  - apply Hdist; unfold len; lia.
  - apply Hdist; unfold len; lia.
  - pose proof (xor_popcount_bounds (bits x) (bits y)). unfold len in *. lia.
  - pose proof (xor_popcount_bounds (bits x) (bits y)). unfold len in *. lia.
  - apply xor_popcount_zero; [done|done|lia].
  - rewrite xor_popcount_comm. apply Hdist; unfold len; lia.
  - apply xor_popcount_triangle; lia.
Qed.

Lemma Hamming_is_metric_witness :
  exists dxy dyz dxz,
    Hamming (mkBitVector 16 [1; 2]) (mkBitVector 16 [3; 2]) = Val dxy /\
    Hamming (mkBitVector 16 [3; 2]) (mkBitVector 16 [3; 7]) = Val dyz /\
    Hamming (mkBitVector 16 [1; 2]) (mkBitVector 16 [3; 7]) = Val dxz /\
    0 <= dxy <= 8 * ByteSize (mkBitVector 16 [1; 2]) /\
    (dxy = 0 <-> bits (mkBitVector 16 [1; 2]) = bits (mkBitVector 16 [3; 2])) /\
    Hamming (mkBitVector 16 [3; 2]) (mkBitVector 16 [1; 2]) = Val dxy /\
    dxz <= dxy + dyz.
Proof.
  apply (Hamming_is_metric 16); split; cbn; try done;
    repeat constructor; unfold is_byte; lia.
Defined.

End bitvector_order.

(** * Further properties of the index *)

(** ** Pages and the storage *)

Module storage_laws.
Import bitvector lsh bitvector_facts lsh_facts.

(** ** Pages *)

(** X14.  A page with room takes the item: [Gets] then returns the items
    it returned before followed by the new one, the count is one more,
    the link is the same, and the page is full exactly after its 1023rd
    item.  On a full page [Add] panics with an index out of range and
    overwrites nothing. *)
Theorem Page_Add_then_Gets itemid p :
  len (items p) = PageSize -> 0 <= nitems p <= PageSize ->
  (nitems p < PageSize ->
   exists p' got,
     Page_Full p = false /\
     Page_Add itemid p = Val p' /\
     Page_Gets p = Val got /\
     Page_Gets p' = Val (got ++ [itemid]) /\
     Page_CountItems p' = Page_CountItems p + 1 /\
     Page_Next p' = Page_Next p /\
     (Page_Full p' = true <-> nitems p = PageSize - 1)) /\
  (nitems p = PageSize ->
   Page_Full p = true /\ Page_Add itemid p = Fault IndexOutOfRange).
Proof.
  intros Hitems Hn. split.
  - intros Hroom. rewrite Page_Add_spec by (done || lia).
    eexists _, _. rewrite Page_Full_spec by done.
    split_and!; [by apply Z.eqb_neq; lia|done| | |done|done|].
    + unfold Page_Gets. rewrite Hitems.
      destruct (Z.ltb_spec (nitems p) 0); [lia|].
      destruct (Z.ltb_spec PageSize (nitems p)); [lia|]. done.
    + unfold Page_Gets. cbn [nitems items]. unfold len in *. rewrite length_insert, Hitems.
      destruct (Z.ltb_spec (nitems p + 1) 0); [lia|].
      destruct (Z.ltb_spec PageSize (nitems p + 1)); [lia|]. cbn. f_equal.
      replace (Z.to_nat (nitems p + 1)) with (S (Z.to_nat (nitems p))) by lia.
      destruct (lookup_lt_is_Some_2 (items p) (Z.to_nat (nitems p))) as [x Hx]; [lia|].
      erewrite take_S_r; [|apply list_lookup_insert_eq; lia].
      f_equal. rewrite take_insert_ge; [done|lia].
    + rewrite Page_Full_spec by (cbn; unfold len in *; by rewrite length_insert).
      cbn. rewrite Z.eqb_eq. lia.
  - intros Hfull. rewrite Page_Full_spec by done. split; [by apply Z.eqb_eq|].
    unfold Page_Add. unfold assign.
    destruct (Z.ltb_spec (nitems p) 0); [lia|].
    fold (len (items p)). rewrite Hitems.
    by destruct (Z.leb_spec PageSize (nitems p)); [|lia].
Qed.

Lemma Page_Add_then_Gets_witness :
  (nitems (Page_Init zeroPage) < PageSize ->
   exists p' got,
     Page_Full (Page_Init zeroPage) = false /\
     Page_Add 7 (Page_Init zeroPage) = Val p' /\
     Page_Gets (Page_Init zeroPage) = Val got /\
     Page_Gets p' = Val (got ++ [7]) /\
     Page_CountItems p' = Page_CountItems (Page_Init zeroPage) + 1 /\
     Page_Next p' = Page_Next (Page_Init zeroPage) /\
     (Page_Full p' = true <-> nitems (Page_Init zeroPage) = PageSize - 1)) /\
  (nitems (Page_Init zeroPage) = PageSize ->
   Page_Full (Page_Init zeroPage) = true /\
   Page_Add 7 (Page_Init zeroPage) = Fault IndexOutOfRange).
Proof.
  apply (Page_Add_then_Gets 7 (Page_Init zeroPage)); [reflexivity|].
  cbn. unfold PageSize. lia.
Defined.

(** X15.  [Link] stores the page number in 32 bits: [Next] gives back the
    number that was linked exactly when it fits a signed 32-bit
    integer, and the items and the count of the page are not touched.
    [Init] links the sentinel, so that [Next] is [-1]. *)
Theorem Page_Link_then_Next next p :
  (Page_Next (Page_Link next p) = next <-> - 2 ^ 31 <= next < 2 ^ 31) /\
  - 2 ^ 31 <= Page_Next (Page_Link next p) < 2 ^ 31 /\
  Page_Gets (Page_Link next p) = Page_Gets p /\
  Page_CountItems (Page_Link next p) = Page_CountItems p /\
  Page_Full (Page_Link next p) = Page_Full p /\
  Page_Next (Page_Init p) = -1.
Proof.
  unfold Page_Next, Page_Link, Page_Init. cbn [link].
  assert (- 2 ^ 31 <= int32 next < 2 ^ 31) as Hr.
  { unfold int32. pose proof (Z.mod_pos_bound (next + 2 ^ 31) (2 ^ 32)). lia. }
  split_and!; try done; try lia.
  split; [intros <-; lia|apply int32_small].
Qed.

(** ** [allocatePage] and [Storage.Add] *)

Section StorageLaws.
Variable growslice : Z -> Z.

Lemma allocatePage_exact s :
  allocatePage growslice s =
  Val (len (pages s), append_page growslice (Page_Init zeroPage) s).
Proof.
  unfold allocatePage.
  set (s1 := append_page growslice zeroPage s).
  assert (pages s1 !! Z.to_nat (len (pages s)) = Some zeroPage) as Hnew.
  { unfold s1, len. rewrite append_page_pages, Nat2Z.id.
    rewrite lookup_app_r by lia. by rewrite Nat.sub_diag. }
  assert (0 <= len (pages s)) as Hpos by (unfold len; lia).
  rewrite (getPage_lookup _ _ _ Hpos Hnew). cbn. do 2 f_equal.
  unfold store. cbn [ptr_array ptr_index]. rewrite decide_True by done.
  unfold s1, append_page, len. rewrite Nat2Z.id.
  destruct (_ <? _); cbn [hash pages pages_cap abandoned];
    rewrite alter_app_r_alt by lia; by rewrite Nat.sub_diag.
Qed.

(** X16.  [allocatePage] never panics.  It returns the number of pages
    there were, which is the number of the new page; the new page is
    empty, not full, and ends its chain; every page there was keeps its
    number and its content. *)
Theorem allocatePage_appends s :
  exists s' p,
    allocatePage growslice s = Val (len (pages s), s') /\
    pages s' = pages s ++ [p] /\
    len (pages s') = len (pages s) + 1 /\
    Page_Gets p = Val [] /\ Page_CountItems p = 0 /\ Page_Next p = -1 /\
    Page_Full p = false /\
    (forall q pg, 0 <= q -> pages s !! Z.to_nat q = Some pg ->
       (ptr ← getPage q s'; load ptr s') = Val pg) /\
    chain s' (len (pages s)) [len (pages s)].
Proof.
  rewrite allocatePage_exact.
  set (s' := append_page growslice (Page_Init zeroPage) s).
  assert (pages s' = pages s ++ [Page_Init zeroPage]) as Hpages
    by apply append_page_pages.
  exists s', (Page_Init zeroPage). split_and!; try done.
  - rewrite Hpages. unfold len. rewrite length_app. cbn. lia.
  - intros q pg Hq Hpg.
    assert (pages s' !! Z.to_nat q = Some pg) as Hpg'
      by (rewrite Hpages; by apply lookup_app_l_Some).
    rewrite (getPage_lookup _ _ _ Hq Hpg'). cbn. by apply load_current.
  - apply (chain_step _ _ (Page_Init zeroPage)); [unfold len; lia| |constructor].
    rewrite Hpages. unfold len. rewrite Nat2Z.id, lookup_app_r by lia.
    by rewrite Nat.sub_diag.
Qed.

(** X17.  [Storage.Add] panics on a page number that does not start a
    chain: with a nil pointer for the sentinel [-1], since the loop then
    visits no page; with the value of the page number, by the check of
    the iterator, for a number at or beyond the end of the collection;
    and with an index out of range for a number below [-1], which that
    check does not catch. *)
Theorem Storage_Add_bad_pageno itemid pageno s :
  (pageno = -1 -> Storage_Add growslice itemid pageno s = Fault NilDereference) /\
  (len (pages s) <= pageno ->
   Storage_Add growslice itemid pageno s = Fault (ExplicitPanic pageno)) /\
  (pageno < -1 -> Storage_Add growslice itemid pageno s = Fault IndexOutOfRange).
Proof.
  unfold Storage_Add, pageIterator, fuel_of. cbv zeta. cbn [for_pages].
  unfold next. cbn [nextno]. split_and!.
  - intros ->. reflexivity.
  - intros Hbig. assert (0 <= len (pages s)) by (unfold len; lia).
    destruct (Z.eqb_spec pageno (-1)); [lia|].
    by destruct (Z.leb_spec (len (pages s)) pageno); [|lia].
  - intros Hneg. assert (0 <= len (pages s)) by (unfold len; lia).
    destruct (Z.eqb_spec pageno (-1)); [lia|].
    destruct (Z.leb_spec (len (pages s)) pageno); [lia|].
    unfold getPage. rewrite index_out_of_range; [done|lia].
Qed.

Ltac res_step := cbn [mbind res_mbind res_bind mret res_ret].

(** What [Storage.Add] makes of a well-formed storage: the item goes to the
    last page [t] of the chain if it has room; otherwise to a new page,
    and the link from [t] to it is written into the backing array that
    [t] was found in, which is the array of the slice only if [append]
    did not move it. *)
Lemma Storage_Add_shape itemid h s ps t p :
  storage_ok s -> chain s h ps -> last ps = Some t ->
  pages s !! Z.to_nat t = Some p ->
  Storage_Add growslice itemid h s =
  if nitems p =? PageSize then
    Val (len (pages s),
         if len (pages s) <? pages_cap s then
           mkStorage (hash s)
             (<[Z.to_nat t := Page_Link (len (pages s)) p]> (pages s)
                ++ [Page_with itemid (Page_Init zeroPage)])
             (pages_cap s) (abandoned s)
         else
           mkStorage (hash s)
             (pages s ++ [Page_with itemid (Page_Init zeroPage)])
             (Z.max (len (pages s) + 1) (growslice (pages_cap s)))
             (abandoned s ++ [<[Z.to_nat t := Page_Link (len (pages s)) p]> (pages s)]))
  else
    Val (t, mkStorage (hash s) (<[Z.to_nat t := Page_with itemid p]> (pages s))
              (pages_cap s) (abandoned s)).
Proof.
  intros Hok Hch Hlast Hp. unfold Storage_Add. cbv zeta.
  rewrite (for_pages_fuel_of _ _ _ _ _ Hok Hch).
  pose proof (chain_pages _ _ _ Hch) as Hps.
  rewrite (walk_over_chain _ _ _ Hps), Hlast. cbn.
  assert (0 <= t < len (pages s)) as Ht.
  { rewrite Forall_forall in Hps. apply Hps. by apply last_Some_elem_of. }
  rewrite (load_current _ _ _ (proj1 Ht) Hp). cbn.
  destruct (Hok _ _ Hp) as [Hpl Hpc Hpi].
  rewrite (Page_Full_spec _ Hpi).
  assert (forall (l : list Page) (f : Page -> Page) (i : nat) x,
            l !! i = Some x -> alter f i l = <[i := f x]> l) as Halter.
  { intros l f i x Hx. symmetry. by apply bitvector_laws.insert_as_alter. }
  destruct (Z.eqb_spec (nitems p) PageSize) as [Hfull|Hroom].
  - rewrite allocatePage_exact. cbn.
    set (n := len (pages s)). set (new := Page_with itemid (Page_Init zeroPage)).
    assert (0 <= n) as Hn by (unfold n, len; lia).
    assert (Page_Add itemid (Page_Init zeroPage) = Val new) as Hadd.
    { apply Page_Add_spec; [cbn; unfold PageSize; lia|done]. }
    unfold append_page. fold n. destruct (Z.ltb_spec n (pages_cap s)) as [Hcap|Hcap].
    + (* the slice stays where it is *)
      set (linked := <[Z.to_nat t := Page_Link n p]> (pages s)).
      assert (length linked = length (pages s)) as Hlen
        by (unfold linked; by rewrite length_insert).
      set (s1 := mkStorage (hash s) (linked ++ [Page_Init zeroPage])
                   (pages_cap s) (abandoned s)).
      assert (store (mkPagePtr (current_array s) t) (Page_Link n)
                (mkStorage (hash s) (pages s ++ [Page_Init zeroPage])
                   (pages_cap s) (abandoned s)) = s1) as ->.
      { unfold store. cbn [ptr_array ptr_index current_array abandoned pages hash pages_cap].
        rewrite decide_True by done.
        rewrite alter_app_l by (unfold len in Ht; lia). by rewrite (Halter _ _ _ _ Hp). }
      assert (pages s1 !! Z.to_nat n = Some (Page_Init zeroPage)) as Hnew.
      { cbn. unfold n, len. rewrite Nat2Z.id, lookup_app_r by lia.
        by rewrite Hlen, Nat.sub_diag. }
      rewrite (getPage_lookup _ _ _ Hn Hnew). res_step.
      unfold store_res. rewrite (load_current _ _ _ Hn Hnew). res_step.
      rewrite Hadd. res_step.
      do 2 f_equal. unfold store. cbn [ptr_array ptr_index]. rewrite decide_True by done.
      cbn [hash pages pages_cap abandoned s1]. f_equal.
      unfold n, len. rewrite Nat2Z.id, alter_app_r_alt by lia.
      by rewrite Hlen, Nat.sub_diag.
    + (* the slice has moved: the link lands in the array left behind *)
      set (linked := <[Z.to_nat t := Page_Link n p]> (pages s)).
      set (s1 := mkStorage (hash s) (pages s ++ [Page_Init zeroPage])
                   (Z.max (n + 1) (growslice (pages_cap s))) (abandoned s ++ [linked])).
      assert (store (mkPagePtr (current_array s) t) (Page_Link n)
                (mkStorage (hash s) (pages s ++ [Page_Init zeroPage])
                   (Z.max (n + 1) (growslice (pages_cap s)))
                   (abandoned s ++ [pages s])) = s1) as ->.
      { unfold store, current_array. cbn [ptr_array ptr_index abandoned pages hash pages_cap].
        rewrite decide_False by (rewrite length_app; cbn; lia).
        rewrite alter_app_r_alt by lia. rewrite Nat.sub_diag. cbn [alter list_alter].
        by rewrite (Halter _ _ _ _ Hp). }
      assert (pages s1 !! Z.to_nat n = Some (Page_Init zeroPage)) as Hnew.
      { cbn. unfold n, len. rewrite Nat2Z.id, lookup_app_r by lia.
        by rewrite Nat.sub_diag. }
      rewrite (getPage_lookup _ _ _ Hn Hnew). res_step.
      unfold store_res. rewrite (load_current _ _ _ Hn Hnew). res_step.
      rewrite Hadd. res_step.
      do 2 f_equal. unfold store. cbn [ptr_array ptr_index]. rewrite decide_True by done.
      cbn [hash pages pages_cap abandoned s1]. f_equal.
      unfold n, len. rewrite Nat2Z.id, alter_app_r_alt by lia.
      by rewrite Nat.sub_diag.
  - unfold store_res. rewrite (load_current _ _ _ (proj1 Ht) Hp). cbn.
    rewrite Page_Add_spec by (done || lia). cbn. do 2 f_equal.
    unfold store. cbn [ptr_array ptr_index]. rewrite decide_True by done.
    f_equal. by rewrite <- list_insert_alter.
Qed.

(** *** Chains after a change of the pages *)

Lemma chain_NoDup s h ps : storage_ok s -> chain s h ps -> NoDup ps.
Proof.
  intros Hok Hch. destruct Hch as [|h p ps Hh Hp Hch]; [constructor|].
  destruct (chain_of_head s h Hok (lookup_range _ _ _ Hh Hp)) as (ps' & Hch' & Hnd & _).
  assert (h :: ps = ps') as ->; [|done].
  eapply chain_functional; [|done]. by eapply chain_step.
Qed.

(** The last page of a chain is linked to the sentinel. *)
Lemma chain_last_link s h ps t p :
  chain s h ps -> last ps = Some t -> pages s !! Z.to_nat t = Some p -> link p = -1.
Proof.
  intros Hch Hlast Hp. induction Hch as [|h q ps Hh Hq Hch IH]; [done|].
  rewrite last_cons in Hlast. destruct (last ps) as [t'|] eqn:Hlast'.
  - injection Hlast as ->. by apply IH.
  - injection Hlast as ->. assert (q = p) as -> by congruence.
    destruct Hch as [|h' q' ps' Hh' Hq' Hch']; [done|].
    rewrite last_cons in Hlast'. by destruct (last ps').
Qed.

Lemma chain_last_range s h ps t :
  chain s h ps -> last ps = Some t -> 0 <= t < len (pages s).
Proof.
  intros Hch Hlast. pose proof (chain_pages _ _ _ Hch) as Hps.
  rewrite Forall_forall in Hps. apply Hps. by apply last_Some_elem_of.
Qed.

(** A chain stays a chain when its pages keep their links. *)
Lemma chain_ext s s' h ps :
  chain s h ps ->
  (forall q p, q ∈ ps -> pages s !! Z.to_nat q = Some p ->
     exists p', pages s' !! Z.to_nat q = Some p' /\ link p' = link p) ->
  chain s' h ps.
Proof.
  induction 1 as [|h p ps Hh Hp Hch IH]; intros Hsame; [constructor|].
  destruct (Hsame h p) as (p' & Hp' & Hlink); [by left|done|].
  apply (chain_step _ _ p'); [done|done|]. rewrite Hlink. apply IH.
  intros q pq Hq. apply Hsame. by right.
Qed.

(** A chain grows by one page when its last page is linked to a page that
    ends a chain. *)
Lemma chain_snoc s s' h ps t n pn :
  chain s h ps -> NoDup ps -> last ps = Some t ->
  (forall q p, q ∈ ps -> q <> t -> pages s !! Z.to_nat q = Some p ->
     exists p', pages s' !! Z.to_nat q = Some p' /\ link p' = link p) ->
  (exists pt, pages s' !! Z.to_nat t = Some pt /\ link pt = n) ->
  0 <= n -> pages s' !! Z.to_nat n = Some pn -> link pn = -1 ->
  chain s' h (ps ++ [n]).
Proof.
  intros Hch Hnd Hlast Hsame (pt & Hpt & Hlink) Hn Hpn Hend.
  assert (chain s' n [n]) as Hnew.
  { apply (chain_step _ _ pn); [done|done|]. rewrite Hend. constructor. }
  induction Hch as [|h p ps Hh Hp Hch IH]; [done|].
  apply NoDup_cons in Hnd as [Hnotin Hnd]. rewrite last_cons in Hlast.
  destruct (last ps) as [t'|] eqn:Hlast'.
  - injection Hlast as ->.
    assert (h <> t) as Hne.
    { intros ->. apply Hnotin. by apply last_Some_elem_of. }
    destruct (Hsame h p) as (p' & Hp' & Hlink'); [by left|done|done|].
    cbn [app]. apply (chain_step _ _ p'); [done|done|]. rewrite Hlink'.
    apply IH; [done|done|]. intros q pq Hq Hqt. apply Hsame; [by right|done].
  - injection Hlast as ->. destruct ps as [|q ps]; cycle 1.
    { rewrite last_cons in Hlast'. by destruct (last ps). }
    cbn [app]. apply (chain_step _ _ pt); [done|done|]. by rewrite Hlink.
Qed.

Lemma page_items_same s s' q :
  pages s' !! Z.to_nat q = pages s !! Z.to_nat q -> page_items s' q = page_items s q.
Proof. unfold page_items. by intros ->. Qed.

Lemma concat_page_items_same s s' ps :
  (forall q, q ∈ ps -> page_items s' q = page_items s q) ->
  concat (page_items s' <$> ps) = concat (page_items s <$> ps).
Proof.
  induction ps as [|q ps IH]; intros Hsame; [done|]. cbn.
  rewrite (Hsame q) by (by left). f_equal. apply IH. intros q' Hq'. apply Hsame. by right.
Qed.

(** A chain whose pages are not touched holds the items it held. *)
Lemma chain_untouched s s' h ps :
  chain s h ps ->
  (forall q, q ∈ ps -> pages s' !! Z.to_nat q = pages s !! Z.to_nat q) ->
  chain s' h ps /\ concat (page_items s' <$> ps) = concat (page_items s <$> ps).
Proof.
  intros Hch Hsame. split.
  - eapply chain_ext; [done|]. intros q p Hq Hp. exists p. by rewrite Hsame.
  - apply concat_page_items_same. intros q Hq. by apply page_items_same, Hsame.
Qed.

Lemma page_items_with itemid p :
  0 <= nitems p < len (items p) ->
  take (Z.to_nat (nitems (Page_with itemid p))) (items (Page_with itemid p)) =
  take (Z.to_nat (nitems p)) (items p) ++ [itemid].
Proof.
  intros Hn. unfold len in Hn. cbn [Page_with nitems items].
  replace (Z.to_nat (nitems p + 1)) with (S (Z.to_nat (nitems p))) by lia.
  erewrite take_S_r; [|apply list_lookup_insert_eq; lia].
  f_equal. rewrite take_insert_ge; [done|lia].
Qed.

(** The three ways in which [Storage.Add] leaves the pages. *)

(** The item went to the last page [t] of the chain. *)
Lemma pages_with_room itemid s s' h ps t p :
  storage_ok s -> chain s h ps -> last ps = Some t ->
  pages s !! Z.to_nat t = Some p -> nitems p < PageSize ->
  pages s' = <[Z.to_nat t := Page_with itemid p]> (pages s) ->
  storage_ok s' /\ chain s' h ps /\
  page_items s' t = page_items s t ++ [itemid] /\
  (forall q, 0 <= q -> q <> t -> pages s' !! Z.to_nat q = pages s !! Z.to_nat q) /\
  concat (page_items s' <$> ps) = concat (page_items s <$> ps) ++ [itemid].
Proof.
  intros Hok Hch Hlast Hp Hroom Hs'.
  pose proof (chain_pages _ _ _ Hch) as Hps. rewrite Forall_forall in Hps.
  pose proof (chain_last_range _ _ _ _ Hch Hlast) as Ht.
  destruct (Hok _ _ Hp) as [Hpl Hpc Hpi].
  assert (forall q, 0 <= q -> q <> t ->
            pages s' !! Z.to_nat q = pages s !! Z.to_nat q) as Hother.
  { intros q Hq Hqt. rewrite Hs'. apply list_lookup_insert_ne. lia. }
  assert (pages s' !! Z.to_nat t = Some (Page_with itemid p)) as Hpt'.
  { rewrite Hs'. apply list_lookup_insert_eq. unfold len in Ht. lia. }
  assert (page_items s' t = page_items s t ++ [itemid]) as Hitems.
  { unfold page_items. rewrite Hpt', Hp. apply page_items_with. lia. }
  split_and!; [| |done|done|].
  - eapply (storage_ok_alter s s' (Z.to_nat t) (fun _ => Page_with itemid p));
      [done|rewrite Hs'; apply list_insert_alter|].
    intros q Hq Hqok. assert (q = p) as -> by congruence. by apply page_ok_Add.
  - eapply chain_ext; [done|]. intros q pq Hq Hpq.
    destruct (decide (q = t)) as [->|Hqt].
    + exists (Page_with itemid p). split; [done|]. cbn. congruence.
    + exists pq. split; [|done]. rewrite Hother; [done| |done]. by apply Hps.
  - apply last_Some in Hlast as [ps0 ->].
    pose proof (chain_NoDup _ _ _ Hok Hch) as Hnd.
    apply NoDup_app in Hnd as (_ & Hdisj & _).
    rewrite !fmap_app, !concat_app. cbn. rewrite !app_nil_r, Hitems, app_assoc.
    do 2 f_equal. apply concat_page_items_same. intros q Hq.
    apply page_items_same, Hother.
    + apply Hps. apply elem_of_app. by left.
    + intros ->. apply (Hdisj t Hq). by left.
Qed.

(** The item went to a new page, at the end of the pages. *)
Lemma pages_with_new_page itemid (s s' : Storage) l :
  storage_ok s -> length l = length (pages s) ->
  pages s' = l ++ [Page_with itemid (Page_Init zeroPage)] ->
  len (pages s') = len (pages s) + 1 /\
  page_items s' (len (pages s)) = [itemid] /\
  chain s' (len (pages s)) [len (pages s)] /\
  page_ok (len (pages s) + 1) (len (pages s)) (Page_with itemid (Page_Init zeroPage)).
Proof.
  intros Hok Hl Hs'. set (new := Page_with itemid (Page_Init zeroPage)).
  assert (pages s' !! Z.to_nat (len (pages s)) = Some new) as Hpn.
  { rewrite Hs'. unfold len. rewrite Nat2Z.id, lookup_app_r by lia.
    by rewrite Hl, Nat.sub_diag. }
  split_and!.
  - rewrite Hs'. unfold len. rewrite length_app, Hl. cbn. lia.
  - unfold page_items. by rewrite Hpn.
  - apply (chain_step _ _ new); [unfold len; lia|done|constructor].
  - split; [by left|cbn; unfold PageSize; lia|].
    unfold new, Page_with. cbn [items]. unfold len. by rewrite length_insert.
Qed.

(** The new page is linked to the last page [t] of the chain. *)
Lemma pages_linked itemid s s' h ps t p :
  storage_ok s -> chain s h ps -> last ps = Some t ->
  pages s !! Z.to_nat t = Some p -> len (pages s) < MaxPages ->
  pages s' = <[Z.to_nat t := Page_Link (len (pages s)) p]> (pages s)
               ++ [Page_with itemid (Page_Init zeroPage)] ->
  storage_ok s' /\ chain s' h (ps ++ [len (pages s)]) /\
  (forall q, 0 <= q < len (pages s) -> page_items s' q = page_items s q) /\
  (forall q, 0 <= q < len (pages s) -> q <> t ->
     pages s' !! Z.to_nat q = pages s !! Z.to_nat q) /\
  concat (page_items s' <$> (ps ++ [len (pages s)])) =
    concat (page_items s <$> ps) ++ [itemid].
Proof.
  intros Hok Hch Hlast Hp Hmax Hs'.
  set (n := len (pages s)) in *. set (new := Page_with itemid (Page_Init zeroPage)) in *.
  pose proof (chain_pages _ _ _ Hch) as Hps. rewrite Forall_forall in Hps.
  pose proof (chain_NoDup _ _ _ Hok Hch) as Hnd.
  pose proof (chain_last_range _ _ _ _ Hch Hlast) as Ht. fold n in Ht.
  assert (length (<[Z.to_nat t := Page_Link n p]> (pages s)) = length (pages s)) as Hlen
    by apply length_insert.
  destruct (pages_with_new_page itemid s s' _ Hok Hlen Hs') as (Hlen' & Hnew & Hchn & Hnewok).
  fold n in Hlen', Hnew, Hchn, Hnewok. fold new in Hnewok.
  assert (int32 n = n) as Hint.
  { apply int32_small. unfold MaxPages in Hmax. unfold n, len in *. lia. }
  assert (pages s' !! Z.to_nat n = Some new) as Hpn.
  { rewrite Hs'. unfold n, len. rewrite Nat2Z.id.
    rewrite lookup_app_r by (rewrite length_insert; lia).
    by rewrite length_insert, Nat.sub_diag. }
  assert (pages s' !! Z.to_nat t = Some (Page_Link n p)) as Hpt.
  { rewrite Hs'. rewrite lookup_app_l by (unfold n, len in Ht; lia).
    apply list_lookup_insert_eq. unfold n, len in Ht. lia. }
  assert (forall q, 0 <= q < n -> q <> t ->
            pages s' !! Z.to_nat q = pages s !! Z.to_nat q) as Hother.
  { intros q Hq Hqt. rewrite Hs'.
    rewrite lookup_app_l by (rewrite Hlen; unfold n, len in Hq; lia).
    apply list_lookup_insert_ne. lia. }
  assert (forall q, 0 <= q < n -> page_items s' q = page_items s q) as Hitems.
  { intros q Hq. destruct (decide (q = t)) as [->|Hqt].
    - unfold page_items. by rewrite Hpt, Hp.
    - apply page_items_same. by apply Hother. }
  split_and!; [| |done|done|].
  - set (s0 := mkStorage (hash s) (pages s ++ [new]) (pages_cap s) (abandoned s)).
    assert (storage_ok s0) as Hok0 by (by eapply (storage_ok_app s)).
    eapply (storage_ok_alter s0 s' (Z.to_nat t) (fun _ => Page_Link n p)).
    + done.
    + rewrite Hs'. cbn. rewrite alter_app_l by (unfold n, len in Ht; lia).
      f_equal. apply list_insert_alter.
    + intros q Hq [Hql Hqc Hqi]. cbn in Hq.
      rewrite lookup_app_l in Hq by (unfold n, len in Ht; lia).
      assert (q = p) as -> by congruence.
      split; cbn; [|done|done]. right. rewrite Hint.
      unfold len. rewrite length_app. cbn. unfold n, len in *. lia.
  - eapply (chain_snoc s s' h ps t n new); try done; try lia.
    + intros q pq Hq Hqt Hpq. exists pq. split; [|done].
      rewrite Hother; [done| |done]. by apply Hps.
    + exists (Page_Link n p). by split.
  - rewrite fmap_app, concat_app. cbn. rewrite app_nil_r, Hnew. f_equal.
    apply concat_page_items_same. intros q Hq. apply Hitems. by apply Hps.
Qed.

(** The new page is linked from an array that the slice has left: it is
    on no chain but its own. *)
Lemma pages_moved itemid s s' :
  storage_ok s ->
  pages s' = pages s ++ [Page_with itemid (Page_Init zeroPage)] ->
  storage_ok s' /\
  (forall q, 0 <= q < len (pages s) ->
     pages s' !! Z.to_nat q = pages s !! Z.to_nat q) /\
  (forall h ps, chain s h ps ->
     chain s' h ps /\ concat (page_items s' <$> ps) = concat (page_items s <$> ps)).
Proof.
  intros Hok Hs'.
  destruct (pages_with_new_page itemid s s' _ Hok eq_refl Hs') as (_ & _ & _ & Hnewok).
  assert (forall q, 0 <= q < len (pages s) ->
            pages s' !! Z.to_nat q = pages s !! Z.to_nat q) as Hother.
  { intros q Hq. rewrite Hs'. apply lookup_app_l. unfold len in Hq. lia. }
  split_and!; [by eapply (storage_ok_app s)|done|].
  intros h ps Hch. apply chain_untouched; [done|]. intros q Hq. apply Hother.
  pose proof (chain_pages _ _ _ Hch) as Hps. rewrite Forall_forall in Hps. by apply Hps.
Qed.

(** X18.  When the last page of the chain has room, [Storage.Add] puts the
    item there and returns the number of that page: no page is
    allocated, the chain is the same, the page holds the item after
    those it held, every other page holds what it held, and draining the
    chain gives the items it gave before followed by the new one. *)
Theorem Storage_Add_to_page_with_room itemid h s ps t p :
  storage_ok s -> chain s h ps -> last ps = Some t ->
  pages s !! Z.to_nat t = Some p -> nitems p < PageSize ->
  exists s' got,
    Storage_Add growslice itemid h s = Val (t, s') /\
    len (pages s') = len (pages s) /\
    storage_ok s' /\
    chain s' h ps /\
    page_items s' t = page_items s t ++ [itemid] /\
    (forall q, 0 <= q -> q <> t -> page_items s' q = page_items s q) /\
    drain s h [] = Val got /\
    drain s' h [] = Val (got ++ [itemid]).
Proof.
  intros Hok Hch Hlast Hp Hroom.
  rewrite (Storage_Add_shape itemid h s ps t p Hok Hch Hlast Hp).
  destruct (Z.eqb_spec (nitems p) PageSize) as [Hfull|_]; [lia|].
  set (s' := mkStorage (hash s) (<[Z.to_nat t := Page_with itemid p]> (pages s))
               (pages_cap s) (abandoned s)).
  destruct (pages_with_room itemid s s' h ps t p Hok Hch Hlast Hp Hroom eq_refl)
    as (Hok' & Hch' & Hitems & Hother & Hall).
  exists s', (concat (page_items s <$> ps)).
  split_and!; try done.
  - unfold len. cbn. by rewrite length_insert.
  - intros q Hq Hqt. apply page_items_same. by apply Hother.
  - by rewrite (drain_spec _ _ _ _ Hok Hch).
  - rewrite (drain_spec _ _ _ _ Hok' Hch'). cbn [app]. by rewrite Hall.
Qed.

(** X19.  In a well-formed storage of fewer than [2^31] pages, so that the
    number of the next page fits the [int32] link: when the last page
    of the chain is full, [Storage.Add] allocates a page, puts the item
    there and returns its number; the pages there were hold what they
    held.  If the slice of pages had spare capacity,
    the new page is linked to the chain, and draining the chain gives the
    items it gave before followed by the new one.  If the slice was at
    capacity, [append] has moved it and the link is written into the
    array left behind: the chain is the one it was, draining it gives the
    items it gave before, and the page of the new item is on no chain
    but its own. *)
Theorem Storage_Add_to_full_page itemid h s ps t p :
  storage_ok s -> chain s h ps -> last ps = Some t ->
  pages s !! Z.to_nat t = Some p -> nitems p = PageSize ->
  len (pages s) < MaxPages ->
  exists s' got,
    Storage_Add growslice itemid h s = Val (len (pages s), s') /\
    len (pages s') = len (pages s) + 1 /\
    storage_ok s' /\
    page_items s' (len (pages s)) = [itemid] /\
    (forall q, 0 <= q < len (pages s) -> page_items s' q = page_items s q) /\
    chain s' (len (pages s)) [len (pages s)] /\
    drain s h [] = Val got /\
    (len (pages s) < pages_cap s ->
     chain s' h (ps ++ [len (pages s)]) /\ drain s' h [] = Val (got ++ [itemid])) /\
    (pages_cap s <= len (pages s) ->
     chain s' h ps /\ drain s' h [] = Val got).
Proof.
  intros Hok Hch Hlast Hp Hfull Hmax.
  rewrite (Storage_Add_shape itemid h s ps t p Hok Hch Hlast Hp).
  destruct (Z.eqb_spec (nitems p) PageSize) as [_|Hne]; [|done].
  destruct (Z.ltb_spec (len (pages s)) (pages_cap s)) as [Hcap|Hcap].
  - set (s' := mkStorage _ _ _ _).
    destruct (pages_linked itemid s s' h ps t p Hok Hch Hlast Hp Hmax eq_refl)
      as (Hok' & Hch' & Hitems & _ & Hall).
    destruct (pages_with_new_page itemid s s'
                (<[Z.to_nat t := Page_Link (len (pages s)) p]> (pages s)) Hok
                (length_insert _ _ _) eq_refl) as (Hlen' & Hnew & Hchn & _).
    exists s', (concat (page_items s <$> ps)).
    split_and!; try done.
    + by rewrite (drain_spec _ _ _ _ Hok Hch).
    + intros _. split; [done|].
      rewrite (drain_spec _ _ _ _ Hok' Hch'). cbn [app]. by rewrite Hall.
    + intros Hge. lia.
  - set (s' := mkStorage _ _ _ _).
    destruct (pages_moved itemid s s' Hok eq_refl) as (Hok' & Hother & Hchains).
    destruct (pages_with_new_page itemid s s' (pages s) Hok eq_refl eq_refl)
      as (Hlen' & Hnew & Hchn & _).
    destruct (Hchains h ps Hch) as [Hch' Hall].
    exists s', (concat (page_items s <$> ps)).
    split_and!; try done.
    + intros q Hq. apply page_items_same. by apply Hother.
    + by rewrite (drain_spec _ _ _ _ Hok Hch).
    + intros Hlt. lia.
    + intros _. split; [done|].
      rewrite (drain_spec _ _ _ _ Hok' Hch'). cbn [app]. by rewrite Hall.
Qed.

End StorageLaws.

End storage_laws.

(** ** [Add] and the buckets *)

Module index_laws.
Import bitvector lsh bitvector_facts lsh_facts storage_laws.

(** ** The last page of a chain *)

Lemma chain_last s h :
  storage_ok s -> 0 <= h < len (pages s) ->
  exists ps t p,
    chain s h ps /\ last ps = Some t /\ pages s !! Z.to_nat t = Some p /\
    0 <= t < len (pages s) /\ link p = -1.
Proof.
  intros Hok Hh. destruct (chain_of_head s h Hok Hh) as (ps & Hch & _).
  destruct (last ps) as [t|] eqn:Hlast; cycle 1.
  { exfalso. destruct Hch as [|h' q ps Hh' Hq Hch]; [lia|].
    rewrite last_cons in Hlast. by destruct (last ps). }
  assert (0 <= t < len (pages s)) as Ht.
  { pose proof (chain_pages _ _ _ Hch) as Hps. rewrite Forall_forall in Hps.
    apply Hps. by apply last_Some_elem_of. }
  destruct (lookup_in_range _ _ Ht) as [p Hp].
  exists ps, t, p. split_and!; [done|done|done|lia|lia|by eapply chain_last_link].
Qed.

Section IndexLaws.
Context {F : Type} `{DistanceOk F} {vectorgen : VectorGen F}.
Variable growslice : Z -> Z.

(** What [Add] makes of a well-formed index: a new bucket with the item in
    a new page, or the item in the chain of its bucket as [Storage.Add]
    leaves it. *)
Lemma Indexer_Add_pages itemid vec (idx idx' : Indexer F) :
  indexer_ok idx ->
  Indexer_Add growslice itemid vec idx = Val idx' ->
  exists k,
    Uint32 (GetBitVector (hyperplane idx) vec) = Val k /\
    seed idx' = seed idx /\ bitsize idx' = bitsize idx /\
    vecsize idx' = vecsize idx /\ hyperplane idx' = hyperplane idx /\
    ((lookup idx !! k = None /\
      lookup idx' = <[k := len (pages (storage idx))]> (lookup idx) /\
      pages (storage idx') =
        pages (storage idx) ++ [Page_with itemid (Page_Init zeroPage)]) \/
     (exists h ps t p,
        lookup idx !! k = Some h /\ lookup idx' = lookup idx /\
        chain (storage idx) h ps /\ last ps = Some t /\
        pages (storage idx) !! Z.to_nat t = Some p /\
        ((nitems p < PageSize /\
          pages (storage idx') =
            <[Z.to_nat t := Page_with itemid p]> (pages (storage idx))) \/
         (nitems p = PageSize /\
          len (pages (storage idx)) < pages_cap (storage idx) /\
          pages (storage idx') =
            <[Z.to_nat t := Page_Link (len (pages (storage idx))) p]>
              (pages (storage idx))
            ++ [Page_with itemid (Page_Init zeroPage)]) \/
         (nitems p = PageSize /\
          pages_cap (storage idx) <= len (pages (storage idx)) /\
          pages (storage idx') =
            pages (storage idx) ++ [Page_with itemid (Page_Init zeroPage)])))).
Proof.
  intros Hok Hadd. destruct Hok as [Hst Hheads Hkeys Hhp Hbits].
  unfold Indexer_Add in Hadd.
  apply res_bind_Val in Hadd as (k & Hk & Hadd). exists k. split; [done|].
  destruct (lookup idx !! k) as [h|] eqn:Hlook.
  - cbn in Hadd.
    destruct (chain_last _ h Hst (Hheads _ _ Hlook)) as (ps & t & p & Hch & Hlast & Hp & Ht & _).
    rewrite (Storage_Add_shape growslice itemid h _ ps t p Hst Hch Hlast Hp) in Hadd.
    destruct (Hst _ _ Hp) as [_ Hpc _].
    destruct (Z.eqb_spec (nitems p) PageSize) as [Hfull|Hroom].
    + cbn in Hadd. injection Hadd as <-. cbn. split_and!; try done.
      right. exists h, ps, t, p. split_and!; try done.
      destruct (Z.ltb_spec (len (pages (storage idx))) (pages_cap (storage idx))).
      * right; left. done.
      * right; right. done.
    + cbn in Hadd. injection Hadd as <-. cbn. split_and!; try done.
      right. exists h, ps, t, p. split_and!; try done. left. split; [lia|done].
  - rewrite allocatePage_exact in Hadd. cbn in Hadd.
    set (s := storage idx) in *. set (n := len (pages s)) in *.
    set (s0 := append_page growslice (Page_Init zeroPage) s) in *.
    assert (pages s0 = pages s ++ [Page_Init zeroPage]) as Hs0 by apply append_page_pages.
    assert (storage_ok s0) as Hok0.
    { eapply storage_ok_app; [done|done|].
      split; cbn; [by left|unfold PageSize; lia|done]. }
    assert (0 <= n) as Hn by (unfold n, len; lia).
    assert (pages s0 !! Z.to_nat n = Some (Page_Init zeroPage)) as Hnew.
    { rewrite Hs0. unfold n, len. rewrite Nat2Z.id, lookup_app_r by lia.
      by rewrite Nat.sub_diag. }
    assert (chain s0 n [n]) as Hch.
    { apply (chain_step _ _ (Page_Init zeroPage)); [done|done|constructor]. }
    rewrite (Storage_Add_shape growslice itemid n s0 [n] n (Page_Init zeroPage)
               Hok0 Hch eq_refl Hnew) in Hadd.
    cbn in Hadd. injection Hadd as <-. cbn. split_and!; try done.
    left. split_and!; try done.
    rewrite Hs0. unfold n, len. rewrite Nat2Z.id.
    rewrite insert_app_r_alt by lia. by rewrite Nat.sub_diag.
Qed.

(** *** Buckets do not share pages *)

Lemma separated_links_kept (idx idx' : Indexer F) :
  indexer_ok idx -> separated idx ->
  (forall (i : nat) p', pages (storage idx') !! i = Some p' ->
     (exists p0, pages (storage idx) !! i = Some p0 /\ link p' = link p0) \/
     link p' = -1) ->
  (lookup idx' = lookup idx \/
   exists k, lookup idx !! k = None /\
             lookup idx' = <[k := len (pages (storage idx))]> (lookup idx)) ->
  separated idx'.
Proof.
  intros [Hst Hheads _ _ _] [Hsh Hsn Hsl] Hpages Hlookup.
  assert (forall k h, lookup idx' !! k = Some h ->
            lookup idx !! k = Some h \/
            (h = len (pages (storage idx)) /\ lookup idx !! k = None /\
             forall k2, lookup idx' !! k2 = Some h -> k2 = k)) as Hhead.
  { intros k h Hk. destruct Hlookup as [Heq|(k0 & Hnone & Heq)]; rewrite Heq in Hk.
    - by left.
    - apply lookup_insert_Some in Hk as [[<- <-]|[Hne Hk]]; [|by left].
      right. split_and!; [done|done|]. intros k2 Hk2. rewrite Heq in Hk2.
      apply lookup_insert_Some in Hk2 as [[<- _]|[_ Hk2]]; [done|].
      apply Hheads in Hk2. lia. }
  split.
  - intros k1 k2 h Hk1 Hk2.
    destruct (Hhead _ _ Hk1) as [Hold1|(_ & _ & Huniq)]; [|symmetry; by apply Huniq].
    destruct (Hhead _ _ Hk2) as [Hold2|(_ & _ & Huniq)]; [|by apply Huniq].
    by eapply Hsh.
  - intros k h i p' Hk Hp'.
    assert (0 <= h) as Hh.
    { destruct (Hhead _ _ Hk) as [Hold|(-> & _)]; [|unfold len; lia].
      apply Hheads in Hold. lia. }
    destruct (Hpages _ _ Hp') as [(p0 & Hp0 & ->)|Hend]; [|lia].
    destruct (Hhead _ _ Hk) as [Hold|(-> & _)]; [by eapply Hsn|].
    destruct (Hst _ _ Hp0) as [[Hl|Hl] _ _]; lia.
  - intros i j p' q' Hp' Hq' Heq Hne.
    destruct (Hpages _ _ Hp') as [(p0 & Hp0 & Hlp)|Hend]; [|lia].
    destruct (Hpages _ _ Hq') as [(q0 & Hq0 & Hlq)|Hend]; [|lia].
    apply (Hsl i j p0 q0); [done|done|congruence|congruence].
Qed.

Lemma separated_linked (idx idx' : Indexer F) (t : nat) :
  indexer_ok idx -> separated idx -> lookup idx' = lookup idx ->
  (forall (i : nat) p', pages (storage idx') !! i = Some p' ->
     (i <> t /\
      ((exists p0, pages (storage idx) !! i = Some p0 /\ link p' = link p0) \/
       link p' = -1)) \/
     (i = t /\ link p' = len (pages (storage idx)))) ->
  separated idx'.
Proof.
  intros [Hst Hheads _ _ _] [Hsh Hsn Hsl] Hlookup Hpages.
  assert (0 <= len (pages (storage idx))) as Hn by (unfold len; lia).
  split.
  - intros k1 k2 h. rewrite Hlookup. apply Hsh.
  - intros k h i p'. rewrite Hlookup. intros Hk Hp'.
    pose proof (Hheads _ _ Hk) as Hh.
    destruct (Hpages _ _ Hp') as [[_ [(p0 & Hp0 & ->)|Hend]]|[_ ->]]; [|lia|lia].
    by eapply Hsn.
  - intros i j p' q' Hp' Hq' Heq Hne.
    destruct (Hpages _ _ Hp') as [[Hit [(p0 & Hp0 & Hlp)|Hend]]|[-> Hlp]]; [|lia|];
    destruct (Hpages _ _ Hq') as [[Hjt [(q0 & Hq0 & Hlq)|Hend]]|[-> Hlq]]; try lia.
    + apply (Hsl i j p0 q0); [done|done|congruence|congruence].
    + destruct (Hst _ _ Hp0) as [[Hl|Hl] _ _]; lia.
    + destruct (Hst _ _ Hq0) as [[Hl|Hl] _ _]; lia.
Qed.

Lemma NewIndexer_separated seed bitsize vecsize (idx : Indexer F) :
  NewIndexer seed bitsize vecsize = Val idx -> separated idx.
Proof.
  intros Hnew. pose proof (NewIndexer_Val _ _ _ _ Hnew) as Hb.
  rewrite NewIndexer_spec in Hnew by done. injection Hnew as <-.
  split; cbn.
  - intros k1 k2 h Hk. by rewrite lookup_empty in Hk.
  - intros k h i p Hk. by rewrite lookup_empty in Hk.
  - intros i j p q Hp. done.
Qed.

Lemma Indexer_Add_separated itemid vec (idx idx' : Indexer F) :
  indexer_ok idx -> separated idx ->
  Indexer_Add growslice itemid vec idx = Val idx' ->
  len (pages (storage idx')) <= MaxPages ->
  separated idx'.
Proof.
  intros Hok Hsep Hadd Hmax.
  destruct (Indexer_Add_pages itemid vec idx idx' Hok Hadd)
    as (k & Hk & _ & _ & _ & _ & Hcases).
  destruct Hcases as [(Hnone & Hlk & Hpages)|(h & ps & t & p & Hlook & Hlk & Hch & Hlast & Hp & Hcases)].
  - apply (separated_links_kept idx idx' Hok Hsep); [|right; by exists k].
    intros i p'. rewrite Hpages. intros Hp'.
    apply lookup_snoc_Some in Hp' as [[_ Hp']|[_ <-]]; [left; by exists p'|by right].
  - pose proof (chain_last_link _ _ _ _ _ Hch Hlast Hp) as Hend.
    assert (0 <= t < len (pages (storage idx))) as Ht.
    { pose proof (chain_pages _ _ _ Hch) as Hps. rewrite Forall_forall in Hps.
      apply Hps. by apply last_Some_elem_of. }
    destruct Hcases as [(Hroom & Hpages)|[(Hfull & Hcap & Hpages)|(Hfull & Hcap & Hpages)]].
    + apply (separated_links_kept idx idx' Hok Hsep); [|by left].
      intros i p'. rewrite Hpages. intros Hp'.
      apply list_lookup_insert_Some in Hp' as [(<- & <- & _)|[_ Hp']].
      * left. by exists p.
      * left. by exists p'.
    + assert (len (pages (storage idx)) < MaxPages) as Hn.
      { rewrite Hpages in Hmax. unfold len in *.
        rewrite length_app, length_insert in Hmax. cbn in Hmax. lia. }
      apply (separated_linked idx idx' (Z.to_nat t) Hok Hsep Hlk).
      intros i p'. rewrite Hpages. intros Hp'.
      apply lookup_snoc_Some in Hp' as [[_ Hp']|[Hi <-]].
      * apply list_lookup_insert_Some in Hp' as [(<- & <- & _)|[Hne Hp']].
        -- right. split; [done|]. cbn. apply int32_small.
           unfold MaxPages in Hn. unfold len in *. lia.
        -- left. split; [done|]. left. by exists p'.
      * left. split; [|by right]. rewrite length_insert in Hi. unfold len in Ht. lia.
    + apply (separated_links_kept idx idx' Hok Hsep); [|by left].
      intros i p'. rewrite Hpages. intros Hp'.
      apply lookup_snoc_Some in Hp' as [[_ Hp']|[_ <-]]; [left; by exists p'|by right].
Qed.

Lemma run_separated ops : forall idx idx' : Indexer F,
  indexer_ok idx -> separated idx ->
  run growslice ops idx = Val idx' ->
  len (pages (storage idx')) <= MaxPages ->
  separated idx'.
Proof.
  induction ops as [|[itemid vec] ops IH]; intros idx idx' Hok Hsep Hrun Hmax;
    cbn in Hrun.
  - by injection Hrun as <-.
  - apply res_bind_Val in Hrun as (idx1 & Hadd & Hrun).
    assert (len (pages (storage idx1)) <= MaxPages) as Hmax1.
    { apply run_length in Hrun as (Hl & _). unfold len in *. lia. }
    eapply (IH idx1); [|  |done|done].
    + by eapply Indexer_Add_ok.
    + by eapply Indexer_Add_separated.
Qed.

Lemma built_separated seed bitsize vecsize ops (idx : Indexer F) :
  built growslice seed bitsize vecsize ops idx ->
  len (pages (storage idx)) <= MaxPages ->
  separated idx.
Proof.
  unfold built. intros Hb Hmax.
  apply res_bind_Val in Hb as (idx0 & Hnew & Hrun).
  eapply run_separated; [| |done|done].
  - by eapply NewIndexer_ok.
  - by eapply NewIndexer_separated.
Qed.

(** A page of a chain is its head or is linked to from a page of the
    chain. *)
Lemma chain_elem s h ps :
  chain s h ps -> forall q, q ∈ ps ->
  0 <= q /\
  (q = h \/ exists i p, i ∈ ps /\ 0 <= i /\ pages s !! Z.to_nat i = Some p /\ link p = q).
Proof.
  induction 1 as [|h p ps Hh Hp Hch IH]; intros q Hq; [by apply elem_of_nil in Hq|].
  apply elem_of_cons in Hq as [->|Hq]; [split; [done|by left]|].
  destruct (IH q Hq) as [Hq0 [->|(i & pi & Hi & Hi0 & Hpi & Hlink)]].
  - split; [done|]. right. exists h, p. split_and!; [by left|done|done|done].
  - split; [done|]. right. exists i, pi. split_and!; [by right|done|done|done].
Qed.

(** The chains of two buckets have no page in common. *)
Lemma chains_disjoint (idx : Indexer F) k1 k2 h1 h2 ps1 ps2 :
  separated idx ->
  lookup idx !! k1 = Some h1 -> lookup idx !! k2 = Some h2 -> k1 <> k2 ->
  chain (storage idx) h1 ps1 -> chain (storage idx) h2 ps2 ->
  forall q, q ∈ ps1 -> q ∉ ps2.
Proof.
  intros [Hsh Hsn Hsl] Hk1 Hk2 Hne Hch1 Hch2.
  assert (forall h ps, chain (storage idx) h ps -> h ∉ ps2 ->
                       forall q, q ∈ ps -> q ∉ ps2) as Hwalk.
  { induction 1 as [|h p ps Hh Hp Hch IH]; intros Hnotin q Hq;
      [by apply elem_of_nil in Hq|].
    apply elem_of_cons in Hq as [->|Hq]; [done|].
    apply IH; [|done]. intros Hin.
    destruct (chain_elem _ _ _ Hch2 _ Hin) as [Hl0 [Hhead|(i & pi & Hi & Hi0 & Hpi & Hlink)]].
    - by apply (Hsn k2 h2 (Z.to_nat h) p).
    - assert (Z.to_nat i = Z.to_nat h) as Heq
        by (apply (Hsl _ _ pi p); [done|done|done|lia]).
      assert (i = h) as -> by lia. done. }
  apply (Hwalk h1 ps1 Hch1). intros Hin.
  destruct (chain_elem _ _ _ Hch2 _ Hin) as [_ [->|(i & pi & Hi & Hi0 & Hpi & Hlink)]].
  - apply Hne. by eapply Hsh.
  - by apply (Hsn k1 h1 (Z.to_nat i) pi).
Qed.

(** *** What [Add] changes *)

Lemma page_items_prefix_app s s' x q :
  pages s' = pages s ++ [x] -> 0 <= q < len (pages s) ->
  page_items s' q = page_items s q.
Proof.
  intros Hs' Hq. apply page_items_same. rewrite Hs'. apply lookup_app_l.
  unfold len in Hq. lia.
Qed.

(** X20.  [Add] on an index built by [NewIndexer] and [Add] calls that
    holds at most [2^31] pages changes the lookup table only by adding
    the key of the vector when it is new: every key there was
    keeps its head page and no other key appears.  The seed, the sizes
    and the hyperplanes stay.  At most one page is added, every page
    there was holds the items it held, with the new item after them in
    at most one of them, and the item is the last one of some page. *)
Theorem Add_extends_lookup seed bitsize vecsize ops itemid vec (idx idx' : Indexer F) :
  built growslice seed bitsize vecsize ops idx ->
  len (pages (storage idx)) <= MaxPages ->
  Indexer_Add growslice itemid vec idx = Val idx' ->
  exists k,
    Uint32 (GetBitVector (hyperplane idx) vec) = Val k /\
    is_Some (lookup idx' !! k) /\
    (forall k' h, lookup idx !! k' = Some h -> lookup idx' !! k' = Some h) /\
    (forall k' h, lookup idx' !! k' = Some h ->
       k' = k \/ lookup idx !! k' = Some h) /\
    lsh.seed idx' = lsh.seed idx /\ lsh.bitsize idx' = lsh.bitsize idx /\
    lsh.vecsize idx' = lsh.vecsize idx /\ hyperplane idx' = hyperplane idx /\
    len (pages (storage idx)) <= len (pages (storage idx'))
      <= len (pages (storage idx)) + 1 /\
    (forall q, 0 <= q < len (pages (storage idx)) ->
       page_items (storage idx') q = page_items (storage idx) q \/
       page_items (storage idx') q = page_items (storage idx) q ++ [itemid]) /\
    (exists q, 0 <= q < len (pages (storage idx')) /\
       last (page_items (storage idx') q) = Some itemid).
Proof.
  intros Hbuilt Hmax Hadd.
  pose proof (built_ok _ _ _ _ _ _ Hbuilt Hmax) as Hok.
  destruct (Indexer_Add_pages itemid vec idx idx' Hok Hadd)
    as (k & Hk & Hseed & Hbit & Hvec & Hhp & Hcases).
  exists k. split; [done|].
  set (n := len (pages (storage idx))) in *.
  set (new := Page_with itemid (Page_Init zeroPage)) in *.
  assert (0 <= n) as Hn by (unfold n, len; lia).
  assert (forall l : list Page, length l = Z.to_nat n ->
            match (l ++ [new]) !! Z.to_nat n with
            | Some p => take (Z.to_nat (nitems p)) (items p)
            | None => []
            end = [itemid]) as Hnewitems.
  { intros l Hl. rewrite lookup_app_r by lia. by rewrite Hl, Nat.sub_diag. }
  destruct Hcases as [(Hnone & Hlk & Hpages)|(h & ps & t & p & Hlook & Hlk & Hch & Hlast & Hp & Hcases)].
  - rewrite Hlk, Hpages. split_and!; try done.
    + rewrite lookup_insert_eq. by eexists.
    + intros k' h' Hk'. rewrite lookup_insert_ne; [done|]. intros ->. congruence.
    + intros k' h' Hk'. apply lookup_insert_Some in Hk' as [[-> _]|[_ Hk']]; eauto.
    + unfold len. rewrite length_app. cbn. unfold n, len. lia.
    + unfold len. rewrite length_app. cbn. unfold n, len. lia.
    + intros q Hq. left. by eapply page_items_prefix_app.
    + exists n. split; [unfold len; rewrite length_app; cbn; unfold n, len; lia|].
      unfold page_items. rewrite Hpages, Hnewitems; [done|unfold n, len; lia].
  - rewrite Hlk. destruct (ok_storage _ Hok _ _ Hp) as [_ Hpc Hpi].
    assert (0 <= t < n) as Ht.
    { pose proof (chain_pages _ _ _ Hch) as Hps. rewrite Forall_forall in Hps.
      apply Hps. by apply last_Some_elem_of. }
    split_and!; try done; try (by eexists); try (intros; by right).
    + destruct Hcases as [(_ & ->)|[(_ & _ & ->)|(_ & _ & ->)]]; unfold len;
        rewrite ?length_app, ?length_insert; cbn; unfold n, len; lia.
    + destruct Hcases as [(_ & ->)|[(_ & _ & ->)|(_ & _ & ->)]]; unfold len;
        rewrite ?length_app, ?length_insert; cbn; unfold n, len; lia.
    + intros q Hq.
      destruct Hcases as [(Hroom & Hpages)|[(Hfull & Hcap & Hpages)|(Hfull & Hcap & Hpages)]].
      * destruct (decide (q = t)) as [->|Hqt].
        -- right. unfold page_items. rewrite Hpages, Hp.
           rewrite list_lookup_insert_eq by (unfold n, len in Ht; lia).
           apply page_items_with. lia.
        -- left. apply page_items_same. rewrite Hpages.
           apply list_lookup_insert_ne. lia.
      * left. unfold page_items. rewrite Hpages.
        rewrite lookup_app_l by (rewrite length_insert; unfold n, len in Hq; lia).
        destruct (decide (q = t)) as [->|Hqt].
        -- rewrite list_lookup_insert_eq by (unfold n, len in Ht; lia). by rewrite Hp.
        -- by rewrite list_lookup_insert_ne by lia.
      * left. by eapply page_items_prefix_app.
    + destruct Hcases as [(Hroom & Hpages)|[(Hfull & Hcap & Hpages)|(Hfull & Hcap & Hpages)]].
      * exists t. split; [rewrite Hpages; unfold len; rewrite length_insert; apply Ht|].
        unfold page_items. rewrite Hpages.
        rewrite list_lookup_insert_eq by (unfold n, len in Ht; lia).
        rewrite page_items_with by lia. apply last_snoc.
      * exists n. split.
        { rewrite Hpages. unfold len. rewrite length_app, length_insert. cbn.
          unfold n, len. lia. }
        unfold page_items. rewrite Hpages, Hnewitems; [done|].
        rewrite length_insert. unfold n, len. lia.
      * exists n. split.
        { rewrite Hpages. unfold len. rewrite length_app. cbn. unfold n, len. lia. }
        unfold page_items. rewrite Hpages, Hnewitems; [done|unfold n, len; lia].
Qed.

(** *** Buckets after [Add] *)

Lemma bucket_functional (idx : Indexer F) k b b' :
  bucket idx k b -> bucket idx k b' -> b = b'.
Proof.
  intros (h & ps & Hk & Hch & ->) (h' & ps' & Hk' & Hch' & ->).
  assert (h' = h) as -> by congruence.
  by rewrite (chain_functional _ _ _ Hch _ Hch').
Qed.

(** X21.  [Add] does not touch the other buckets: in an index built by
    [NewIndexer] and [Add] calls, after one more [Add] every bucket
    other than that of the vector holds the items it held, in the same
    order. *)
Theorem Add_keeps_other_buckets seed bitsize vecsize ops itemid vec
    (idx idx' : Indexer F) k k' b :
  built growslice seed bitsize vecsize ops idx ->
  Indexer_Add growslice itemid vec idx = Val idx' ->
  len (pages (storage idx')) <= MaxPages ->
  Uint32 (GetBitVector (hyperplane idx) vec) = Val k ->
  k' <> k -> bucket idx k' b -> bucket idx' k' b.
Proof.
  intros Hbuilt Hadd Hmax Hk Hne (h' & ps' & Hk' & Hch' & ->).
  assert (len (pages (storage idx)) <= MaxPages) as Hmax0.
  { destruct (Indexer_Add_length _ _ _ _ _ Hadd) as (Hl & _). unfold len in *. lia. }
  pose proof (built_ok _ _ _ _ _ _ Hbuilt Hmax0) as Hok.
  pose proof (built_separated _ _ _ _ _ Hbuilt Hmax0) as Hsep.
  pose proof (chain_pages _ _ _ Hch') as Hps'. rewrite Forall_forall in Hps'.
  destruct (Indexer_Add_pages itemid vec idx idx' Hok Hadd)
    as (k0 & Hk0 & _ & _ & _ & _ & Hcases).
  assert (k0 = k) as -> by congruence.
  assert (lookup idx' !! k' = Some h' /\
          forall q, q ∈ ps' ->
            pages (storage idx') !! Z.to_nat q = pages (storage idx) !! Z.to_nat q)
    as [Hk'' Hsame].
  { destruct Hcases as [(Hnone & Hlk & Hpages)|(h & ps & t & p & Hlook & Hlk & Hch & Hlast & Hp & Hcases)].
    - split; [rewrite Hlk; by rewrite lookup_insert_ne|].
      intros q Hq. rewrite Hpages. apply lookup_app_l.
      specialize (Hps' q Hq). unfold len in Hps'. lia.
    - split; [by rewrite Hlk|]. intros q Hq.
      assert (q <> t) as Hqt.
      { intros ->.
        apply (chains_disjoint idx k k' h h' ps ps' Hsep Hlook Hk' (not_eq_sym Hne)
                 Hch Hch' t); [by apply last_Some_elem_of|done]. }
      specialize (Hps' q Hq).
      pose proof (chain_last_range _ _ _ _ Hch Hlast) as Ht.
      destruct Hcases as [(_ & ->)|[(_ & _ & ->)|(_ & _ & ->)]].
      + apply list_lookup_insert_ne. lia.
      + rewrite lookup_app_l by (rewrite length_insert; unfold len in Hps'; lia).
        apply list_lookup_insert_ne. lia.
      + apply lookup_app_l. unfold len in Hps'. lia. }
  destruct (chain_untouched _ (storage idx') _ _ Hch' Hsame) as [Hch'' Hitems].
  exists h', ps'. by rewrite Hitems.
Qed.

(** The bucket of the vector after [Add], on a well-formed index. *)
Lemma Add_bucket_cases itemid vec (idx idx' : Indexer F) k b :
  indexer_ok idx ->
  Indexer_Add growslice itemid vec idx = Val idx' ->
  len (pages (storage idx')) <= MaxPages ->
  Uint32 (GetBitVector (hyperplane idx) vec) = Val k ->
  bucket_items idx k b ->
  (~ link_lost idx k -> bucket idx' k (b ++ [itemid])) /\
  (link_lost idx k -> bucket idx' k b).
Proof.
  intros Hok Hadd Hmax Hk Hb.
  pose proof (ok_storage _ Hok) as Hst.
  destruct (Indexer_Add_pages itemid vec idx idx' Hok Hadd)
    as (k0 & Hk0 & _ & _ & _ & _ & Hcases).
  assert (k0 = k) as -> by congruence.
  destruct Hcases as [(Hnone & Hlk & Hpages)|(h & ps & t & p & Hlook & Hlk & Hch & Hlast & Hp & Hcases)].
  - assert (b = []) as ->.
    { destruct Hb as [(h & ps & Hlook & _)|[_ ->]]; [congruence|done]. }
    split.
    + intros _.
      destruct (pages_with_new_page itemid (storage idx) (storage idx') _ Hst eq_refl Hpages)
        as (_ & Hnew & Hchn & _).
      exists (len (pages (storage idx))), [len (pages (storage idx))].
      split_and!; [by rewrite Hlk, lookup_insert_eq|done|]. cbn. by rewrite Hnew.
    + intros (h & Hlook & _). congruence.
  - assert (b = concat (page_items (storage idx) <$> ps)) as ->.
    { destruct Hb as [Hb|[Hnone _]]; [|congruence].
      apply (bucket_functional idx k); [done|]. by exists h, ps. }
    assert (link_lost idx k <->
            nitems p = PageSize /\
            pages_cap (storage idx) <= len (pages (storage idx))) as Hlost.
    { split.
      - intros (h0 & Hlook0 & (ps0 & t0 & p0 & Hch0 & Hlast0 & Hp0 & Hfull) & Hcap).
        assert (h0 = h) as -> by congruence.
        rewrite (chain_functional _ _ _ Hch0 _ Hch) in Hlast0.
        assert (t0 = t) as -> by congruence. split; [congruence|done].
      - intros [Hfull Hcap]. exists h. split_and!; [done| |done].
        by exists ps, t, p. }
    rewrite Hlost.
    destruct Hcases as [(Hroom & Hpages)|[(Hfull & Hcap & Hpages)|(Hfull & Hcap & Hpages)]].
    + destruct (pages_with_room itemid _ (storage idx') h ps t p Hst Hch Hlast Hp Hroom Hpages)
        as (_ & Hch' & _ & _ & Hall).
      split; [|lia]. intros _. exists h, ps. by rewrite Hlk, Hall.
    + assert (len (pages (storage idx)) < MaxPages) as Hn.
      { rewrite Hpages in Hmax. unfold len in *.
        rewrite length_app, length_insert in Hmax. cbn in Hmax. lia. }
      destruct (pages_linked itemid _ (storage idx') h ps t p Hst Hch Hlast Hp Hn Hpages)
        as (_ & Hch' & _ & _ & Hall).
      split; [|lia]. intros _. exists h, (ps ++ [len (pages (storage idx))]).
      by rewrite Hlk, Hall.
    + destruct (pages_moved itemid _ (storage idx') Hst Hpages) as (_ & _ & Hchains).
      destruct (Hchains h ps Hch) as [Hch' Hall].
      split; [intros Hnot; exfalso; by apply Hnot|].
      intros _. exists h, ps. by rewrite Hlk, Hall.
Qed.

Lemma built_before_Add seed bitsize vecsize ops itemid vec (idx idx' : Indexer F) :
  built growslice seed bitsize vecsize ops idx ->
  Indexer_Add growslice itemid vec idx = Val idx' ->
  len (pages (storage idx')) <= MaxPages ->
  indexer_ok idx /\ indexer_ok idx' /\ len (pages (storage idx)) <= MaxPages.
Proof.
  intros Hbuilt Hadd Hmax.
  assert (len (pages (storage idx)) <= MaxPages) as Hmax0.
  { destruct (Indexer_Add_length _ _ _ _ _ Hadd) as (Hl & _). unfold len in *. lia. }
  pose proof (built_ok _ _ _ _ _ _ Hbuilt Hmax0) as Hok.
  split_and!; [done| |done]. by eapply Indexer_Add_ok.
Qed.

(** X22.  After [Add] to an index built by [NewIndexer] and [Add] calls,
    with at most [2^31] pages after it, the bucket of the vector holds
    the items it held followed by the new one, unless the insert loses
    its link: when the last page of the bucket is full and the slice of
    pages is at capacity, the bucket holds the items it held and not
    the new one. *)
Theorem Add_then_bucket seed bitsize vecsize ops itemid vec
    (idx idx' : Indexer F) k b :
  built growslice seed bitsize vecsize ops idx ->
  Indexer_Add growslice itemid vec idx = Val idx' ->
  len (pages (storage idx')) <= MaxPages ->
  Uint32 (GetBitVector (hyperplane idx) vec) = Val k ->
  bucket_items idx k b ->
  (~ link_lost idx k -> bucket idx' k (b ++ [itemid])) /\
  (link_lost idx k -> bucket idx' k b).
Proof.
  intros Hbuilt Hadd Hmax Hk Hb.
  destruct (built_before_Add _ _ _ _ _ _ _ _ Hbuilt Hadd Hmax) as (Hok & _ & _).
  by apply (Add_bucket_cases itemid vec idx idx' k b).
Qed.

End IndexLaws.

End index_laws.

(** ** [Search] and the bucket of the query *)

Module search_laws.
Import bitvector lsh bitvector_facts lsh_facts bitvector_order storage_laws index_laws.

(** ** The bucket of the query key is the first that [Search] visits *)

Lemma Hamming_wf_value n x y :
  wf_bits n x -> wf_bits n y -> Hamming x y = Val (xor_popcount (bits x) (bits y)).
Proof.
  intros [Hsx Hlx _] [Hsy Hly _]. rewrite Hamming_spec. cbv zeta.
  assert (ByteSize y = ByteSize x) as Hxy by (unfold ByteSize; congruence).
  unfold len in *. rewrite decide_True by lia. by rewrite !take_ge by lia.
Qed.

(** In a list of distances that do not decrease and are not negative, the
    key at distance 0, if it is there, comes first and the others are
    farther. *)
Lemma zero_distance_first (k : Z) ks : forall ds,
  NoDup ks -> Sorted Z.le ds ->
  Forall2 (fun k' d => 0 <= d /\ (d = 0 <-> k' = k)) ks ds ->
  (k ∈ ks -> exists ks' ds', ks = k :: ks' /\ ds = 0 :: ds' /\ Forall (fun d => 0 < d) ds') /\
  (k ∉ ks -> Forall (fun d => 0 < d) ds).
Proof.
  intros ds Hnd Hs Hds.
  assert (forall ks ds, Forall2 (fun k' d => 0 <= d /\ (d = 0 <-> k' = k)) ks ds ->
            k ∉ ks -> Forall (fun d => 0 < d) ds) as Hpos.
  { clear. induction 1 as [|k' d ks ds [Hd Hz] Hds IH]; intros Hk; [constructor|].
    apply not_elem_of_cons in Hk as [Hne Hk]. constructor; [|by apply IH].
    destruct (decide (d = 0)) as [->|]; [|lia]. exfalso. apply Hne. symmetry. by apply Hz. }
  split; [|by apply (Hpos ks ds)].
  intros Hk. destruct Hds as [|k0 d0 ks ds [Hd0 Hz0] Hds]; [by apply elem_of_nil in Hk|].
  apply NoDup_cons in Hnd as [Hk0 Hnd].
  apply Sorted_StronglySorted in Hs; [|intros ???; lia].
  apply StronglySorted_inv in Hs as [_ Hle].
  assert (k0 = k) as ->.
  { apply elem_of_cons in Hk as [->|Hk]; [done|].
    apply Hz0. apply list_elem_of_lookup in Hk as [i Hi].
    destruct (Forall2_lookup_l _ _ _ _ _ Hds Hi) as (d & Hdi & _ & Hz).
    assert (d = 0) as -> by by apply Hz.
    rewrite Forall_forall in Hle. specialize (Hle 0 (list_elem_of_lookup_2 _ _ _ Hdi)). lia. }
  assert (d0 = 0) as -> by by apply Hz0.
  exists ks, ds. split_and!; [done|done|by apply (Hpos ks ds)].
Qed.

Section SearchLaws.
Context {F : Type} `{DistanceOk F} {vectorgen : VectorGen F}.

(** The distance of a key of the table from the query key: 0 for the key
    of the query itself, positive for every other. *)
Lemma key_distance (idx : Indexer F) vec k k' :
  indexer_ok idx ->
  Uint32 (GetBitVector (hyperplane idx) vec) = Val k ->
  is_Some (lookup idx !! k') ->
  exists d, Hamming (GetBitVector (hyperplane idx) vec) (FromUint32 k' (bitsize idx)) = Val d /\
            0 <= d /\ (d = 0 <-> k' = k).
Proof.
  intros Hok Hk Hk'. set (key := GetBitVector (hyperplane idx) vec) in *.
  assert (wf_bits (bitsize idx) key) as Hkey.
  { rewrite <- (ok_hyperplane _ Hok). apply GetBitVector_wf. }
  assert (wf_bits (bitsize idx) (FromUint32 k' (bitsize idx))) as Hthis.
  { apply wf_FromUint32. apply Hok. }
  pose proof (ok_bitsize _ Hok) as Hbits.
  eexists. split; [by apply (Hamming_wf_value (bitsize idx))|].
  split; [apply xor_popcount_bounds|].
  assert (length (bits key) = length (bits (FromUint32 k' (bitsize idx)))) as Hlen.
  { destruct Hkey as [Hs1 Hl1 _], Hthis as [Hs2 Hl2 _]. unfold len, ByteSize in *.
    rewrite Hs1 in Hl1. rewrite Hs2 in Hl2. lia. }
  rewrite xor_popcount_zero; [|apply Hkey|apply Hthis|done].
  split.
  - intros Hsame.
    assert (FromUint32 k' (bitsize idx) = key) as Heq.
    { destruct key as [sz bs]. destruct Hkey as [Hsz _ _]. cbn in *. subst sz.
      unfold FromUint32 in *. cbn in Hsame. by rewrite <- Hsame. }
    pose proof (ok_keys _ Hok k' Hk') as Hu. rewrite Heq, Hk in Hu. congruence.
  - intros ->. by rewrite (FromUint32_of_Uint32 _ _ _ Hkey (proj2 Hbits) Hk).
Qed.

(** The keys of a search order, with their buckets and distances. *)
Lemma search_order_ranked (idx : Indexer F) vec lkeys k :
  indexer_ok idx -> search_order idx vec lkeys ->
  Uint32 (GetBitVector (hyperplane idx) vec) = Val k ->
  exists ks bs ds,
    lkeys = lkeys_of idx ks /\ NoDup ks /\
    (forall k', k' ∈ ks <-> is_Some (lookup idx !! k')) /\
    Forall2 (bucket idx) ks bs /\
    Forall2 (fun x d => Hamming (GetBitVector (hyperplane idx) vec) x = Val d)
      (lkeys_of idx ks) ds /\
    Sorted Z.le ds /\
    Forall2 (fun k' d => 0 <= d /\ (d = 0 <-> k' = k)) ks ds.
Proof.
  intros Hok Horder Hk.
  destruct (search_order_keys _ _ _ Horder) as (ks & -> & Hperm & Hks).
  destruct (buckets_exist idx ks Hok Hks) as [bs Hbs].
  assert (exists ds,
    Forall2 (fun x d => Hamming (GetBitVector (hyperplane idx) vec) x = Val d)
      (lkeys_of idx ks) ds /\
    Forall2 (fun k' d => 0 <= d /\ (d = 0 <-> k' = k)) ks ds) as (ds & Hds & Hz).
  { clear Hperm Hbs Horder. induction Hks as [|k' ks Hk' Hks (ds & Hds & Hz)]; [by exists []|].
    destruct (key_distance idx vec k k' Hok Hk Hk') as (d & Hd & Hd0 & Hdz).
    exists (d :: ds). split; by constructor. }
  exists ks, bs, ds. split_and!; try done.
  - rewrite Hperm. apply NoDup_fst_map_to_list.
  - intros k'. rewrite Hperm. rewrite list_elem_of_fmap. split.
    + intros ([k0 h] & -> & Hin). apply elem_of_map_to_list in Hin. by exists h.
    + intros [h Hh]. exists (k', h). split; [done|]. by apply elem_of_map_to_list.
  - destruct Horder as [_ Hs]. by eapply sorted_distances.
Qed.

(** The first step of the loop of [Search] at the bucket of the query
    key. *)
Lemma Search_loop_own_bucket (idx : Indexer F) key limit k b lkeys :
  indexer_ok idx -> bucket idx k b ->
  Hamming key (FromUint32 k (bitsize idx)) = Val 0 ->
  Search_loop idx key limit (FromUint32 k (bitsize idx) :: lkeys) 0 [] =
  Search_loop idx key limit lkeys 0 b.
Proof.
  intros Hok (h & ps & Hlook & Hch & ->) Hd. cbn [Search_loop]. rewrite Hd. cbn.
  rewrite (ok_keys _ Hok k) by eauto. cbn. rewrite Hlook. cbn.
  by rewrite (drain_spec _ _ _ _ (ok_storage _ Hok) Hch).
Qed.

(** The loop stops at a bucket that is farther than the last one once it
    holds [limit] items. *)
Lemma Search_loop_stops (idx : Indexer F) key limit lkeys lastdist items :
  limit <= len items ->
  match lkeys with
  | [] => True
  | x :: _ => exists d, Hamming key x = Val d /\ d <> lastdist
  end ->
  Search_loop idx key limit lkeys lastdist items = Val items.
Proof.
  intros Hlimit Hfar. destruct lkeys as [|x lkeys]; [done|].
  destruct Hfar as (d & Hd & Hne). cbn [Search_loop]. rewrite Hd. cbn.
  destruct (Z.eqb_spec lastdist d); [congruence|].
  destruct (Z.leb_spec limit (len items)); [done|lia].
Qed.

(** The bucket of the query key is drained first, in every order in
    which [Search] can visit the buckets. *)
Lemma Search_own_bucket_first (idx : Indexer F) vec limit k b :
  indexer_ok idx -> 0 <= limit -> 8 * limit <= maxAlloc ->
  Uint32 (GetBitVector (hyperplane idx) vec) = Val k ->
  bucket idx k b ->
  (exists rest, Search vec limit idx = Val (b ++ rest)) /\
  (forall lkeys, search_order idx vec lkeys ->
     exists rest, Search_sorted lkeys idx vec limit = Val (b ++ rest)).
Proof.
  intros Hok Hlimit Hfits Hk Hb.
  assert (forall lkeys, search_order idx vec lkeys ->
     exists rest, Search_sorted lkeys idx vec limit = Val (b ++ rest)) as Hall.
  { intros lkeys Horder.
    destruct (search_order_ranked idx vec lkeys k Hok Horder Hk)
      as (ks & bs & ds & -> & Hnd & Hin & Hbs & Hds & Hs & Hz).
    destruct (zero_distance_first k ks ds Hnd Hs Hz) as [Hfirst _].
    destruct Hfirst as (ks' & ds' & -> & -> & Hpos).
    { apply Hin. destruct Hb as (h & ps & Hlook & _). by exists h. }
    apply Forall2_cons_inv_l in Hbs as (b0 & bs' & Hb0 & Hbs & ->).
    assert (b0 = b) as -> by by eapply bucket_functional.
    cbn in Hds. apply Forall2_cons in Hds as [Hd Hds].
    rewrite Search_sorted_in_range by done.
    cbn [lkeys_of map]. rewrite (Search_loop_own_bucket idx _ limit k b _ Hok Hb Hd).
    destruct (Search_loop_spec idx (GetBitVector (hyperplane idx) vec) limit Hok
                ks' bs' ds' 0 b Hbs Hds) as (n & _ & Hloop & _).
    exists (collected bs' n). exact Hloop. }
  split; [|done].
  destruct (Search_returns idx vec limit Hok Hlimit Hfits)
    as (lkeys & r & Horder & Hr & Hr').
  destruct (Hall lkeys Horder) as [rest Hrest]. exists rest. congruence.
Qed.

(** With the limit 0 the search stops after the bucket of the query key,
    or at once when there is no such bucket, in every order in which
    it can visit the buckets. *)
Lemma Search_sorted_limit_0 (idx : Indexer F) vec k lkeys :
  indexer_ok idx ->
  Uint32 (GetBitVector (hyperplane idx) vec) = Val k ->
  search_order idx vec lkeys ->
  (forall b, bucket idx k b -> Search_sorted lkeys idx vec 0 = Val b) /\
  (lookup idx !! k = None -> Search_sorted lkeys idx vec 0 = Val []).
Proof.
  intros Hok Hk Horder.
  destruct (search_order_ranked idx vec lkeys k Hok Horder Hk)
    as (ks & bs & ds & -> & Hnd & Hin & Hbs & Hds & Hs & Hz).
  destruct (zero_distance_first k ks ds Hnd Hs Hz) as [Hfirst Hnone].
  rewrite Search_sorted_in_range by (unfold maxAlloc; lia).
  split.
  - intros b Hb. destruct Hfirst as (ks' & ds' & -> & -> & Hpos).
    { apply Hin. destruct Hb as (h & ps & Hlook & _). by exists h. }
    apply Forall2_cons_inv_l in Hbs as (b0 & bs' & Hb0 & Hbs & ->).
    cbn in Hds. apply Forall2_cons in Hds as [Hd Hds].
    cbn [lkeys_of map]. rewrite (Search_loop_own_bucket idx _ 0 k b _ Hok Hb Hd).
    apply Search_loop_stops; [unfold len; lia|].
    destruct Hds as [|x d xs ds' Hx Hds]; [done|].
    apply Forall_cons in Hpos as [Hpos _]. exists d. split; [done|lia].
  - intros Hlook.
    assert (k ∉ ks) as Hnot. { rewrite Hin, Hlook. by intros [? ?]. }
    specialize (Hnone Hnot).
    apply Search_loop_stops; [done|].
    destruct Hds as [|x d xs ds' Hx Hds]; [done|].
    apply Forall_cons in Hnone as [Hpos _]. exists d. split; [done|lia].
Qed.

(** The same for [Search] as it is computed and for every order. *)
Lemma Search_limit_0 (idx : Indexer F) vec k r :
  indexer_ok idx ->
  Uint32 (GetBitVector (hyperplane idx) vec) = Val k ->
  (forall lkeys, search_order idx vec lkeys ->
     Search_sorted lkeys idx vec 0 = Val r) ->
  Search vec 0 idx = Val r.
Proof.
  intros Hok Hk Hall.
  destruct (Search_returns idx vec 0 Hok) as (lkeys & r' & Horder & -> & Hr);
    [lia|unfold maxAlloc; lia|].
  by rewrite <- Hr, (Hall lkeys Horder).
Qed.

Variable growslice : Z -> Z.

(** X23.  [Search] returns the whole bucket of the query vector first: in
    an index built by [NewIndexer] and [Add] calls with at most [2^31]
    pages, for every limit that is not negative and for which the
    result slice can be made (its [limit] elements of 8 bytes within
    [maxAlloc]), the result of [Search] begins with the items of the
    bucket whose key is the hash of the query, whatever the order in
    which the buckets at the same distance are visited. *)
Theorem Search_starts_with_own_bucket seed bitsize vecsize ops
    (idx : Indexer F) vec limit k b :
  built growslice seed bitsize vecsize ops idx ->
  len (pages (storage idx)) <= MaxPages ->
  0 <= limit -> 8 * limit <= maxAlloc ->
  Uint32 (GetBitVector (hyperplane idx) vec) = Val k ->
  bucket idx k b ->
  (exists rest, Search vec limit idx = Val (b ++ rest)) /\
  (forall lkeys, search_order idx vec lkeys ->
     exists rest, Search_sorted lkeys idx vec limit = Val (b ++ rest)).
Proof.
  intros Hbuilt Hmax Hlimit Hfits Hk Hb.
  apply (Search_own_bucket_first idx vec limit k b); [|done|done|done|done].
  by eapply built_ok.
Qed.

(** X24.  [Search] with the limit 0 is the exact-match lookup: in an index
    built by [NewIndexer] and [Add] calls with at most [2^31] pages, the
    result is the bucket whose key is the hash of the query, and it is
    empty when the table has no such key -- for [Search] as it is
    computed and in every order in which it can visit the buckets. *)
Theorem Search_limit_0_exact_match seed bitsize vecsize ops (idx : Indexer F) vec k :
  built growslice seed bitsize vecsize ops idx ->
  len (pages (storage idx)) <= MaxPages ->
  Uint32 (GetBitVector (hyperplane idx) vec) = Val k ->
  (forall b, bucket idx k b ->
     Search vec 0 idx = Val b /\
     forall lkeys, search_order idx vec lkeys ->
       Search_sorted lkeys idx vec 0 = Val b) /\
  (lookup idx !! k = None ->
     Search vec 0 idx = Val [] /\
     forall lkeys, search_order idx vec lkeys ->
       Search_sorted lkeys idx vec 0 = Val []).
Proof.
  intros Hbuilt Hmax Hk.
  pose proof (built_ok _ _ _ _ _ _ Hbuilt Hmax) as Hok.
  split.
  - intros b Hb.
    assert (forall lkeys, search_order idx vec lkeys ->
              Search_sorted lkeys idx vec 0 = Val b) as Hall.
    { intros lkeys Horder.
      by apply (Search_sorted_limit_0 idx vec k lkeys Hok Hk Horder). }
    split; [|done]. by apply (Search_limit_0 idx vec k).
  - intros Hnone.
    assert (forall lkeys, search_order idx vec lkeys ->
              Search_sorted lkeys idx vec 0 = Val []) as Hall.
    { intros lkeys Horder.
      by apply (Search_sorted_limit_0 idx vec k lkeys Hok Hk Horder). }
    split; [|done]. by apply (Search_limit_0 idx vec k).
Qed.


End SearchLaws.

End search_laws.

(** ** [Dump], and inserts that return *)

Module dump_laws.
Import bitvector lsh bitvector_facts lsh_facts storage_laws index_laws.

(** ** [Dump] *)

Lemma mapM_res_Forall2 {A B : Type} (f : A -> res B) l : forall r,
  mapM f l = Val r -> Forall2 (fun x y => f x = Val y) l r.
Proof.
  induction l as [|x l IH]; intros r Hr; cbn in Hr.
  - injection Hr as <-. constructor.
  - apply res_bind_Val in Hr as (y & Hy & Hr).
    apply res_bind_Val in Hr as (ys & Hys & Hr). injection Hr as <-.
    constructor; [done|by apply IH].
Qed.

Lemma page_items_length s q p :
  storage_ok s -> pages s !! Z.to_nat q = Some p ->
  len (page_items s q) = nitems p.
Proof.
  intros Hok Hp. destruct (Hok _ _ Hp) as [_ Hn Hi].
  unfold page_items. rewrite Hp. unfold len in *. rewrite length_take. lia.
Qed.

(** The inner loop of [Dump] over a chain: the counts of its pages summed
    and their numbers listed. *)
Lemma count_over_chain s ps : forall n l,
  storage_ok s ->
  Forall (fun q => 0 <= q < len (pages s)) ps ->
  over_chain s ps
    (fun (a : Z * list Z) it =>
       page ← iter_page s it;
       pg ← load page s;
       mret (a.1 + Page_CountItems pg, a.2 ++ [iter_pageno it])) (n, l) =
  Val (n + len (concat (page_items s <$> ps)), l ++ ps).
Proof.
  intros n l Hok Hps. revert n l.
  induction Hps as [|q ps Hq Hps IH]; intros n l; cbn [over_chain fmap list_fmap concat].
  - rewrite app_nil_r. do 2 f_equal. unfold len. cbn. lia.
  - change (iter_page s (iter_at s q)) with (getPage q s).
    destruct (lookup_in_range _ _ Hq) as [p Hp].
    rewrite (getPage_lookup _ _ _ (proj1 Hq) Hp). cbn.
    rewrite (load_current _ _ _ (proj1 Hq) Hp). cbn.
    etrans; [apply IH|]. unfold Page_CountItems, iter_pageno. cbn.
    rewrite <- (page_items_length s q p Hok Hp).
    unfold len. rewrite length_app, <- app_assoc. cbn. do 2 f_equal. lia.
Qed.

Section DumpLaws.
Context {F : Type} `{DistanceOk F} {vectorgen : VectorGen F}.

(** The line of [Dump] for a key of the table. *)
Lemma Dump_line_spec (idx : Indexer F) k h ps line :
  indexer_ok idx -> lookup idx !! k = Some h -> chain (storage idx) h ps ->
  Dump_line idx k = Val line ->
  dump_key line = k /\ dump_pages line = ps /\
  dump_nitems line = len (concat (page_items (storage idx) <$> ps)) /\
  String_ (FromUint32 k (bitsize idx)) = Val (dump_bits line).
Proof.
  intros Hok Hk Hch. unfold Dump_line.
  rewrite (Uint32_range _ _ (ok_keys _ Hok k (mk_is_Some _ _ Hk))). rewrite Hk. cbn.
  rewrite (for_pages_fuel_of _ _ _ _ _ (ok_storage _ Hok) Hch).
  rewrite (count_over_chain _ _ 0 [] (ok_storage _ Hok) (chain_pages _ _ _ Hch)). cbn.
  intros Hline. apply res_bind_Val in Hline as (str & Hstr & Hline).
  injection Hline as <-. by cbn.
Qed.

Variable growslice : Z -> Z.

(** X26.  [Dump] of an index built by [NewIndexer] and [Add] calls that
    holds at most [2^31] pages returns one line for each key of the
    lookup table, in ascending order of
    the keys; the line of a key holds the rendering of the key as a bit
    vector, the page numbers of the chain of its bucket and the number
    of items that the bucket holds.  The totals are the sum of these
    numbers and the number of keys. *)
Theorem Dump_reports_buckets seed bitsize vecsize ops (idx : Indexer F) :
  built growslice seed bitsize vecsize ops idx ->
  len (pages (storage idx)) <= MaxPages ->
  exists lines,
    Dump idx = Val (lines, (foldr Z.add 0 (dump_nitems <$> lines),
                            Z.of_nat (base.size (lookup idx)))) /\
    dump_key <$> lines ≡ₚ (map_to_list (lookup idx)).*1 /\
    Sorted Z.le (dump_key <$> lines) /\
    Forall (fun line =>
      exists h b,
        lookup idx !! dump_key line = Some h /\
        chain (storage idx) h (dump_pages line) /\
        bucket idx (dump_key line) b /\
        dump_nitems line = len b /\
        String_ (FromUint32 (dump_key line) (lsh.bitsize idx)) = Val (dump_bits line))
      lines.
Proof.
  intros Hbuilt Hmax. pose proof (built_ok _ _ _ _ _ _ Hbuilt Hmax) as Hok.
  destruct (Dump_Val idx Hok) as [[lines totals] Hdump].
  unfold Dump in Hdump. apply res_bind_Val in Hdump as (lines' & Hlines & Hdump).
  injection Hdump as <- <-. exists lines'.
  apply mapM_res_Forall2 in Hlines.
  set (keys := merge_sort Z.le (map_to_list (lookup idx)).*1) in *.
  assert (Forall2 (fun k line =>
            dump_key line = k /\
            exists h b,
              lookup idx !! dump_key line = Some h /\
              chain (storage idx) h (dump_pages line) /\
              bucket idx (dump_key line) b /\
              dump_nitems line = len b /\
              String_ (FromUint32 (dump_key line) (lsh.bitsize idx)) = Val (dump_bits line))
            keys lines') as Hall.
  { assert (Forall (fun k => is_Some (lookup idx !! k)) keys) as Hin.
    { apply Forall_forall. intros k Hkin.
      unfold keys in Hkin. rewrite merge_sort_Permutation in Hkin.
      apply list_elem_of_fmap in Hkin as ([k' h] & -> & Hkin).
      apply elem_of_map_to_list in Hkin. by exists h. }
    clearbody keys. induction Hlines as [|k line ks ls Hline _ IH]; [constructor|].
    apply Forall_cons in Hin as [[h Hk] Hin]. constructor; [|by apply IH].
    destruct (chain_of_head _ h (ok_storage _ Hok) (ok_heads _ Hok _ _ Hk))
      as (ps & Hch & _).
    destruct (Dump_line_spec idx k h ps line Hok Hk Hch Hline) as (Hkey & Hpages & Hn & Hstr).
    split; [done|]. exists h, (concat (page_items (storage idx) <$> ps)).
    rewrite Hkey, Hpages. split_and!; try done. by exists h, ps. }
  assert (dump_key <$> lines' = keys) as Hkeys.
  { clear -Hall. induction Hall as [|k line ks ls [Hk _] _ IH]; [done|]. cbn.
    rewrite Hk. f_equal. exact IH. }
  split_and!.
  - unfold Dump. fold keys.
    assert (mapM (Dump_line idx) keys = Val lines') as ->.
    { clear -Hlines. clearbody keys.
      induction Hlines as [|k line ks ls Hl _ IH]; [done|].
      cbn. rewrite Hl. cbn. by rewrite IH. }
    cbn. do 3 f_equal. unfold len, keys.
    by rewrite merge_sort_Permutation, length_fmap, length_map_to_list.
  - rewrite Hkeys. apply merge_sort_Permutation.
  - rewrite Hkeys. apply (Sorted_merge_sort Z.le).
  - apply Forall_forall. intros line Hline.
    apply list_elem_of_lookup in Hline as [i Hi].
    destruct (Forall2_lookup_r _ _ _ _ _ Hall Hi) as (k & _ & _ & Hline). exact Hline.
Qed.

(** A run of [Add] calls that has room for one page each returns, and
    adds at most one page for each call. *)
Lemma run_within_pages (ops : list (Z * list F)) : forall idx : Indexer F,
  indexer_ok idx -> 1 <= lsh.bitsize idx ->
  len (pages (storage idx)) + len ops <= MaxPages ->
  exists idx', run growslice ops idx = Val idx' /\ indexer_ok idx' /\
               len (pages (storage idx')) <= len (pages (storage idx)) + len ops.
Proof.
  induction ops as [|[itemid vec] ops IH]; intros idx Hok Hbit Hmax; cbn [run].
  - exists idx. split_and!; [done|done|]. unfold len. cbn. lia.
  - destruct (Indexer_Add_returns growslice itemid vec idx Hok Hbit) as (idx1 & Hadd & Hlen).
    rewrite Hadd. cbn. unfold len in Hmax. cbn [length] in Hmax.
    destruct (IH idx1) as (idx' & Hrun & Hok' & Hlen').
    + eapply Indexer_Add_ok; [done|done|]. unfold len in *. lia.
    + by destruct (Indexer_Add_length _ _ _ _ _ Hadd) as (_ & -> & _).
    + unfold len in *. lia.
    + exists idx'. split_and!; [done|done|]. unfold len in *. cbn [length]. lia.
Qed.


End DumpLaws.

End dump_laws.

(** ** The properties at the indexes of the scenarios *)

Module examples.
Import bitvector lsh bitvector_facts lsh_facts instance scenarios.
Import storage_laws index_laws search_laws dump_laws.

(** ** The laws at the indexes of the scenarios *)

Lemma index3_ok : indexer_ok index3.
Proof. exact (built_ok gc_growslice 0 4 3 ops3 index3 index3_built index3_pages). Qed.

Lemma index3_chains :
  chain (storage index3) 0 [0] /\ chain (storage index3) 1 [1].
Proof.
  split.
  - apply (chain_step _ 0 (default zeroPage (pages (storage index3) !! 0%nat)) []);
      [lia|by vm_compute|].
    assert (link (default zeroPage (pages (storage index3) !! 0%nat)) = -1) as ->
      by by vm_compute.
    constructor.
  - apply (chain_step _ 1 (default zeroPage (pages (storage index3) !! 1%nat)) []);
      [lia|by vm_compute|].
    assert (link (default zeroPage (pages (storage index3) !! 1%nat)) = -1) as ->
      by by vm_compute.
    constructor.
Qed.

Lemma index3_buckets : bucket index3 0 [1] /\ bucket index3 15 [2].
Proof.
  destruct index3_chains as [Hc0 Hc1]. split.
  - exists 0, [0]. split_and!; [by vm_compute|done|by vm_compute].
  - exists 1, [1]. split_and!; [by vm_compute|done|by vm_compute].
Qed.

Lemma index3_add_Val : Indexer_Add gc_growslice 4 [1; 1; 1] index3 = Val index3_add.
Proof. by vm_compute. Qed.

Lemma index3_add_pages : len (pages (storage index3_add)) <= MaxPages.
Proof. vm_compute. discriminate. Qed.

Lemma index3_key : Uint32 (GetBitVector (hyperplane index3) [1; 1; 1]) = Val 0.
Proof. by vm_compute. Qed.

Lemma index1023_built : built gc_growslice 0 4 3 (same_vec 1023 [1; 1; 1]) index1023.
Proof. by vm_compute. Qed.

Lemma index1023_pages : len (pages (storage index1023)) < MaxPages.
Proof. by vm_compute. Qed.

Lemma index1023_ok : indexer_ok index1023.
Proof.
  apply (built_ok gc_growslice 0 4 3 (same_vec 1023 [1; 1; 1]) index1023 index1023_built).
  pose proof index1023_pages. lia.
Qed.

Lemma index1023_chain : chain (storage index1023) 0 [0].
Proof.
  apply (chain_step _ 0 (default zeroPage (pages (storage index1023) !! 0%nat)) []);
    [lia|by vm_compute|].
  assert (link (default zeroPage (pages (storage index1023) !! 0%nat)) = -1) as ->
    by by vm_compute.
  constructor.
Qed.

Lemma Storage_Add_to_page_with_room_witness :
  exists s' got,
    Storage_Add gc_growslice 4 0 (storage index3) = Val (0, s') /\
    len (pages s') = len (pages (storage index3)) /\
    storage_ok s' /\
    chain s' 0 [0] /\
    page_items s' 0 = page_items (storage index3) 0 ++ [4] /\
    (forall q, 0 <= q -> q <> 0 -> page_items s' q = page_items (storage index3) q) /\
    drain (storage index3) 0 [] = Val got /\
    drain s' 0 [] = Val (got ++ [4]).
Proof.
  apply (Storage_Add_to_page_with_room gc_growslice 4 0 (storage index3) [0] 0
           (default zeroPage (pages (storage index3) !! 0%nat))).
  - exact (ok_storage _ index3_ok).
  - exact (proj1 index3_chains).
  - reflexivity.
  - vm_compute. reflexivity.
  - vm_compute. reflexivity.
Defined.

Lemma Storage_Add_to_full_page_witness :
  exists s' got,
    Storage_Add gc_growslice 1024 0 (storage index1023) =
      Val (len (pages (storage index1023)), s') /\
    len (pages s') = len (pages (storage index1023)) + 1 /\
    storage_ok s' /\
    page_items s' (len (pages (storage index1023))) = [1024] /\
    (forall q, 0 <= q < len (pages (storage index1023)) ->
       page_items s' q = page_items (storage index1023) q) /\
    chain s' (len (pages (storage index1023))) [len (pages (storage index1023))] /\
    drain (storage index1023) 0 [] = Val got /\
    (len (pages (storage index1023)) < pages_cap (storage index1023) ->
     chain s' 0 ([0] ++ [len (pages (storage index1023))]) /\
     drain s' 0 [] = Val (got ++ [1024])) /\
    (pages_cap (storage index1023) <= len (pages (storage index1023)) ->
     chain s' 0 [0] /\ drain s' 0 [] = Val got).
Proof.
  apply (Storage_Add_to_full_page gc_growslice 1024 0 (storage index1023) [0] 0
           (default zeroPage (pages (storage index1023) !! 0%nat))).
  - exact (ok_storage _ index1023_ok).
  - exact index1023_chain.
  - reflexivity.
  - vm_compute. reflexivity.
  - vm_compute. reflexivity.
  - exact index1023_pages.
Defined.

Lemma Add_extends_lookup_witness :
  exists k,
    Uint32 (GetBitVector (hyperplane index3) [1; 1; 1]) = Val k /\
    is_Some (lookup index3_add !! k) /\
    (forall k' h, lookup index3 !! k' = Some h -> lookup index3_add !! k' = Some h) /\
    (forall k' h, lookup index3_add !! k' = Some h ->
       k' = k \/ lookup index3 !! k' = Some h) /\
    seed index3_add = seed index3 /\ bitsize index3_add = bitsize index3 /\
    vecsize index3_add = vecsize index3 /\ hyperplane index3_add = hyperplane index3 /\
    len (pages (storage index3)) <= len (pages (storage index3_add))
      <= len (pages (storage index3)) + 1 /\
    (forall q, 0 <= q < len (pages (storage index3)) ->
       page_items (storage index3_add) q = page_items (storage index3) q \/
       page_items (storage index3_add) q = page_items (storage index3) q ++ [4]) /\
    (exists q, 0 <= q < len (pages (storage index3_add)) /\
       last (page_items (storage index3_add) q) = Some 4).
Proof.
  apply (Add_extends_lookup gc_growslice 0 4 3 ops3 4 [1; 1; 1] index3 index3_add
           index3_built index3_pages index3_add_Val).
Defined.

Lemma Add_keeps_other_buckets_witness :
  bucket index3 15 [2] /\ bucket index3_add 15 [2].
Proof.
  split; [exact (proj2 index3_buckets)|].
  apply (Add_keeps_other_buckets gc_growslice 0 4 3 ops3 4 [1; 1; 1] index3 index3_add
           0 15 [2] index3_built index3_add_Val index3_add_pages index3_key).
  - lia.
  - exact (proj2 index3_buckets).
Defined.

Lemma Add_then_bucket_witness :
  (~ link_lost index3 0 -> bucket index3_add 0 ([1] ++ [4])) /\
  (link_lost index3 0 -> bucket index3_add 0 [1]).
Proof.
  apply (Add_then_bucket gc_growslice 0 4 3 ops3 4 [1; 1; 1] index3 index3_add
           0 [1] index3_built index3_add_Val index3_add_pages index3_key).
  left. exact (proj1 index3_buckets).
Defined.

Lemma Search_starts_with_own_bucket_witness :
  (exists rest, Search [1; 1; 1] 5 index3 = Val ([1] ++ rest)) /\
  (forall lkeys, search_order index3 [1; 1; 1] lkeys ->
     exists rest, Search_sorted lkeys index3 [1; 1; 1] 5 = Val ([1] ++ rest)).
Proof.
  apply (Search_starts_with_own_bucket gc_growslice 0 4 3 ops3 index3 [1; 1; 1] 5 0 [1]
           index3_built index3_pages).
  - lia.
  - unfold maxAlloc. lia.
  - exact index3_key.
  - exact (proj1 index3_buckets).
Defined.

Lemma Search_limit_0_exact_match_witness :
  (forall b, bucket index3 0 b ->
     Search [1; 1; 1] 0 index3 = Val b /\
     forall lkeys, search_order index3 [1; 1; 1] lkeys ->
       Search_sorted lkeys index3 [1; 1; 1] 0 = Val b) /\
  (lookup index3 !! 0 = None ->
     Search [1; 1; 1] 0 index3 = Val [] /\
     forall lkeys, search_order index3 [1; 1; 1] lkeys ->
       Search_sorted lkeys index3 [1; 1; 1] 0 = Val []).
Proof.
  apply (Search_limit_0_exact_match gc_growslice 0 4 3 ops3 index3 [1; 1; 1] 0
           index3_built index3_pages index3_key).
Defined.


Lemma Dump_reports_buckets_witness :
  exists lines,
    Dump index3 = Val (lines, (foldr Z.add 0 (dump_nitems <$> lines),
                               Z.of_nat (base.size (lookup index3)))) /\
    dump_key <$> lines ≡ₚ (map_to_list (lookup index3)).*1 /\
    Sorted Z.le (dump_key <$> lines) /\
    Forall (fun line =>
      exists h b,
        lookup index3 !! dump_key line = Some h /\
        chain (storage index3) h (dump_pages line) /\
        bucket index3 (dump_key line) b /\
        dump_nitems line = len b /\
        String_ (FromUint32 (dump_key line) (bitsize index3)) = Val (dump_bits line))
      lines.
Proof.
  apply (Dump_reports_buckets gc_growslice 0 4 3 ops3 index3 index3_built index3_pages).
Defined.


(** The limits at which [Search] cannot make its result slice: [1 << 46]
    on the index of three buckets and [1 << 62] on the index without
    buckets, as for a negative limit. *)
Lemma Search_beyond_allocator :
  Search [1; 1; 1] (2 ^ 46) index3 = Fault MakeOutOfRange /\
  Search [1; 1; 1] (2 ^ 62) index0 = Fault MakeOutOfRange.
Proof. split; by vm_compute. Qed.

End examples.

(** * Beyond the page numbers of the links *)

Module beyond_int32.
Import bitvector lsh bitvector_facts lsh_facts instance scenarios.
Import storage_laws index_laws.

(** ** Page numbers beyond [int32] *)

Section Growth.
Variable growslice : Z -> Z.

Lemma Storage_Adds_app ids1 : forall ids2 h s,
  Storage_Adds growslice (ids1 ++ ids2) h s =
  (s1 ← Storage_Adds growslice ids1 h s; Storage_Adds growslice ids2 h s1).
Proof.
  induction ids1 as [|i ids1 IH]; intros ids2 h s; [done|].
  cbn [app Storage_Adds].
  destruct (Storage_Add growslice i h s) as [[pn s']|f]; [|done]. cbn. apply IH.
Qed.

(** Inserts into the chain that starts at [h] fill its last page and add
    no page. *)
Lemma Storage_Adds_fill (r : nat) : forall ids h s ps t p,
  storage_ok s -> chain s h ps -> last ps = Some t ->
  pages s !! Z.to_nat t = Some p -> nitems p + Z.of_nat r = PageSize ->
  length ids = r ->
  exists s', Storage_Adds growslice ids h s = Val s' /\
             storage_ok s' /\ tail_full s' h /\
             len (pages s') = len (pages s) /\ pages_cap s' = pages_cap s.
Proof.
  induction r as [|r IH]; intros ids h s ps t p Hok Hch Hlast Hp Hr Hids.
  - destruct ids; [|done]. exists s. split_and!; try done.
    exists ps, t, p. split_and!; [done|done|done|lia].
  - destruct ids as [|i ids]; [done|]. injection Hids as Hids. cbn [Storage_Adds].
    rewrite (Storage_Add_shape growslice i h s ps t p Hok Hch Hlast Hp).
    destruct (Z.eqb_spec (nitems p) PageSize) as [Hfull|_]; [lia|]. cbn.
    set (s1 := mkStorage (hash s) (<[Z.to_nat t := Page_with i p]> (pages s))
                 (pages_cap s) (abandoned s)).
    destruct (pages_with_room i s s1 h ps t p Hok Hch Hlast Hp ltac:(lia) eq_refl)
      as (Hok1 & Hch1 & _).
    pose proof (chain_last_range _ _ _ _ Hch Hlast) as Ht.
    destruct (IH ids h s1 ps t (Page_with i p) Hok1 Hch1 Hlast) as (s' & Hs' & Hok' & Hfull' & Hlen & Hcap).
    + cbn. apply list_lookup_insert_eq. unfold len in Ht. lia.
    + cbn. lia.
    + done.
    + exists s'. split_and!; [done|done|done| |done].
      rewrite Hlen. unfold len. cbn. by rewrite length_insert.
Qed.

(** An insert into a chain whose last page is full, when the slice of
    pages is at capacity: the pages move, the chain stays as it is. *)
Lemma Storage_Add_moved itemid h s :
  storage_ok s -> tail_full s h -> pages_cap s <= len (pages s) ->
  exists s', Storage_Add growslice itemid h s = Val (len (pages s), s') /\
             storage_ok s' /\ tail_full s' h /\
             len (pages s') = len (pages s) + 1 /\
             pages_cap s' = Z.max (len (pages s) + 1) (growslice (pages_cap s)).
Proof.
  intros Hok (ps & t & p & Hch & Hlast & Hp & Hfull) Hcap.
  rewrite (Storage_Add_shape growslice itemid h s ps t p Hok Hch Hlast Hp).
  destruct (Z.eqb_spec (nitems p) PageSize) as [_|]; [|done].
  destruct (Z.ltb_spec (len (pages s)) (pages_cap s)); [lia|].
  eexists. split; [done|].
  match goal with |- storage_ok ?s0 /\ _ => set (s' := s0) end.
  destruct (pages_moved itemid s s' Hok eq_refl) as (Hok' & Hsame & Hchains).
  pose proof (chain_last_range _ _ _ _ Hch Hlast) as Ht.
  split_and!; [done| | |done].
  - exists ps, t, p. split_and!; [by apply Hchains|done| |done].
    by rewrite Hsame.
  - unfold len. cbn. rewrite length_app. cbn. lia.
Qed.

(** The same insert when the slice has spare capacity: the new page is
    linked, by its number converted to [int32]. *)
Lemma Storage_Add_linked itemid h s :
  storage_ok s -> tail_full s h -> len (pages s) < pages_cap s ->
  exists s' t p,
    Storage_Add growslice itemid h s = Val (len (pages s), s') /\
    pages s !! Z.to_nat t = Some p /\ 0 <= t < len (pages s) /\
    pages s' = <[Z.to_nat t := Page_Link (len (pages s)) p]> (pages s)
                 ++ [Page_with itemid (Page_Init zeroPage)] /\
    pages s' !! Z.to_nat t = Some (Page_Link (len (pages s)) p) /\
    exists ps, chain s h ps /\ last ps = Some t.
Proof.
  intros Hok (ps & t & p & Hch & Hlast & Hp & Hfull) Hcap.
  rewrite (Storage_Add_shape growslice itemid h s ps t p Hok Hch Hlast Hp).
  destruct (Z.eqb_spec (nitems p) PageSize) as [_|]; [|done].
  destruct (Z.ltb_spec (len (pages s)) (pages_cap s)); [|lia].
  pose proof (chain_last_range _ _ _ _ Hch Hlast) as Ht.
  eexists _, t, p. split_and!; [done|done|lia|lia|done| |by exists ps]. cbn.
  rewrite lookup_app_l by (rewrite length_insert; unfold len in Ht; lia).
  apply list_lookup_insert_eq. unfold len in Ht. lia.
Qed.

(** Inserts into one chain add a page, as long as there is a page number
    for it. *)
Lemma Storage_Adds_one_page h s :
  storage_ok s -> 0 <= h < len (pages s) -> len (pages s) < MaxPages ->
  exists ids s', Storage_Adds growslice ids h s = Val s' /\
                 storage_ok s' /\ len (pages s') = len (pages s) + 1.
Proof.
  intros Hok Hh Hmax.
  destruct (chain_last s h Hok Hh) as (ps & t & p & Hch & Hlast & Hp & Ht & _).
  destruct (Hok _ _ Hp) as [_ Hn _].
  destruct (Storage_Adds_fill (Z.to_nat (PageSize - nitems p))
              (replicate (Z.to_nat (PageSize - nitems p)) 0) h s ps t p
              Hok Hch Hlast Hp) as (s1 & Hs1 & Hok1 & Hfull1 & Hlen1 & Hcap1);
    [lia|by rewrite length_replicate|].
  exists (replicate (Z.to_nat (PageSize - nitems p)) 0 ++ [0]).
  rewrite Storage_Adds_app, Hs1. cbn [mbind res_mbind res_bind Storage_Adds].
  destruct (Z.lt_ge_cases (len (pages s1)) (pages_cap s1)) as [Hcap|Hcap].
  - destruct Hfull1 as (ps1 & t1 & p1 & Hch1 & Hlast1 & Hp1 & Hf1).
    rewrite (Storage_Add_shape growslice 0 h s1 ps1 t1 p1 Hok1 Hch1 Hlast1 Hp1).
    destruct (Z.eqb_spec (nitems p1) PageSize) as [_|]; [|done].
    destruct (Z.ltb_spec (len (pages s1)) (pages_cap s1)); [|lia]. cbn.
    eexists. split; [done|].
    match goal with |- storage_ok ?s0 /\ _ => set (s' := s0) end.
    destruct (pages_linked 0 s1 s' h ps1 t1 p1 Hok1 Hch1 Hlast1 Hp1 ltac:(lia) eq_refl)
      as (Hok' & _).
    split; [done|]. unfold len in *. cbn. rewrite length_app, length_insert. cbn. lia.
  - destruct (Storage_Add_moved 0 h s1 Hok1 Hfull1 Hcap) as (s' & -> & Hok' & _ & Hlen' & _).
    cbn. exists s'. split_and!; [done|done|lia].
Qed.

(** Inserts into one chain add pages up to the last page number. *)
Lemma Storage_Adds_pages (n : nat) : forall h s,
  storage_ok s -> 0 <= h < len (pages s) ->
  len (pages s) + Z.of_nat n <= MaxPages ->
  exists ids s', Storage_Adds growslice ids h s = Val s' /\
                 storage_ok s' /\ len (pages s') = len (pages s) + Z.of_nat n.
Proof.
  induction n as [|n IH]; intros h s Hok Hh Hmax.
  - exists [], s. split_and!; [done|done|lia].
  - destruct (Storage_Adds_one_page h s Hok Hh) as (ids1 & s1 & Hs1 & Hok1 & Hlen1); [lia|].
    destruct (IH h s1 Hok1) as (ids2 & s2 & Hs2 & Hok2 & Hlen2); [lia|lia|].
    exists (ids1 ++ ids2), s2. rewrite Storage_Adds_app, Hs1.
    split_and!; [done|done|lia].
Qed.

(** A traversal from [h] that comes to a page whose link is below the
    sentinel panics with an index out of range: the check of the
    iterator lets the link pass, and [getPage] indexes the slice with
    it. *)
Lemma for_pages_broken {A : Type} s s' h ps t p'
    (body : A -> pageIter -> res A) :
  chain s h ps -> last ps = Some t -> NoDup ps ->
  (forall q, q ∈ ps -> q <> t -> pages s' !! Z.to_nat q = pages s !! Z.to_nat q) ->
  pages s' !! Z.to_nat t = Some p' -> link p' < -1 ->
  (forall a q, q ∈ ps -> is_Val (body a (iter_at s' q))) ->
  forall fuel c a, (length ps < fuel)%nat ->
  for_pages fuel s' (mkPageIter c h) body a = Fault IndexOutOfRange.
Proof.
  intros Hch Hlast Hnd Hsame Hp' Hlink Hbody.
  induction Hch as [|h p ps Hh Hp Hch IH]; intros fuel c a Hfuel; [done|].
  destruct fuel as [|fuel]; [cbn in Hfuel; lia|]. cbn [for_pages].
  apply NoDup_cons in Hnd as [Hnotin Hnd].
  destruct (Hbody a h) as [a' Ha']; [by left|].
  destruct (decide (h = t)) as [->|Hne].
  - rewrite (next_step _ _ _ _ Hh Hp'). cbn. rewrite Ha'. cbn.
    unfold iter_at. rewrite Hp'. cbn.
    destruct fuel as [|fuel].
    { cbn in Hfuel. lia. }
    cbn [for_pages]. unfold next. cbn.
    destruct (Z.eqb_spec (link p') (-1)); [lia|].
    destruct (Z.leb_spec (len (pages s')) (link p')); [unfold len in *; lia|].
    unfold getPage. rewrite index_out_of_range; [done|lia].
  - assert (pages s' !! Z.to_nat h = Some p) as Hp1.
    { rewrite Hsame; [done|by left|done]. }
    rewrite (next_step _ _ _ _ Hh Hp1). cbn. rewrite Ha'. cbn.
    unfold iter_at. rewrite Hp1. cbn.
    rewrite last_cons in Hlast. destruct (last ps) as [t'|] eqn:Hlast'; [|congruence].
    apply IH; [done|done| | |cbn in Hfuel; lia].
    + intros q Hq Hqt. apply Hsame; [by right|done].
    + intros a0 q Hq. apply Hbody. by right.
Qed.

(** Past the last [int32] page number the link of a new page is wrong. *)
Lemma Storage_Add_wraps itemid h s :
  storage_ok s -> tail_full s h ->
  MaxPages <= len (pages s) < 2 ^ 32 - 1 -> len (pages s) < pages_cap s ->
  exists s',
    Storage_Add growslice itemid h s = Val (len (pages s), s') /\
    len (pages s') = len (pages s) + 1 /\
    (exists (i : nat) p, pages s' !! i = Some p /\ link p < -1) /\
    drain s' h [] = Fault IndexOutOfRange.
Proof.
  intros Hok Hfull Hlen Hcap.
  destruct (Storage_Add_linked itemid h s Hok Hfull Hcap)
    as (s' & t & p & Hadd & Hp & Ht & Hpages & Hp' & ps & Hch & Hlast).
  assert (link (Page_Link (len (pages s)) p) < -1) as Hlink.
  { cbn. unfold int32, MaxPages in *. Z.div_mod_to_equations. lia. }
  exists s'. split_and!; [done| | |].
  - rewrite Hpages. unfold len. rewrite length_app, length_insert. cbn. lia.
  - by exists (Z.to_nat t), (Page_Link (len (pages s)) p).
  - pose proof (chain_pages _ _ _ Hch) as Hps. rewrite Forall_forall in Hps.
    assert (forall q, q ∈ ps -> q <> t ->
              pages s' !! Z.to_nat q = pages s !! Z.to_nat q) as Hsame.
    { intros q Hq Hqt. specialize (Hps q Hq). rewrite Hpages.
      rewrite lookup_app_l by (rewrite length_insert; unfold len in Hps; lia).
      apply list_lookup_insert_ne. lia. }
    unfold drain.
    apply (for_pages_broken s s' h ps t (Page_Link (len (pages s)) p));
      [done|done|by eapply chain_NoDup|done|done|done| |].
    + intros a q Hq. specialize (Hps q Hq).
      assert (exists pq pq0, pages s' !! Z.to_nat q = Some pq /\
                pages s !! Z.to_nat q = Some pq0 /\
                nitems pq = nitems pq0 /\ items pq = items pq0) as (pq & pq0 & Hpq & Hpq0 & Hn & Hi).
      { destruct (decide (q = t)) as [->|Hqt].
        - exists (Page_Link (len (pages s)) p), p. by split_and!.
        - destruct (lookup_in_range _ _ Hps) as [pq0 Hpq0].
          exists pq0, pq0. split_and!; [|done|done|done]. by rewrite Hsame. }
      change (iter_page s' (iter_at s' q)) with (getPage q s').
      rewrite (getPage_lookup _ _ _ (proj1 Hps) Hpq). cbn.
      rewrite (load_current _ _ _ (proj1 Hps) Hpq). cbn.
      destruct (Hok _ _ Hpq0) as [_ Hc Hil].
      unfold Page_Gets. rewrite Hn, Hi, Hil.
      destruct (Z.ltb_spec (nitems pq0) 0); [lia|].
      destruct (Z.ltb_spec PageSize (nitems pq0)); [lia|]. cbn. by eexists.
    + pose proof (chain_length _ _ _ Hok Hch) as Hl. unfold fuel_of.
      rewrite Hpages, length_app, length_insert. cbn. lia.
Qed.

End Growth.

(** With the capacities of the run-time system: inserts into one chain of
    a storage of [2^31] pages come to a page whose link is wrong.  Of
    the growth of the slice the proof uses only that a full slice of
    [2^31 + 1] pages grows by more than one page. *)
Lemma Storage_Adds_wrap h s :
  storage_ok s -> 0 <= h < len (pages s) -> len (pages s) = MaxPages ->
  exists ids s',
    Storage_Adds gc_growslice ids h s = Val s' /\
    MaxPages < len (pages s') /\
    (exists (i : nat) p, pages s' !! i = Some p /\ link p < -1) /\
    drain s' h [] = Fault IndexOutOfRange.
Proof.
  intros Hok Hh Hlen.
  destruct (chain_last s h Hok Hh) as (ps & t & p & Hch & Hlast & Hp & Ht & _).
  destruct (Hok _ _ Hp) as [_ Hn _].
  set (fill := replicate (Z.to_nat (PageSize - nitems p)) 0).
  destruct (Storage_Adds_fill gc_growslice (Z.to_nat (PageSize - nitems p)) fill
              h s ps t p Hok Hch Hlast Hp) as (s1 & Hs1 & Hok1 & Hfull1 & Hlen1 & Hcap1);
    [lia|by unfold fill; rewrite length_replicate|].
  unfold MaxPages in *.
  destruct (Z.lt_ge_cases (len (pages s1)) (pages_cap s1)) as [Hc1|Hc1].
  { destruct (Storage_Add_wraps gc_growslice 0 h s1 Hok1 Hfull1) as (s' & Hadd & Hlen' & Hbad & Hdrain);
      [unfold MaxPages; lia|done|].
    exists (fill ++ [0]), s'. rewrite Storage_Adds_app, Hs1. cbn. rewrite Hadd. cbn.
    split_and!; [done|lia|done|done]. }
  destruct (Storage_Add_moved gc_growslice 0 h s1 Hok1 Hfull1 Hc1)
    as (s2 & Hadd2 & Hok2 & Hfull2 & Hlen2 & Hcap2).
  destruct (Z.lt_ge_cases (len (pages s2)) (pages_cap s2)) as [Hc2|Hc2].
  { destruct (Storage_Add_wraps gc_growslice 0 h s2 Hok2 Hfull2) as (s' & Hadd & Hlen' & Hbad & Hdrain);
      [unfold MaxPages; lia|done|].
    exists (fill ++ [0; 0]), s'. rewrite Storage_Adds_app, Hs1. cbn.
    rewrite Hadd2. cbn. rewrite Hadd. cbn.
    split_and!; [done|lia|done|done]. }
  destruct (Storage_Add_moved gc_growslice 0 h s2 Hok2 Hfull2 Hc2)
    as (s3 & Hadd3 & Hok3 & Hfull3 & Hlen3 & Hcap3).
  assert (len (pages s3) < pages_cap s3) as Hc3.
  { assert (pages_cap s2 = 2 ^ 31 + 1) as Hcap2' by lia.
    rewrite Hcap3, Hcap2'. unfold gc_growslice.
    change (2 ^ 31 + 1 =? 0) with false. change (2 ^ 31 + 1 <? 256) with false. cbv iota.
    Z.div_mod_to_equations. lia. }
  destruct (Storage_Add_wraps gc_growslice 0 h s3 Hok3 Hfull3) as (s' & Hadd & Hlen' & Hbad & Hdrain);
    [unfold MaxPages; lia|done|].
  exists (fill ++ [0; 0; 0]), s'. rewrite Storage_Adds_app, Hs1. cbn.
  rewrite Hadd2. cbn. rewrite Hadd3. cbn. rewrite Hadd. cbn.
  split_and!; [done|lia|done|done].
Qed.

Lemma run_app {F : Type} `{Distance F} (ops1 : list (Z * list F)) :
  forall ops2 (idx : Indexer F),
  run gc_growslice (ops1 ++ ops2) idx =
  (idx1 ← run gc_growslice ops1 idx; run gc_growslice ops2 idx1).
Proof.
  induction ops1 as [|[i v] ops1 IH]; intros ops2 idx; [done|].
  cbn [app run].
  destruct (Indexer_Add gc_growslice i v idx) as [idx1|f]; [|done]. cbn. apply IH.
Qed.


End beyond_int32.
